(** * One-dimensional transient heat conduction: the simulation engine

    A shallow embedding of [NumericalForward.py] (matrix assembly, the
    theta-method step, the forward loop) and of
    [heat_transfer_simulation_utilities.py] (the run/pause/stop callback and
    the controller loop), with the properties the specification states
    about them.

    Numbers.  Python floats are modelled by exact rationals ([Qc], the
    canonical rationals of the standard library, whose equality is
    Leibniz equality).  Rounding is therefore absent: every statement
    below is a statement "under exact arithmetic".  The only non-finite
    values the model knows are the ones the linear solver produces on a
    singular system (see [spsolve]). *)

From Stdlib Require Import String Bool Arith ZArith QArith Qcanon Qcabs Qround Lia Lqa
  DecimalString List.
Import ListNotations.
Open Scope Qc_scope.

Set Implicit Arguments.

(** ** Python outcomes: a value, or a raised exception (by class name) *)

Inductive outcome (A : Type) : Type :=
| Ok (a : A)
| Raise (exn : string).
Arguments Ok {A} a.
Arguments Raise {A} exn.

(** Computations over a mutable state [S] that may raise. *)
Definition prog (S A : Type) : Type := S -> outcome (A * S).

Definition ret {S A} (a : A) : prog S A := fun s => Ok (a, s).
Definition throw {S A} (e : string) : prog S A := fun _ => Raise e.
Definition bind {S A B} (m : prog S A) (k : A -> prog S B) : prog S B :=
  fun s => match m s with
           | Ok (a, s') => k a s'
           | Raise e => Raise e
           end.
Definition gets {S A} (f : S -> A) : prog S A := fun s => Ok (f s, s).
Definition modify {S} (f : S -> S) : prog S unit := fun s => Ok (tt, f s).

Declare Scope prog_scope.
Delimit Scope prog_scope with prog.
Notation "x <- m ;; k" := (bind m (fun x => k))
  (at level 61, m at next level, right associativity) : prog_scope.
Notation "m ;;; k" := (bind m (fun _ => k))
  (at level 61, right associativity) : prog_scope.

(** ** Vectors and matrices *)

Definition vector := list Qc.
(** A matrix is the list of its rows.  The sparse formats of scipy
    ([dia], [csr]) store the same entries; only the entries matter here. *)
Definition matrix := list vector.

Definition qz (z : Z) : Qc := Q2Qc (inject_Z z).
Definition qn (n : nat) : Qc := qz (Z.of_nat n).

Fixpoint dot (u v : vector) : Qc :=
  match u, v with
  | a :: u', b :: v' => a * b + dot u' v'
  | _, _ => 0
  end.

Fixpoint vec_map2 (f : Qc -> Qc -> Qc) (u v : vector) : vector :=
  match u, v with
  | a :: u', b :: v' => f a b :: vec_map2 f u' v'
  | _, _ => []
  end.

Definition vec_scale (c : Qc) (v : vector) : vector := map (Qcmult c) v.
Definition vec_sub : vector -> vector -> vector := vec_map2 Qcminus.

Definition mat_vec (A : matrix) (v : vector) : vector :=
  map (fun row => dot row v) A.
Definition mat_scale (c : Qc) (A : matrix) : matrix := map (vec_scale c) A.

Fixpoint mat_map2 (f : Qc -> Qc -> Qc) (A B : matrix) : matrix :=
  match A, B with
  | r :: A', s :: B' => vec_map2 f r s :: mat_map2 f A' B'
  | _, _ => []
  end.
Definition mat_add : matrix -> matrix -> matrix := mat_map2 Qcplus.
Definition mat_sub : matrix -> matrix -> matrix := mat_map2 Qcminus.

Definition entry (A : matrix) (i j : nat) : Qc := nth j (nth i A []) 0.

(** [n] rows of [n] entries each. *)
Definition square (n : nat) (A : matrix) : Prop :=
  length A = n /\ Forall (fun row => length row = n) A.

(** Apply [f] to the entry at position [i] of a list (nothing out of range). *)
Fixpoint update_at {A} (i : nat) (f : A -> A) (l : list A) : list A :=
  match l, i with
  | [], _ => []
  | a :: l', O => f a :: l'
  | a :: l', S i' => a :: update_at i' f l'
  end.

Definition update_entry (i j : nat) (f : Qc -> Qc) (A : matrix) : matrix :=
  update_at i (update_at j f) A.

(** Python indexing of a sequence of length [len] by a possibly negative
    integer; [None] is [IndexError]. *)
Definition py_index (i : Z) (len : nat) : option nat :=
  if (0 <=? i)%Z then
    if (i <? Z.of_nat len)%Z then Some (Z.to_nat i) else None
  else
    if (- Z.of_nat len <=? i)%Z then Some (Z.to_nat (Z.of_nat len + i)) else None.

(** ** The linear solve

    [scipy.sparse.linalg.spsolve] is a direct (LU) solver.  Under exact
    arithmetic its answer on a nonsingular system is the unique solution,
    whatever the pivoting; the model computes it by Gaussian elimination
    with the first non-zero pivot.  On an exactly singular system scipy
    issues [MatrixRankWarning], fills the result with [nan] and returns it
    (no exception): [gauss] answers [None] there, and [spsolve] the array
    [NaNArr].

    numpy and scipy raise [ValueError] on operands whose shapes do not
    agree.  The shapes agree on every simulation the constructor builds
    (see [well_shaped] below), and the operations here are total: on other
    operands they truncate to the common shape. *)

Definition equation := (vector * Qc)%type.

Definition lead (r : equation) : Qc := hd 0 (fst r).

Fixpoint find_pivot (rows : list equation) : option (equation * list equation) :=
  match rows with
  | [] => None
  | r :: rs =>
      if Qc_eq_dec (lead r) 0 then
        match find_pivot rs with
        | Some (p, rest) => Some (p, r :: rest)
        | None => None
        end
      else Some (r, rs)
  end.

Definition eliminate (p r : equation) : equation :=
  let f := lead r / lead p in
  (vec_sub (tl (fst r)) (vec_scale f (tl (fst p))), snd r - f * snd p).

Fixpoint gauss (n : nat) (rows : list equation) : option vector :=
  match n with
  | O => Some []
  | S n' =>
      match find_pivot rows with
      | None => None
      | Some (p, rest) =>
          match gauss n' (map (eliminate p) rest) with
          | None => None
          | Some xs => Some ((snd p - dot (tl (fst p)) xs) / lead p :: xs)
          end
      end
  end.

(** A numpy array of floats: all entries finite (and then exact), or an
    array of the given length holding non-finite entries. *)
Inductive ndarray : Type :=
| Arr (v : vector)
| NaNArr (n : nat).

Definition arr_len (a : ndarray) : nat :=
  match a with Arr v => length v | NaNArr n => n end.

Definition spsolve (A : matrix) (b : ndarray) : ndarray :=
  match b with
  | NaNArr n => NaNArr n
  | Arr bv =>
      match gauss (length bv) (combine A bv) with
      | Some x => Arr x
      | None => NaNArr (length bv)
      end
  end.

(** A square matrix is nonsingular when its kernel is trivial. *)
Definition nonsingular (n : nat) (A : matrix) : Prop :=
  forall y : vector, length y = n -> mat_vec A y = repeat 0 n -> y = repeat 0 n.

(** The linear system [gauss] works on: [n] equations, each with [n]
    coefficients; [sat x] and [sat0 x] say that [x] solves an equation,
    resp. its homogeneous part. *)
Definition system (n : nat) (rows : list equation) : Prop :=
  length rows = n /\ Forall (fun r => length (fst r) = n) rows.

Definition sat (x : vector) (r : equation) : Prop := dot (fst r) x = snd r.
Definition sat0 (x : vector) (r : equation) : Prop := dot (fst r) x = 0.

(** [sum_n f n] is the sum of [f j] for [j < n]. *)
Fixpoint sum_n (f : nat -> Qc) (n : nat) : Qc :=
  match n with
  | O => 0
  | S n' => sum_n f n' + f n'
  end.

(** A row in which the diagonal entry outweighs the others. *)
Definition dominant_row (n : nat) (A : matrix) (i : nat) : Prop :=
  sum_n (fun j => if (j =? i)%nat then 0 else Qcabs (entry A i j)) n
  < Qcabs (entry A i i).

(** Each entry of the list is smaller than every later one. *)
Definition strictly_increasing (l : list Qc) : Prop :=
  forall i j : nat, (i < j)%nat -> (j < length l)%nat -> nth i l 0 < nth j l 0.


(** * NumericalForward.py *)

Module NumericalForward.

Local Open Scope prog_scope.
Local Open Scope string_scope.
Local Open Scope list_scope.

(** ** The object store

    numpy arrays and scipy matrices are objects with identity: the code
    updates them in place ([fill], [+=], [/=]) and keeps references to them
    in [Sim.T_record].  They live in a store and are named by their
    location.  A fresh object goes to the end of the store. *)

Definition loc := nat.

Record store : Type := {
  arrays : list ndarray;
  matrices : list matrix
}.

Definition empty_store : store := {| arrays := []; matrices := [] |}.

Definition load_array (l : loc) (h : store) : ndarray := nth l (arrays h) (Arr []).
Definition load_matrix (l : loc) (h : store) : matrix := nth l (matrices h) [].

Definition store_array (l : loc) (f : ndarray -> ndarray) (h : store) : store :=
  {| arrays := update_at l f (arrays h); matrices := matrices h |}.
Definition store_matrix (l : loc) (f : matrix -> matrix) (h : store) : store :=
  {| arrays := arrays h; matrices := update_at l f (matrices h) |}.

Definition new_array (a : ndarray) : prog store loc :=
  fun h => Ok (length (arrays h),
               {| arrays := arrays h ++ [a]; matrices := matrices h |}).
Definition new_matrix (A : matrix) : prog store loc :=
  fun h => Ok (length (matrices h),
               {| arrays := arrays h; matrices := matrices h ++ [A] |}).

(** ** Library operations used by the module *)

(** [a / b] on Python floats. *)
Definition py_div {S} (a b : Qc) : prog S Qc :=
  if Qc_eq_dec b 0 then throw "ZeroDivisionError" else ret (a / b).

(** [np.empty(n)]: a fresh array of [n] entries of arbitrary content (zeros
    here; the module overwrites it with [fill] before reading it). *)
Definition np_empty (n : Z) : prog store loc :=
  if (n <? 0)%Z then throw "ValueError"
  else new_array (Arr (repeat 0 (Z.to_nat n))).

(** [np.linspace(start, stop, num)]. *)
Definition np_linspace (start stop : Qc) (num : Z) : prog store loc :=
  if (num <? 0)%Z then throw "ValueError"
  else new_array
         (Arr (map (fun i => start + qn i * ((stop - start) / qz (num - 1)))
                   (seq 0 (Z.to_nat num)))).

(** [diags(diagonals, offsets, shape=(n, n))] with scalar diagonals: entry
    [(i, j)] is the diagonal whose offset is [j - i].  scipy refuses an
    offset that lies outside the shape. *)
Fixpoint diag_entry (ds : list (Qc * Z)) (i j : nat) : Qc :=
  match ds with
  | [] => 0
  | (d, k) :: ds' =>
      if (Z.of_nat j - Z.of_nat i =? k)%Z then d else diag_entry ds' i j
  end.

Definition diag_matrix (ds : list (Qc * Z)) (n : nat) : matrix :=
  map (fun i => map (diag_entry ds i) (seq 0 n)) (seq 0 n).

Definition diags {S} (diagonals : list Qc) (offsets : list Z) (n : Z)
  : prog S matrix :=
  if (n <? 0)%Z then throw "ValueError"
  else if forallb (fun k => (Z.abs k <=? n)%Z) offsets then
    ret (diag_matrix (combine diagonals offsets) (Z.to_nat n))
  else throw "ValueError".

(** Number of columns of a matrix. *)
Definition cols (A : matrix) : nat := length (hd [] A).

(** [A[i, j] = f(A[i, j])] in place, on the matrix at [l]. *)
Definition iupdate_entry (l : loc) (i j : Z) (f : Qc -> Qc) : prog store unit :=
  fun h =>
    let A := load_matrix l h in
    match py_index i (length A), py_index j (cols A) with
    | Some i', Some j' => Ok (tt, store_matrix l (update_entry i' j' f) h)
    | _, _ => Raise "IndexError"
    end.

(** A Python float that may be non-finite. *)
Definition float := option Qc.

(** [b[i] op= v] on the content of an array: a non-finite operand makes
    the array non-finite. *)
Definition nd_update (i : nat) (op : Qc -> Qc -> Qc) (v : float) (b : ndarray)
  : ndarray :=
  match b, v with
  | Arr bv, Some c => Arr (update_at i (fun e => op e c) bv)
  | _, _ => NaNArr (arr_len b)
  end.

(** [b[i] op= v] in place, on the array at [l]. *)
Definition iupdate_item (l : loc) (i : Z) (op : Qc -> Qc -> Qc) (v : float)
  : prog store unit :=
  fun h =>
    match py_index i (arr_len (load_array l h)) with
    | Some i' => Ok (tt, store_array l (nd_update i' op v) h)
    | None => Raise "IndexError"
    end.
Definition iadd_item (l : loc) (i : Z) (v : float) := iupdate_item l i Qcplus v.
Definition isub_item (l : loc) (i : Z) (v : float) := iupdate_item l i Qcminus v.

(** [a[i]] on an array. *)
Definition array_item (a : ndarray) (i : Z) : outcome float :=
  match py_index i (arr_len a) with
  | Some i' => Ok (match a with
                   | Arr v => Some (nth i' v 0)
                   | NaNArr _ => None
                   end)
  | None => Raise "IndexError"
  end.

(** [l[i]] on a Python list of floats. *)
Definition list_item (l : list Qc) (i : Z) : outcome Qc :=
  match py_index i (length l) with
  | Some i' => Ok (nth i' l 0)
  | None => Raise "IndexError"
  end.

Definition lift {S A} (o : outcome A) : prog S A :=
  fun s => match o with Ok a => Ok (a, s) | Raise e => Raise e end.

(** [B.dot(v)]: a non-finite operand gives a non-finite result. *)
Definition sp_dot (B : matrix) (v : ndarray) : ndarray :=
  match v with
  | Arr vv => Arr (mat_vec B vv)
  | NaNArr _ => NaNArr (length B)
  end.

Definition fscale (c : Qc) (v : float) : float := option_map (Qcmult c) v.

(** ** Material and Simulation *)

Record Material : Type := { rho : Qc; cp : Qc; lmbd : Qc }.

Definition Steel : Material := {| rho := qz 7850; cp := qz 520; lmbd := qz 50 |}.

Definition Default_AmbientTemperature (_ : Qc) : Qc := qz 21.

Record Simulation : Type := {
  L : Qc;
  Mat : Material;
  N : Z;
  T : loc;
  T_record : list loc;
  HeatFlux : Qc -> Qc;
  RobinAlpha : Qc;
  T_amb : Qc -> Qc;
  t : list Qc;
  dx : Qc;
  x : loc;
  M : loc;
  K : loc
}.

(** [Simulation.__init__]. *)
Definition Simulation_init (Length : Qc) (Material : Material) (N : Z)
    (HeatFlux AmbientTemperature : Qc -> Qc) (RobinAlpha : Qc)
  : prog store Simulation :=
  T_ <- np_empty (N + 1) ;;
  dx_ <- py_div Length (qz N) ;;
  x_ <- np_linspace 0 Length (N + 1) ;;
  D <- diags [qz 1 / qz 6; qz 4 / qz 6; qz 1 / qz 6] [-1; 0; 1]%Z (N + 1) ;;
  M_ <- new_matrix (mat_scale (dx_ * rho Material * cp Material) D) ;;
  r <- py_div 1 dx_ ;;
  D' <- diags [- qz 1; qz 2; - qz 1] [-1; 0; 1]%Z (N + 1) ;;
  K_ <- new_matrix (mat_scale (r * lmbd Material) D') ;;
  iupdate_entry K_ 0 0 (fun v => v / qz 2) ;;;
  iupdate_entry K_ N N (fun v => v / qz 2) ;;;
  ret {| L := Length; Mat := Material; N := N; T := T_; T_record := [];
         HeatFlux := HeatFlux; RobinAlpha := RobinAlpha;
         T_amb := AmbientTemperature; t := []; dx := dx_; x := x_;
         M := M_; K := K_ |}.

(** The matrices [Simulation.__init__] assembles. *)
Definition assembled_M (Length : Qc) (Material : Material) (N : Z) : matrix :=
  mat_scale (Length / qz N * rho Material * cp Material)
    (diag_matrix [(qz 1 / qz 6, (-1)%Z); (qz 4 / qz 6, 0%Z); (qz 1 / qz 6, 1%Z)]
       (Z.to_nat (N + 1))).

Definition assembled_K (Length : Qc) (Material : Material) (N : Z) : matrix :=
  update_entry (Z.to_nat N) (Z.to_nat N) (fun v => v / qz 2)
    (update_entry 0 0 (fun v => v / qz 2)
       (mat_scale (1 / (Length / qz N) * lmbd Material)
          (diag_matrix [(- qz 1, (-1)%Z); (qz 2, 0%Z); (- qz 1, 1%Z)]
             (Z.to_nat (N + 1))))).

(** ** The running simulation: the [Sim] object and the store *)

Record world : Type := { Sim : Simulation; heap : store }.

Definition on_heap {A} (m : prog store A) : prog world A :=
  fun w => match m (heap w) with
           | Ok (a, h) => Ok (a, {| Sim := Sim w; heap := h |})
           | Raise e => Raise e
           end.

Definition set_Sim (f : Simulation -> Simulation) : prog world unit :=
  modify (fun w => {| Sim := f (Sim w); heap := heap w |}).

Definition with_T (l : loc) (s : Simulation) : Simulation :=
  {| L := L s; Mat := Mat s; N := N s; T := l; T_record := T_record s;
     HeatFlux := HeatFlux s; RobinAlpha := RobinAlpha s; T_amb := T_amb s;
     t := t s; dx := dx s; x := x s; M := M s; K := K s |}.
Definition with_T_record (r : list loc) (s : Simulation) : Simulation :=
  {| L := L s; Mat := Mat s; N := N s; T := T s; T_record := r;
     HeatFlux := HeatFlux s; RobinAlpha := RobinAlpha s; T_amb := T_amb s;
     t := t s; dx := dx s; x := x s; M := M s; K := K s |}.
Definition with_t (ts : list Qc) (s : Simulation) : Simulation :=
  {| L := L s; Mat := Mat s; N := N s; T := T s; T_record := T_record s;
     HeatFlux := HeatFlux s; RobinAlpha := RobinAlpha s; T_amb := T_amb s;
     t := ts; dx := dx s; x := x s; M := M s; K := K s |}.

(** [Sim.M], [Sim.K], [Sim.T] as values, and [Sim.t[-1]], [Sim.T[-1]]. *)
Definition Sim_M : prog world matrix := gets (fun w => load_matrix (M (Sim w)) (heap w)).
Definition Sim_K : prog world matrix := gets (fun w => load_matrix (K (Sim w)) (heap w)).
Definition Sim_T : prog world ndarray := gets (fun w => load_array (T (Sim w)) (heap w)).
Definition Sim_t_last : prog world Qc := fun w => lift (list_item (t (Sim w)) (-1)) w.
Definition Sim_T_last : prog world float :=
  fun w => lift (array_item (load_array (T (Sim w)) (heap w)) (-1)) w.

(** [EvaluateNewStep(Sim, dt, theta)]; the result is the location of the
    array that [spsolve] returns.  In every state the constructor and the
    loop produce, [M] and [K] are square of the size of [T]
    ([well_shaped] below), and the properties of the step are stated for
    such states.  For operands of other shapes scipy raises [ValueError];
    the sums and products of matrices used here cut the longer operand
    instead, so that error is not represented. *)
Definition EvaluateNewStep (dt theta : Qc) : prog world loc :=
  Mv <- Sim_M ;;
  Kv <- Sim_K ;;
  A <- on_heap (new_matrix (mat_add Mv (mat_scale (dt * theta) Kv))) ;;
  Mv <- Sim_M ;;
  Kv <- Sim_K ;;
  Tv <- Sim_T ;;
  b <- on_heap (new_array (sp_dot (mat_sub Mv (mat_scale (dt * (1 - theta)) Kv)) Tv)) ;;
  q <- gets (fun w => HeatFlux (Sim w)) ;;
  alpha <- gets (fun w => RobinAlpha (Sim w)) ;;
  amb <- gets (fun w => T_amb (Sim w)) ;;
  tl <- Sim_t_last ;;
  on_heap (iadd_item b 0 (Some (dt * (1 - theta) * q tl))) ;;;
  tl <- Sim_t_last ;;
  on_heap (iadd_item b 0 (Some (dt * theta * q (tl + dt)))) ;;;
  Tl <- Sim_T_last ;;
  on_heap (isub_item b (-1) (fscale (dt * (1 - theta) * alpha) Tl)) ;;;
  on_heap (iupdate_entry A (-1) (-1) (fun v => v + dt * theta * alpha)) ;;;
  tl <- Sim_t_last ;;
  on_heap (iadd_item b (-1) (Some (dt * (1 - theta) * alpha * amb tl))) ;;;
  tl <- Sim_t_last ;;
  on_heap (iadd_item b (-1) (Some (dt * theta * alpha * amb (tl + dt)))) ;;;
  Av <- gets (fun w => load_matrix A (heap w)) ;;
  bv <- gets (fun w => load_array b (heap w)) ;;
  on_heap (new_array (spsolve Av bv)).

(** What one call of [EvaluateNewStep] hands to [spsolve], as values: the
    matrix [A] and the right-hand side [b] after all their updates. *)
Definition arr_last (a : ndarray) : float :=
  match a with
  | Arr v => Some (nth (length v - 1) v 0)
  | NaNArr _ => None
  end.

Definition step_matrix (Mv Kv : matrix) (alpha dt theta : Qc) : matrix :=
  let A := mat_add Mv (mat_scale (dt * theta) Kv) in
  update_entry (length A - 1) (cols A - 1) (fun v => v + dt * theta * alpha) A.

Definition step_rhs (Mv Kv : matrix) (Tv : ndarray) (q amb : Qc -> Qc)
    (alpha tl dt theta : Qc) : ndarray :=
  let b := sp_dot (mat_sub Mv (mat_scale (dt * (1 - theta)) Kv)) Tv in
  let last := (arr_len b - 1)%nat in
  nd_update last Qcplus (Some (dt * theta * alpha * amb (tl + dt)))
    (nd_update last Qcplus (Some (dt * (1 - theta) * alpha * amb tl))
       (nd_update last Qcminus (fscale (dt * (1 - theta) * alpha) (arr_last Tv))
          (nd_update 0 Qcplus (Some (dt * theta * q (tl + dt)))
             (nd_update 0 Qcplus (Some (dt * (1 - theta) * q tl)) b)))).

(** The shapes [Simulation.__init__] establishes: [M] and [K] are
    [n] by [n] and [T] has [n] entries, with [n = N + 1 >= 1]. *)
Definition well_shaped (n : nat) (w : world) : Prop :=
  (1 <= n)%nat
  /\ (M (Sim w) < length (matrices (heap w)))%nat
  /\ (K (Sim w) < length (matrices (heap w)))%nat
  /\ (T (Sim w) < length (arrays (heap w)))%nat
  /\ square n (load_matrix (M (Sim w)) (heap w))
  /\ square n (load_matrix (K (Sim w)) (heap w))
  /\ arr_len (load_array (T (Sim w)) (heap w)) = n.

(** The simulation assembled for [Length], [Material], [N], with zero heat
    flux and ambient temperature [T0], while every temperature it holds or
    has recorded is uniformly [T0]. *)
Definition at_rest (Length : Qc) (Material : Material) (N : Z) (T0 : Qc)
    (w : world) : Prop :=
  let n := Z.to_nat (N + 1) in
  well_shaped n w
  /\ load_matrix (M (Sim w)) (heap w) = assembled_M Length Material N
  /\ load_matrix (K (Sim w)) (heap w) = assembled_K Length Material N
  /\ (forall tau, HeatFlux (Sim w) tau = 0)
  /\ (forall tau, T_amb (Sim w) tau = T0)
  /\ load_array (T (Sim w)) (heap w) = Arr (repeat T0 n)
  /\ Forall (fun l => (l < length (arrays (heap w)))%nat
                      /\ load_array l (heap w) = Arr (repeat T0 n))
        (T_record (Sim w))
  /\ t (Sim w) <> [].

(** [w] has every object of [w0], unchanged, and the same [Sim]. *)
Definition extends (w0 w : world) : Prop :=
  Sim w = Sim w0
  /\ (exists new_arrays, arrays (heap w) = arrays (heap w0) ++ new_arrays)
  /\ (exists new_matrices, matrices (heap w) = matrices (heap w0) ++ new_matrices).

(** [m] keeps every object of [w0] as it is, and its result satisfies [P]. *)
Definition keeps {A} (w0 : world) (m : prog world A) (P : A -> Prop) : Prop :=
  forall w, extends w0 w ->
    match m w with
    | Ok (a, w') => extends w0 w' /\ P a
    | Raise _ => True
    end.

(** A [while] loop with a bound on the number of iterations: the result is
    [true] when the loop has exited, [false] when the bound was reached
    first (the state is then the one after [fuel] iterations). *)
Fixpoint while_ {S} (fuel : nat) (cond : prog S bool) (body : prog S unit)
  : prog S bool :=
  match fuel with
  | O => ret false
  | S fuel' =>
      c <- cond ;;
      if c : bool then body ;;; while_ fuel' cond body else ret true
  end.

Section Forward.

(** [CallBack] is [None] or an object with a method [Call(Sim)]; the method
    reads [Sim] and the arrays and updates the callback's own fields (as
    [DefaultCallBack.Call] does: it appends the interpolated temperature to
    its history, redraws the plot and advances [last_call]). *)
Variable CB : Type.
Variable Call : CB -> world -> CB.

Definition on_world {A} (m : prog world A) : prog (world * option CB) A :=
  fun s => match m (fst s) with
           | Ok (a, w) => Ok (a, (w, snd s))
           | Raise e => Raise e
           end.

Definition CallBack_Call : prog (world * option CB) unit :=
  modify (fun s => (fst s, option_map (fun cb => Call cb (fst s)) (snd s))).

(** [Sim.T.fill(T0)]: in place, on the array [Sim.T] refers to. *)
Definition Sim_T_fill (T0 : Qc) : prog world unit :=
  fun w => on_heap (modify (store_array (T (Sim w))
                              (fun a => Arr (repeat T0 (arr_len a))))) w.

Definition ForwardSimulation_body (theta dt : Qc) : prog (world * option CB) unit :=
  T' <- on_world (EvaluateNewStep dt theta) ;;
  on_world (set_Sim (with_T T')) ;;;
  on_world (set_Sim (fun s => with_T_record (T_record s ++ [T s]) s)) ;;;
  tl <- on_world Sim_t_last ;;
  on_world (set_Sim (fun s => with_t (t s ++ [tl + dt]) s)) ;;;
  CallBack_Call.

Definition ForwardSimulation_cond (t_stop : Qc) : prog (world * option CB) bool :=
  tl <- on_world Sim_t_last ;;
  ret (if Qclt_le_dec tl t_stop then true else false).

(** [ForwardSimulation(Sim, theta, T0, dt, t_start, t_stop, CallBack)],
    with at most [fuel] iterations of its loop. *)
Definition ForwardSimulation (fuel : nat) (theta T0 dt t_start t_stop : Qc)
  : prog (world * option CB) bool :=
  on_world (set_Sim (fun s => with_t (t s ++ [t_start]) s)) ;;;
  on_world (Sim_T_fill T0) ;;;
  on_world (set_Sim (fun s => with_T_record (T_record s ++ [T s]) s)) ;;;
  while_ fuel (ForwardSimulation_cond t_stop) (ForwardSimulation_body theta dt).

(** The state one iteration of the loop of [ForwardSimulation] leads to,
    from a state whose last time is [tl]. *)
Definition after_body (w : world) (cb : option CB) (tl dt theta : Qc)
  : world * option CB :=
  let s := Sim w in
  let h := heap w in
  let A := step_matrix (load_matrix (M s) h) (load_matrix (K s) h)
             (RobinAlpha s) dt theta in
  let b := step_rhs (load_matrix (M s) h) (load_matrix (K s) h)
             (load_array (T s) h) (HeatFlux s) (T_amb s) (RobinAlpha s)
             tl dt theta in
  let l := S (length (arrays h)) in
  let w' :=
    {| Sim := with_t (t s ++ [tl + dt])
                (with_T_record (T_record s ++ [l]) (with_T l s));
       heap := {| arrays := arrays h ++ [b; spsolve A b];
                  matrices := matrices h ++ [A] |} |} in
  (w', option_map (fun c => Call c w') cb).

(** The state in which the loop of [ForwardSimulation] starts. *)
Definition before_loop (w : world) (T0 t_start : Qc) : world :=
  {| Sim := with_T_record (T_record (Sim w) ++ [T (Sim w)])
              (with_t (t (Sim w) ++ [t_start]) (Sim w));
     heap := store_array (T (Sim w))
               (fun a => Arr (repeat T0 (arr_len a))) (heap w) |}.

End Forward.

(** ** Concrete simulations used in the examples *)

Definition blank_world : world :=
  {| Sim := {| L := 0; Mat := Steel; N := 0; T := 0%nat; T_record := [];
               HeatFlux := fun _ => 0; RobinAlpha := 0; T_amb := fun _ => 0;
               t := []; dx := 0; x := 0%nat; M := 0%nat; K := 0%nat |};
     heap := empty_store |}.

(** The simulation [Simulation(Length, Material, N, HeatFlux, AmbientTemperature,
    RobinAlpha)] builds in an empty store. *)
Definition constructed (Length : Qc) (Material : Material) (N : Z)
    (HeatFlux AmbientTemperature : Qc -> Qc) (RobinAlpha : Qc) : world :=
  match Simulation_init Length Material N HeatFlux AmbientTemperature RobinAlpha
          empty_store with
  | Ok (s, h) => {| Sim := s; heap := h |}
  | Raise _ => blank_world
  end.

(** Two elements of length 1/2, [rho * cp = 6], [lmbd = 1], no heat flux,
    ambient temperature 21 and [RobinAlpha = 5]. *)
Definition example_world : world :=
  constructed 1 {| rho := qz 6; cp := 1; lmbd := 1 |} 2
    (fun _ => 0) (fun _ => qz 21) (qz 5).

(** One element of length 1 with a negative [RobinAlpha = -5]; with
    [dt = theta = 1] the step matrix is [[5, 0], [0, 0]]. *)
Definition singular_world : world :=
  constructed 1 {| rho := qz 6; cp := 1; lmbd := 1 |} 1
    (fun _ => 0) (fun _ => qz 21) (- qz 5).

(** ** States of a run *)

(** An array of [n] finite entries. *)
Definition finite_array (n : nat) (a : ndarray) : Prop :=
  exists v : vector, a = Arr v /\ length v = n.

(** A simulation whose matrices are the ones [Simulation.__init__]
    assembles for [Length], [Material], [N], with the shapes it
    establishes. *)
Definition assembled (Length : Qc) (Material : Material) (N : Z) (w : world)
  : Prop :=
  well_shaped (Z.to_nat (N + 1)) w
  /\ load_matrix (M (Sim w)) (heap w) = assembled_M Length Material N
  /\ load_matrix (K (Sim w)) (heap w) = assembled_K Length Material N.

(** The sum of the entries of a vector.  [total (mat_vec M T)] is the heat
    the scheme attributes to the temperature field [T]. *)
Definition total (v : vector) : Qc := fold_right Qcplus 0 v.

(** Every entry raised by [c]. *)
Definition offset (c : Qc) (v : vector) : vector := map (fun a => a + c) v.

(** ** DefaultCallBack *)

(** [l[i]] on a Python list. *)
Definition seq_item {A} (l : list A) (i : Z) : outcome A :=
  match py_index i (length l) with
  | Some i' =>
      match nth_error l i' with
      | Some a => Ok a
      | None => Raise "IndexError"
      end
  | None => Raise "IndexError"
  end.

(** [np.interp(x, xp, fp)] for a scalar [x] and increasing sample points
    [xp]: the value at [x] of the piecewise linear function through the
    points [(xp[j], fp[j])], and [fp[0]], [fp[-1]] to the left and to the
    right of them.  numpy refuses an empty [xp] and an [fp] of another
    length.  [interp_from x xa fa xp fp] is the value when [xa <= x], for
    the sample point [(xa, fa)] followed by the points of [xp], [fp].
    For sample points that are not increasing numpy documents no result
    (it searches [xp] by bisection); the values of this definition are
    those of numpy for increasing [xp] only, as on the mesh of a
    simulation with [Length > 0]. *)
Fixpoint interp_from (x xa fa : Qc) (xp fp : vector) : Qc :=
  match xp, fp with
  | xb :: xp', fb :: fp' =>
      if Qclt_le_dec x xb then
        if Qc_eq_dec x xa then fa
        else (fb - fa) / (xb - xa) * (x - xa) + fa
      else interp_from x xb fb xp' fp'
  | _, _ => fa
  end.

Definition np_interp (x : Qc) (xp fp : ndarray) : outcome float :=
  if (arr_len xp =? 0)%nat then Raise "ValueError"
  else if negb (arr_len fp =? arr_len xp)%nat then Raise "ValueError"
  else
    match xp, fp with
    | Arr (xa :: xp'), Arr (fa :: fp') =>
        Ok (Some (if Qclt_le_dec x xa then fa else interp_from x xa fa xp' fp'))
    | _, _ => Ok None
    end.

(** What the callback shows: the calls of [matplotlib.pyplot] and the
    line it prints (temperature at [x0], time, heat flux). *)
Inductive display : Type :=
| Clf
| Axis (limits : Qc * Qc * Qc * Qc)
| Plot (xs : list Qc) (ys : list float)
| Pause (interval : Qc)
| PrintLine (temperature : float) (time flux : Qc).

(** [ExperimentData] is [None] or a pair of sequences (times, values). *)
Record DefaultCallBack : Type := {
  Call_at : Qc;
  last_call : Qc;
  plot_limits : Qc * Qc * Qc * Qc;
  x0 : Qc;
  TempHistoryAtPoint_x0 : list float;
  ExperimentData : option (list Qc * list Qc)
}.

(** [DefaultCallBack.__init__]. *)
Definition DefaultCallBack_init (Call_at : Qc) (plot_limits : Qc * Qc * Qc * Qc)
    (x0 : Qc) (ExperimentData : option (list Qc * list Qc)) : DefaultCallBack :=
  {| Call_at := Call_at; last_call := 0; plot_limits := plot_limits; x0 := x0;
     TempHistoryAtPoint_x0 := []; ExperimentData := ExperimentData |}.

(** [DefaultCallBack()], the default of the parameter [CallBack] of
    [ForwardSimulation]. *)
Definition DefaultCallBack_default : DefaultCallBack :=
  DefaultCallBack_init (qz 100) (0, qz 5000, qz 20, qz 40) 0 None.

(** The callback object together with what has been shown so far. *)
Definition shown := (DefaultCallBack * list display)%type.

Definition with_TempHistoryAtPoint_x0 (h : list float) (self : DefaultCallBack)
  : DefaultCallBack :=
  {| Call_at := Call_at self; last_call := last_call self;
     plot_limits := plot_limits self; x0 := x0 self;
     TempHistoryAtPoint_x0 := h; ExperimentData := ExperimentData self |}.
Definition with_last_call (c : Qc) (self : DefaultCallBack) : DefaultCallBack :=
  {| Call_at := Call_at self; last_call := c;
     plot_limits := plot_limits self; x0 := x0 self;
     TempHistoryAtPoint_x0 := TempHistoryAtPoint_x0 self;
     ExperimentData := ExperimentData self |}.

Definition plt (d : display) : prog shown unit :=
  modify (fun s => (fst s, snd s ++ [d])).

(** [plt.plot(xs, ys)]: matplotlib refuses sequences of different
    lengths. *)
Definition plt_plot (xs : list Qc) (ys : list float) : prog shown unit :=
  if (length xs =? length ys)%nat then plt (Plot xs ys) else throw "ValueError".

(** [DefaultCallBack.Call(Sim)]. *)
Definition DefaultCallBack_Call (w : world) : prog shown unit :=
  self <- gets fst ;;
  v <- lift (np_interp (x0 self) (load_array (x (Sim w)) (heap w))
               (load_array (T (Sim w)) (heap w))) ;;
  modify (fun s => (with_TempHistoryAtPoint_x0
                      (TempHistoryAtPoint_x0 (fst s) ++ [v]) (fst s), snd s)) ;;;
  tl <- lift (list_item (t (Sim w)) (-1)) ;;
  self <- gets fst ;;
  if Qclt_le_dec (last_call self + Call_at self) tl then
    plt Clf ;;;
    plt (Axis (plot_limits self)) ;;;
    plt_plot (skipn 1 (t (Sim w))) (TempHistoryAtPoint_x0 self) ;;;
    match ExperimentData self with
    | Some (ts, vs) => plt_plot ts (map Some vs)
    | None => ret tt
    end ;;;
    plt (Pause (1 / qz 100)) ;;;
    v_last <- lift (seq_item (TempHistoryAtPoint_x0 self) (-1)) ;;
    tl1 <- lift (list_item (t (Sim w)) (-1)) ;;
    tl2 <- lift (list_item (t (Sim w)) (-1)) ;;
    plt (PrintLine v_last tl1 (HeatFlux (Sim w) tl2)) ;;;
    modify (fun s => (with_last_call (last_call (fst s) + Call_at (fst s)) (fst s),
                      snd s))
  else ret tt.


(** The sequences of [ExperimentData] can be plotted against each other. *)
Definition plottable (e : option (list Qc * list Qc)) : bool :=
  match e with
  | Some (ts, vs) => (length ts =? length vs)%nat
  | None => true
  end.

(** The callback as [ForwardSimulation] uses it.  An exception of
    [Call] ends the run; the loop above has no such exit, and the state of
    the callback records the exception instead: a run whose callback state
    is [Ok] at the end is a run of the program. *)
Definition DefaultCallBack_in_loop (o : outcome shown) (w : world) : outcome shown :=
  match o with
  | Ok s =>
      match DefaultCallBack_Call w s with
      | Ok (_, s') => Ok s'
      | Raise e => Raise e
      end
  | Raise e => Raise e
  end.

(** ** A further concrete simulation used in the examples: the two
    elements of [example_world] under a heat flux of 3, started at the
    uniform temperature 20 and time 0. *)
Definition heated_world : world :=
  before_loop
    (constructed 1 {| rho := qz 6; cp := 1; lmbd := 1 |} 2
       (fun _ => qz 3) (fun _ => qz 21) (qz 5))
    (qz 20) 0.


(** The same with every temperature raised by 273. *)
Definition heated_world_kelvin : world :=
  before_loop
    (constructed 1 {| rho := qz 6; cp := 1; lmbd := 1 |} 2
       (fun _ => qz 3) (fun _ => qz 21 + qz 273) (qz 5))
    (qz 20 + qz 273) 0.

End NumericalForward.

(** * heat_transfer_simulation_utilities.py *)

Module Utilities.

Local Open Scope string_scope.
Local Open Scope list_scope.

(** What the module does to the outside world, in order. *)
Inductive event : Type :=
| TemperaturePlot
| HeatFluxPlot (with_simulated_values : bool)
| Print (msg : string)
| Emit (value : Z)
| Sleep
| SaveCsv.

(** [Callback].  The plots and the progress channel are external objects:
    the record keeps whether each is present ([is not None]).  [queue] is
    the content of the control queue, oldest message first; the GUI thread
    is its producer (see [gui_put]). *)
Record Callback : Type := {
  call_at : Qc;
  last_call : Qc;
  temperature_plot : bool;
  heat_flux_plot : bool;
  queue : option (list string);
  progress_callback : bool;
  not_replot_heatflux : bool;
  heat_flux_already_plotted : bool;
  simulation_state : string
}.

(** [Callback.__init__]. *)
Definition Callback_init (call_at : Qc) (heat_flux_plot temperature_plot : bool)
    (queue : option (list string)) (progress_callback not_replot_heatflux : bool)
  : Callback :=
  {| call_at := call_at; last_call := 0;
     temperature_plot := temperature_plot; heat_flux_plot := heat_flux_plot;
     queue := queue; progress_callback := progress_callback;
     not_replot_heatflux := not_replot_heatflux;
     heat_flux_already_plotted := false;
     simulation_state := "running" |}.

(** The GUI thread puts messages at the back of the queue. *)
Definition gui_put (msgs : list string) (self : Callback) : Callback :=
  {| call_at := call_at self; last_call := last_call self;
     temperature_plot := temperature_plot self;
     heat_flux_plot := heat_flux_plot self;
     queue := option_map (fun q => q ++ msgs) (queue self);
     progress_callback := progress_callback self;
     not_replot_heatflux := not_replot_heatflux self;
     heat_flux_already_plotted := heat_flux_already_plotted self;
     simulation_state := simulation_state self |}.

(** The reporting part of [Callback.__call__] (lines 70-91). *)
Definition Callback_report (current_t : Qc) (force_update : bool) (self : Callback)
  : Callback * list event :=
  if (if Qclt_le_dec (last_call self + call_at self) current_t then true else false)
     || force_update
  then
    let ev1 := if temperature_plot self then [TemperaturePlot] else [] in
    let plot_flux := negb (heat_flux_already_plotted self) && heat_flux_plot self in
    let ev2 := if plot_flux then [HeatFluxPlot (negb (not_replot_heatflux self))] else [] in
    ({| call_at := call_at self;
        last_call := last_call self + call_at self;
        temperature_plot := temperature_plot self;
        heat_flux_plot := heat_flux_plot self;
        queue := queue self;
        progress_callback := progress_callback self;
        not_replot_heatflux := not_replot_heatflux self;
        heat_flux_already_plotted :=
          if plot_flux && not_replot_heatflux self then true
          else heat_flux_already_plotted self;
        simulation_state := simulation_state self |},
     ev1 ++ ev2)
  else (self, []).

(** The state a message asks for (lines 102-107). *)
Definition next_state (msg state : string) : string :=
  if String.eqb msg "stop" then "stopped"
  else if String.eqb msg "pause" then "paused"
  else if String.eqb msg "continue" then "running"
  else state.

(** The polling part of [Callback.__call__] (lines 95-107). *)
Definition Callback_poll (self : Callback) : Callback * list event :=
  match queue self with
  | Some (msg :: rest) =>
      ({| call_at := call_at self; last_call := last_call self;
          temperature_plot := temperature_plot self;
          heat_flux_plot := heat_flux_plot self;
          queue := Some rest;
          progress_callback := progress_callback self;
          not_replot_heatflux := not_replot_heatflux self;
          heat_flux_already_plotted := heat_flux_already_plotted self;
          simulation_state := next_state msg (simulation_state self) |},
       [Print msg])
  | _ => (self, [])
  end.

(** The progress signal of [Callback.__call__] (lines 111-113). *)
Definition Callback_emit (self : Callback) : list event :=
  if progress_callback self then
    [Emit (if String.eqb (simulation_state self) "running" then 1 else 0)%Z]
  else [].

(** [Callback.__call__(Sim, force_update)]: the state it returns, the
    callback afterwards, and what it did. *)
Definition Callback_call (current_t : Qc) (force_update : bool) (self : Callback)
  : string * Callback * list event :=
  let '(self1, ev1) := Callback_report current_t force_update self in
  let '(self2, ev2) := Callback_poll self1 in
  (simulation_state self2, self2, ev1 ++ ev2 ++ Callback_emit self2).

Section Controller.

(** The [Sim] object the controller drives belongs to another module of the
    repository; the controller uses these four members of it. *)
Variable SimT : Type.
Variable current_t : SimT -> Qc.
Variable simulation_has_finished : SimT -> bool.
Variable evaluate_one_step : SimT -> SimT.
Variable calculate_final_error : SimT -> Qc.

(** [SimulationController], with the log of its effects, the number of
    steps it has asked [Sim] to evaluate and the number of times it has
    called the callback. *)
Record SimulationController : Type := {
  Sim : SimT;
  MyCallBack : Callback;
  save_results : bool;
  error_norm : option Qc;
  log : list event;
  steps : nat;
  calls : nat
}.

Definition SimulationController_init (Sim : SimT) (callback_period : Qc)
    (progress_callback : bool) (queue : option (list string))
    (temperature_plot heat_flux_plot not_replot_heatflux save_results : bool)
  : SimulationController :=
  {| Sim := Sim;
     MyCallBack := Callback_init callback_period heat_flux_plot temperature_plot
                     queue progress_callback not_replot_heatflux;
     save_results := save_results;
     error_norm := None;
     log := []; steps := 0; calls := 0 |}.

(** [arrivals n]: the messages the GUI thread has put on the queue between
    the previous call of the callback and call number [n]. *)
Definition schedule := nat -> list string.

(** [self.MyCallBack(self.Sim, force_update)]. *)
Definition call_MyCallBack (arrivals : schedule) (force_update : bool)
    (self : SimulationController) : string * SimulationController :=
  let cb := gui_put (arrivals (calls self)) (MyCallBack self) in
  let '(state, cb', ev) := Callback_call (current_t (Sim self)) force_update cb in
  (state,
   {| Sim := Sim self; MyCallBack := cb'; save_results := save_results self;
      error_norm := error_norm self; log := log self ++ ev;
      steps := steps self; calls := S (calls self) |}).

Definition do_step (self : SimulationController) : SimulationController :=
  {| Sim := evaluate_one_step (Sim self); MyCallBack := MyCallBack self;
     save_results := save_results self; error_norm := error_norm self;
     log := log self; steps := S (steps self); calls := calls self |}.

Definition do_log (ev : list event) (self : SimulationController)
  : SimulationController :=
  {| Sim := Sim self; MyCallBack := MyCallBack self;
     save_results := save_results self; error_norm := error_norm self;
     log := log self ++ ev; steps := steps self; calls := calls self |}.

(** How the loop of [complete_simulation] ended. *)
Inductive loop_exit : Type :=
| FINISHED      (* the loop condition became false *)
| STOPPED       (* [break] in the "stopped" branch *)
| OutOfFuel.    (* still looping after the given number of iterations *)

(** One iteration of the loop body (lines 160-170); [true] when it breaks. *)
Definition loop_body (arrivals : schedule) (self : SimulationController)
  : bool * SimulationController :=
  let '(simulation_state, self1) := call_MyCallBack arrivals false self in
  if String.eqb simulation_state "running" then (false, do_step self1)
  else if String.eqb simulation_state "paused" then (false, do_log [Sleep] self1)
  else if String.eqb simulation_state "stopped" then
         (true, do_log [Print "stopping"] self1)
  else (false, self1).

Fixpoint controller_loop (fuel : nat) (arrivals : schedule)
    (self : SimulationController) : loop_exit * SimulationController :=
  match fuel with
  | O => (OutOfFuel, self)
  | S fuel' =>
      if simulation_has_finished (Sim self) then (FINISHED, self)
      else
        let '(brk, self') := loop_body arrivals self in
        if brk : bool then (STOPPED, self')
        else controller_loop fuel' arrivals self'
  end.

(** What follows the loop (lines 172-183). *)
Definition after_loop (arrivals : schedule) (self : SimulationController)
  : Qc * SimulationController :=
  let '(_, self1) := call_MyCallBack arrivals true self in
  let e := calculate_final_error (Sim self1) in
  let self2 :=
    {| Sim := Sim self1; MyCallBack := MyCallBack self1;
       save_results := save_results self1; error_norm := Some e;
       log := log self1 ++ [Print "Error norm"]
                ++ (if save_results self1 then [SaveCsv] else []);
       steps := steps self1; calls := calls self1 |} in
  (e, self2).

(** [complete_simulation], with at most [fuel] iterations of its loop:
    [None] when the loop is still going after them. *)
Definition complete_simulation (fuel : nat) (arrivals : schedule)
    (self : SimulationController)
  : option (loop_exit * Qc * SimulationController) :=
  match controller_loop fuel arrivals self with
  | (OutOfFuel, _) => None
  | (ex, self') =>
      let '(e, self'') := after_loop arrivals self' in Some (ex, e, self'')
  end.

End Controller.

(** ** A concrete run used in the examples: the history is a list that
    grows by one entry per step, the simulation finishes at five entries,
    and the GUI sends [stop] before the second call of the callback. *)

Definition example_controller : SimulationController (list Qc) :=
  SimulationController_init [0] (qz 500) true (Some []) false false false false.

Definition example_schedule : schedule :=
  fun n => if (n =? 1)%nat then ["stop"] else [].

Definition example_current_t (s : list Qc) : Qc := qn (length s).
Definition example_finished (s : list Qc) : bool := (5 <=? length s)%nat.
Definition example_step (s : list Qc) : list Qc := s ++ [0].
Definition example_error (_ : list Qc) : Qc := 0.

(** ** Counting what a run has shown *)

Definition is_TemperaturePlot (e : event) : bool :=
  match e with TemperaturePlot => true | _ => false end.
Definition is_HeatFluxPlot (e : event) : bool :=
  match e with HeatFluxPlot _ => true | _ => false end.

(** The number of times the temperature plot, resp. the heat flux plot,
    has been drawn according to a log. *)
Definition temperature_plots (log : list event) : nat :=
  length (filter is_TemperaturePlot log).
Definition heat_flux_plots (log : list event) : nat :=
  length (filter is_HeatFluxPlot log).

(** Whether a call of the callback reports (line 70). *)
Definition reports (current_t : Qc) (force_update : bool) (self : Callback) : bool :=
  (if Qclt_le_dec (last_call self + call_at self) current_t then true else false)
  || force_update.

(** No message reaches the callback: it has no queue, or its queue is
    empty and the GUI thread puts nothing on it. *)
Definition quiet (arrivals : schedule) (cb : Callback) : Prop :=
  queue cb = None \/ (queue cb = Some [] /\ forall n, arrivals n = []).

(** ** _save_results_to_csv_file *)

(** A cell handed to [csv.writer] is a string or a number (the writer
    formats it), a row is a list of cells and a file the list of its rows.
    The files of the working directory are kept by name. *)
Inductive cell : Type :=
| Text (s : string)
| Number (v : Qc).

Definition csv_row := list cell.
Definition files := list (string * list csv_row).

Definition read_file (name : string) (fs : files) : option (list csv_row) :=
  option_map snd (find (fun f => String.eqb (fst f) name) fs).

(** [open(name, "w")] and the rows written before the file is closed: the
    file is created, or replaced when there is one of that name. *)
Definition write_file (name : string) (rows : list csv_row) (fs : files) : files :=
  (name, rows) :: filter (fun f => negb (String.eqb (fst f) name)) fs.

(** [int(x)] on a float rounds towards zero; [str] of an integer. *)
Definition py_int (x : Qc) : Z :=
  if Qclt_le_dec x 0 then Qceiling x else Qfloor x.
Definition py_str_int (z : Z) : string := NilZero.string_of_int (Z.to_int z).

Section Save.

Variable SimT : Type.

(** [getattr(sim_object, name)] for an attribute that holds a sequence of
    numbers; [None] when [Sim] has no attribute of that name. *)
Variable Sim_getattr : SimT -> string -> option (list Qc).

Definition csv_file_name (algorithm : string) (now : Qc) : string :=
  algorithm ++ "-" ++ py_str_int (py_int now) ++ ".csv".

(** [SimulationController._save_results_to_csv_file], for the fields
    [algorithm], [time_data_location], [quantity_data_location],
    [quantity_and_unit] and [Sim] of the controller; [now] is what
    [time.time()] returns. *)
Definition _save_results_to_csv_file
    (algorithm time_data_location quantity_data_location quantity_and_unit : string)
    (Sim : SimT) (now : Qc) : prog files unit :=
  let file_name := csv_file_name algorithm now in
  match Sim_getattr Sim time_data_location with
  | None => throw "AttributeError"
  | Some time_data =>
      match Sim_getattr Sim quantity_data_location with
      | None => throw "AttributeError"
      | Some quantity_data =>
          let headers := [Text "Time [s]"; Text quantity_and_unit] in
          modify (write_file file_name
                    (headers
                     :: map (fun p => [Number (fst p); Number (snd p)])
                          (combine time_data quantity_data)))
      end
  end.

End Save.

(** ** Further concrete runs used in the examples *)

(** The controller of [example_controller] while it is paused. *)
Definition example_paused_controller : SimulationController (list Qc) :=
  {| Sim := [0];
     MyCallBack :=
       {| call_at := qz 500; last_call := 0; temperature_plot := false;
          heat_flux_plot := false; queue := Some []; progress_callback := true;
          not_replot_heatflux := false; heat_flux_already_plotted := false;
          simulation_state := "paused" |};
     save_results := false; error_norm := None; log := []; steps := 0; calls := 0 |}.

(** A controller with both plots, a reporting period of 2 and
    [not_replot_heatflux]. *)
Definition example_plotting_controller : SimulationController (list Qc) :=
  SimulationController_init [0] (qz 2) true (Some []) true true true false.

(** A [Sim] object with the attributes [t] and [T_x0]. *)
Definition example_getattr (Sim : list Qc * list Qc) (name : string)
  : option (list Qc) :=
  if String.eqb name "t" then Some (fst Sim)
  else if String.eqb name "T_x0" then Some (snd Sim)
  else None.

End Utilities.

(** * Properties *)

(** ** Transfer of ordered-field goals from [Qc] to [Q] *)

Lemma Qc_eq_Qeq (x y : Qc) : x = y -> (x == y)%Q.
Proof. intros ->. reflexivity. Qed.

Ltac qc_to_q :=
  repeat match goal with
  | H : @eq Qc _ _ |- _ => apply Qc_eq_Qeq in H
  | H : ~ @eq Qc _ _ |- _ =>
      let H' := fresh in
      assert (H' : ~ (_ == _)%Q)
        by (intro; apply H; apply Qc_is_canon; eassumption);
      clear H
  | |- @eq Qc _ _ => apply Qc_is_canon
  | |- ~ @eq Qc _ _ => let E := fresh in intro E
  end;
  unfold Qclt, Qcle, Qcdiv, Qcminus, Qcplus, Qcmult, Qcopp, Qcinv, Q2Qc in *;
  cbn [this] in *;
  repeat (rewrite !Qred_correct in * );
  repeat match goal with
  | H : _ |- _ => rewrite !Qred_correct in H
  end.

Ltac qc_lra := qc_to_q; lra.
Ltac qc_nra := qc_to_q; nra.

(** ** The controller loop and its callback *)

Section ControllerProperties.

Import Utilities.
Local Open Scope nat_scope.
Local Open Scope string_scope.
Local Open Scope list_scope.

Variable SimT : Type.
Variable current_t : SimT -> Qc.
Variable simulation_has_finished : SimT -> bool.
Variable evaluate_one_step : SimT -> SimT.
Variable calculate_final_error : SimT -> Qc.

Abbreviation controller := (SimulationController SimT).
Abbreviation body := (loop_body current_t evaluate_one_step).
Abbreviation loop := (controller_loop current_t simulation_has_finished evaluate_one_step).
Abbreviation complete :=
  (complete_simulation current_t simulation_has_finished evaluate_one_step
     calculate_final_error).

Lemma Callback_report_queue (ct : Qc) (f : bool) (cb : Callback) :
  queue (fst (Callback_report ct f cb)) = queue cb
  /\ simulation_state (fst (Callback_report ct f cb)) = simulation_state cb.
Proof.
  unfold Callback_report.
  destruct (_ || f); simpl; auto.
Qed.

Lemma Callback_call_poll (ct : Qc) (f : bool) (cb : Callback) :
  let '(st, cb', _) := Callback_call ct f cb in
  st = simulation_state cb'
  /\ match queue cb with
     | Some (msg :: rest) =>
         queue cb' = Some rest
         /\ simulation_state cb' = next_state msg (simulation_state cb)
     | _ => queue cb' = queue cb /\ simulation_state cb' = simulation_state cb
     end.
Proof.
  unfold Callback_call.
  destruct (Callback_report_queue ct f cb) as [Hq Hs].
  destruct (Callback_report ct f cb) as [cb1 ev1]; simpl in Hq, Hs.
  unfold Callback_poll. rewrite Hq.
  destruct (queue cb) as [[|msg rest]|]; simpl; rewrite ?Hq, ?Hs; auto.
Qed.

Lemma next_state_cases (msg st : string) :
  (msg = "stop" -> next_state msg st = "stopped")
  /\ (msg = "pause" -> next_state msg st = "paused")
  /\ (msg = "continue" -> next_state msg st = "running")
  /\ (msg <> "stop" -> msg <> "pause" -> msg <> "continue" ->
      next_state msg st = st).
Proof.
  unfold next_state. repeat split.
  - intros ->. reflexivity.
  - intros ->. reflexivity.
  - intros ->. reflexivity.
  - intros H1 H2 H3.
    apply String.eqb_neq in H1, H2, H3. now rewrite H1, H2, H3.
Qed.

Lemma loop_body_Sim (arrivals : schedule) (self : controller) :
  let cb := gui_put (arrivals (calls self)) (MyCallBack self) in
  let st := fst (fst (Callback_call (current_t (Sim self)) false cb)) in
  let cb' := snd (fst (Callback_call (current_t (Sim self)) false cb)) in
  MyCallBack (snd (body arrivals self)) = cb'
  /\ calls (snd (body arrivals self)) = S (calls self)
  /\ fst (body arrivals self) = String.eqb st "stopped"
  /\ (st = "running" ->
      Sim (snd (body arrivals self)) = evaluate_one_step (Sim self)
      /\ steps (snd (body arrivals self)) = S (steps self))
  /\ (st <> "running" ->
      Sim (snd (body arrivals self)) = Sim self
      /\ steps (snd (body arrivals self)) = steps self).
Proof.
  unfold loop_body, call_MyCallBack. cbv zeta.
  destruct (Callback_call _ _ _) as [[st cb'] ev]. cbn [fst snd].
  destruct (String.eqb st "running") eqn:E1.
  { apply String.eqb_eq in E1. subst st. cbn. repeat split; auto; congruence. }
  apply String.eqb_neq in E1.
  destruct (String.eqb st "paused") eqn:E2.
  { apply String.eqb_eq in E2. subst st. cbn. repeat split; auto; congruence. }
  destruct (String.eqb st "stopped") eqn:E3; cbn; repeat split; auto; congruence.
Qed.

(** ** C7 *)

(** C7. One iteration of the controller loop calls the callback once, and
    that call takes at most one message from the control queue without ever
    waiting: with no queue or an empty queue it returns with the state as it
    was; otherwise it removes exactly the oldest message, and [stop] sets the
    state to stopped, [pause] to paused, [continue] to running, while any
    other message leaves the state as it was. *)
Theorem loop_iteration_consumes_at_most_one_message
    (arrivals : schedule) (self : controller) :
  let pending := queue (gui_put (arrivals (calls self)) (MyCallBack self)) in
  let self' := snd (body arrivals self) in
  let state := simulation_state (MyCallBack self) in
  let state' := simulation_state (MyCallBack self') in
  calls self' = S (calls self)
  /\ match pending with
     | None => queue (MyCallBack self') = None /\ state' = state
     | Some [] => queue (MyCallBack self') = Some [] /\ state' = state
     | Some (msg :: rest) =>
         queue (MyCallBack self') = Some rest
         /\ (msg = "pause" -> state' = "paused")
         /\ (msg = "stop" -> state' = "stopped")
         /\ (msg = "continue" -> state' = "running")
         /\ (msg <> "pause" -> msg <> "stop" -> msg <> "continue" ->
             state' = state)
     end.
Proof.
  cbv zeta.
  destruct (loop_body_Sim arrivals self) as (Hcb & Hcalls & _).
  split; [exact Hcalls|].
  rewrite Hcb.
  pose proof (Callback_call_poll (current_t (Sim self)) false
                (gui_put (arrivals (calls self)) (MyCallBack self))) as H.
  destruct (Callback_call _ _ _) as [[st cb'] ev]. cbn [fst snd].
  destruct H as [_ H].
  assert (Hst : simulation_state (gui_put (arrivals (calls self)) (MyCallBack self))
                = simulation_state (MyCallBack self)) by reflexivity.
  rewrite Hst in H.
  destruct (queue (gui_put (arrivals (calls self)) (MyCallBack self)))
    as [[|msg rest]|]; try exact H.
  destruct H as [Hq Hs]. split; [exact Hq|]. rewrite Hs.
  destruct (next_state_cases msg (simulation_state (MyCallBack self)))
    as (H1 & H2 & H3 & H4).
  repeat split; auto.
Qed.

Lemma loop_resume (arrivals : schedule) (j : nat) :
  forall (self0 selfj : controller),
    loop j arrivals self0 = (OutOfFuel, selfj) ->
    forall m, loop (j + m) arrivals self0 = loop m arrivals selfj.
Proof.
  induction j as [|j IH]; intros self0 selfj H m.
  - cbn in H. inversion H. reflexivity.
  - cbn [controller_loop] in H. cbn [Nat.add controller_loop].
    destruct (simulation_has_finished (Sim self0)); [discriminate|].
    destruct (body arrivals self0) as [brk self1].
    destruct brk; [discriminate|].
    now apply IH.
Qed.

Lemma after_loop_Sim (arrivals : schedule) (self : controller) :
  let self' := snd (after_loop current_t calculate_final_error arrivals self) in
  Sim self' = Sim self /\ steps self' = steps self
  /\ MyCallBack self'
     = snd (fst (Callback_call (current_t (Sim self)) true
                   (gui_put (arrivals (calls self)) (MyCallBack self)))).
Proof.
  unfold after_loop, call_MyCallBack. cbv zeta.
  destruct (Callback_call _ _ _) as [[st cb'] ev]. cbn. auto.
Qed.

Section History.

(** The recorded temperature history of [Sim]: [evaluate_one_step] commits
    a step by appending one entry to it. *)
Variable X : Type.
Variable history : SimT -> list X.
Hypothesis evaluate_one_step_appends :
  forall s, length (history (evaluate_one_step s)) = S (length (history s)).

Lemma loop_body_history (arrivals : schedule) (self : controller) (c : nat) :
  length (history (Sim self)) = c + steps self ->
  length (history (Sim (snd (body arrivals self))))
  = c + steps (snd (body arrivals self)).
Proof.
  intros H.
  destruct (loop_body_Sim arrivals self) as (_ & _ & _ & Hrun & Hnot).
  destruct (string_dec
              (fst (fst (Callback_call (current_t (Sim self)) false
                           (gui_put (arrivals (calls self)) (MyCallBack self)))))
              "running") as [E|E].
  - destruct (Hrun E) as [-> ->]. rewrite evaluate_one_step_appends. lia.
  - destruct (Hnot E) as [-> ->]. exact H.
Qed.

Lemma loop_history (arrivals : schedule) (c fuel : nat) :
  forall self : controller,
    length (history (Sim self)) = c + steps self ->
    length (history (Sim (snd (loop fuel arrivals self))))
    = c + steps (snd (loop fuel arrivals self)).
Proof.
  induction fuel as [|fuel IH]; intros self H; cbn [controller_loop].
  - exact H.
  - destruct (simulation_has_finished (Sim self)); [exact H|].
    pose proof (loop_body_history arrivals self c H) as Hb.
    destruct (body arrivals self) as [brk self1]. cbn [snd] in Hb.
    destruct brk; [exact Hb|]. now apply IH.
Qed.

(** ** C6 *)

(** C6. Take a run of the controller loop that starts with the initial
    condition as its only history entry.  If, after [j] iterations in which
    [k] steps were committed, the simulation has not finished and the next
    poll of the queue delivers [stop], then the loop exits in that very
    iteration through its "stopped" branch (not because the simulation
    finished): no further step is committed, [Sim] is left as it was, its
    history has exactly [k + 1] entries and the state of the callback is
    "stopped".  The rest of [complete_simulation] then returns without
    touching [Sim], and leaves the state at "stopped" when the queue holds no
    later message at the final forced call. *)
Theorem stop_truncates_history
    (arrivals : schedule) (self0 selfj : controller) (j k : nat)
    (rest : list string) :
  length (history (Sim self0)) = 1 ->
  steps self0 = 0 ->
  loop j arrivals self0 = (OutOfFuel, selfj) ->
  steps selfj = k ->
  simulation_has_finished (Sim selfj) = false ->
  queue (gui_put (arrivals (calls selfj)) (MyCallBack selfj))
    = Some ("stop" :: rest) ->
  forall fuel, j < fuel ->
    exists self' e self'',
      loop fuel arrivals self0 = (STOPPED, self')
      /\ Sim self' = Sim selfj
      /\ steps self' = k
      /\ length (history (Sim self')) = k + 1
      /\ simulation_state (MyCallBack self') = "stopped"
      /\ simulation_has_finished (Sim self') = false
      /\ complete fuel arrivals self0 = Some (STOPPED, e, self'')
      /\ Sim self'' = Sim selfj
      /\ steps self'' = k
      /\ (rest ++ arrivals (S (calls selfj)) = [] ->
          simulation_state (MyCallBack self'') = "stopped").
Proof.
  intros Hlen Hsteps Hj Hk Hfin Hq fuel Hfuel.
  assert (Hinv : length (history (Sim selfj)) = 1 + steps selfj).
  { pose proof (loop_history arrivals 1 j self0) as H.
    rewrite Hj in H. cbn [snd] in H. apply H. lia. }
  replace fuel with (j + S (fuel - S j)) by lia.
  unfold complete_simulation.
  rewrite (loop_resume arrivals j self0 Hj).
  cbn [controller_loop]. rewrite Hfin.
  destruct (loop_body_Sim arrivals selfj) as (Hcb & Hcalls & Hbrk & _ & Hnot).
  pose proof (Callback_call_poll (current_t (Sim selfj)) false
                (gui_put (arrivals (calls selfj)) (MyCallBack selfj))) as Hp.
  destruct (Callback_call (current_t (Sim selfj)) false _) as [[st cb'] ev].
  cbn [fst snd] in *. rewrite Hq in Hp. destruct Hp as (Hst & Hq' & Hs').
  assert (Hstopped : st = "stopped") by (rewrite Hst, Hs'; reflexivity).
  clear Hst. subst st.
  destruct Hnot as [HSim Hst']; [discriminate|].
  destruct (body arrivals selfj) as [brk self1]. cbn [fst snd] in *.
  subst brk. cbn.
  pose proof (after_loop_Sim arrivals self1) as Ha.
  destruct (after_loop current_t calculate_final_error arrivals self1)
    as [e self2].
  cbn [snd] in Ha. destruct Ha as (Ha1 & Ha2 & Ha3).
  exists self1, e, self2.
  repeat split; try congruence.
  - rewrite HSim, Hinv. lia.
  - rewrite Hcb, Hs'. reflexivity.
  - intros Hrest. rewrite Ha3.
    pose proof (Callback_call_poll (current_t (Sim self1)) true
                  (gui_put (arrivals (calls self1)) (MyCallBack self1))) as Hp.
    destruct (Callback_call _ _ _) as [[st2 cb2] ev2]. cbn [fst snd].
    destruct Hp as [_ Hp].
    assert (E : queue (gui_put (arrivals (calls self1)) (MyCallBack self1)) = Some []).
    { cbn. rewrite Hcb, Hq', Hcalls. cbn. now rewrite Hrest. }
    rewrite E in Hp. destruct Hp as [_ ->]. cbn. rewrite Hcb, Hs'. reflexivity.
Qed.

End History.

End ControllerProperties.

Unset Implicit Arguments.

(** ** Lists, Python indices and shapes *)

(** ** Lists *)

Section ListFacts.
Local Open Scope nat_scope.
Context {A : Type}.

Lemma update_at_length (i : nat) (f : A -> A) (l : list A) :
  length (update_at i f l) = length l.
Proof.
  revert i; induction l as [|a l IH]; intros [|i]; simpl; auto.
Qed.

Lemma update_at_app_last (f : A -> A) (l : list A) (a : A) :
  update_at (length l) f (l ++ [a]) = l ++ [f a].
Proof. induction l; simpl; congruence. Qed.

Lemma nth_update_at_same (i : nat) (f : A -> A) (l : list A) (d : A) :
  i < length l -> nth i (update_at i f l) d = f (nth i l d).
Proof.
  revert i; induction l as [|a l IH]; intros [|i] H; simpl in *; try lia; auto.
  apply IH. lia.
Qed.

Lemma nth_update_at_other (i j : nat) (f : A -> A) (l : list A) (d : A) :
  i <> j -> nth j (update_at i f l) d = nth j l d.
Proof.
  revert i j; induction l as [|a l IH]; intros [|i] [|j] H; simpl; auto; try lia.
Qed.

Lemma nth_app_last (l : list A) (a d : A) : nth (length l) (l ++ [a]) d = a.
Proof. induction l; simpl; auto. Qed.

Lemma nth_app_old (i : nat) (l l' : list A) (d : A) :
  i < length l -> nth i (l ++ l') d = nth i l d.
Proof. intros. now apply app_nth1. Qed.

Lemma nth_app_second (l : list A) (a b d : A) :
  nth (S (length l)) (l ++ [a; b]) d = b.
Proof. induction l; simpl; auto. Qed.

Lemma nth_app_first (l : list A) (a b d : A) : nth (length l) (l ++ [a; b]) d = a.
Proof. induction l; simpl; auto. Qed.

End ListFacts.

Lemma py_index_first (len : nat) : (1 <= len)%nat -> py_index 0 len = Some 0%nat.
Proof.
  intros H. unfold py_index. simpl.
  destruct (Z.ltb_spec 0 (Z.of_nat len)); [reflexivity|lia].
Qed.

Lemma py_index_last (len : nat) :
  (1 <= len)%nat -> py_index (-1) len = Some (len - 1)%nat.
Proof.
  intros H. unfold py_index. simpl.
  destruct (Z.leb_spec (- Z.of_nat len) (-1)); [|lia].
  f_equal. lia.
Qed.

Lemma py_index_nat (i len : nat) :
  (i < len)%nat -> py_index (Z.of_nat i) len = Some i.
Proof.
  intros H. unfold py_index.
  destruct (Z.leb_spec 0 (Z.of_nat i)); [|lia].
  destruct (Z.ltb_spec (Z.of_nat i) (Z.of_nat len)); [|lia].
  now rewrite Nat2Z.id.
Qed.

(** ** Shapes *)

Section Shapes.
Local Open Scope nat_scope.

Lemma vec_map2_length (f : Qc -> Qc -> Qc) (u v : vector) :
  length (vec_map2 f u v) = Nat.min (length u) (length v).
Proof. revert v; induction u; intros [|b v]; simpl; auto. Qed.

Lemma vec_scale_length (c : Qc) (v : vector) : length (vec_scale c v) = length v.
Proof. apply length_map. Qed.

Lemma mat_scale_square (n : nat) (c : Qc) (A : matrix) :
  square n A -> square n (mat_scale c A).
Proof.
  intros [H1 H2]. split.
  - unfold mat_scale. now rewrite length_map.
  - unfold mat_scale. apply Forall_map.
    eapply Forall_impl; [|exact H2]. intros r Hr. simpl.
    now rewrite vec_scale_length.
Qed.

Lemma mat_map2_length (f : Qc -> Qc -> Qc) (A B : matrix) :
  length (mat_map2 f A B) = Nat.min (length A) (length B).
Proof. revert B; induction A; intros [|s B]; simpl; auto. Qed.

Lemma mat_map2_rows (n : nat) (f : Qc -> Qc -> Qc) (A : matrix) :
  forall B : matrix,
    Forall (fun row => length row = n) A ->
    Forall (fun row => length row = n) B ->
    Forall (fun row => length row = n) (mat_map2 f A B).
Proof.
  induction A as [|r A IH]; intros [|s B] HA HB; simpl; auto.
  inversion HA; inversion HB; subst. constructor.
  - rewrite vec_map2_length. lia.
  - now apply IH.
Qed.

Lemma mat_map2_square (n : nat) (f : Qc -> Qc -> Qc) (A B : matrix) :
  square n A -> square n B -> square n (mat_map2 f A B).
Proof.
  intros [HA1 HA2] [HB1 HB2]. split.
  - rewrite mat_map2_length. lia.
  - now apply mat_map2_rows.
Qed.

Lemma square_cols (n : nat) (A : matrix) : 1 <= n -> square n A -> NumericalForward.cols A = n.
Proof.
  intros Hn [H1 H2]. unfold NumericalForward.cols.
  destruct A as [|r A]; simpl in *; [lia|]. now inversion H2.
Qed.

Lemma update_entry_square (n i j : nat) (f : Qc -> Qc) (A : matrix) :
  square n A -> square n (update_entry i j f A).
Proof.
  intros [H1 H2]. unfold update_entry. split.
  - now rewrite update_at_length.
  - clear H1. revert i. induction H2 as [|r A Hr HA IH]; intros [|i]; simpl; constructor; auto.
    now rewrite update_at_length.
Qed.

End Shapes.

(** ** One call of [EvaluateNewStep], executed *)

Section StepRun.
Import NumericalForward.
Local Open Scope nat_scope.

Lemma arr_len_nd_update (i : nat) (op : Qc -> Qc -> Qc) (v : float) (b : ndarray) :
  arr_len (nd_update i op v b) = arr_len b.
Proof.
  destruct b as [bv|m], v as [c|]; simpl; auto. apply update_at_length.
Qed.

Lemma arr_len_sp_dot (B : matrix) (v : ndarray) : arr_len (sp_dot B v) = length B.
Proof. destruct v; simpl; auto. unfold mat_vec. apply length_map. Qed.

Lemma array_item_last (a : ndarray) :
  1 <= arr_len a -> array_item a (-1) = Ok (arr_last a).
Proof.
  intros H. unfold array_item. rewrite py_index_last by exact H.
  destruct a; reflexivity.
Qed.

Lemma bind_iupdate_item {A} (l : loc) (i : Z) (i' : nat) (op : Qc -> Qc -> Qc)
    (v : float) (k : unit -> prog world A) (w : world) :
  py_index i (arr_len (load_array l (heap w))) = Some i' ->
  bind (on_heap (iupdate_item l i op v)) k w
  = k tt {| Sim := Sim w; heap := store_array l (nd_update i' op v) (heap w) |}.
Proof.
  intros H. unfold bind, on_heap, iupdate_item. now rewrite H.
Qed.

Lemma bind_iupdate_entry {A} (l : loc) (i j : Z) (i' j' : nat) (f : Qc -> Qc)
    (k : unit -> prog world A) (w : world) :
  py_index i (length (load_matrix l (heap w))) = Some i' ->
  py_index j (cols (load_matrix l (heap w))) = Some j' ->
  bind (on_heap (iupdate_entry l i j f)) k w
  = k tt {| Sim := Sim w; heap := store_matrix l (update_entry i' j' f) (heap w) |}.
Proof.
  intros H1 H2. unfold bind, on_heap, iupdate_entry. now rewrite H1, H2.
Qed.

Lemma bind_Sim_t_last {A} (k : Qc -> prog world A) (w : world) (tl : Qc) :
  list_item (t (Sim w)) (-1) = Ok tl -> bind Sim_t_last k w = k tl w.
Proof. intros H. unfold bind, Sim_t_last, lift. now rewrite H. Qed.

Lemma bind_Sim_T_last {A} (k : float -> prog world A) (w : world) :
  1 <= arr_len (load_array (T (Sim w)) (heap w)) ->
  bind Sim_T_last k w = k (arr_last (load_array (T (Sim w)) (heap w))) w.
Proof.
  intros H. unfold bind, Sim_T_last, lift. now rewrite array_item_last.
Qed.

Lemma bind_gets {S A B} (f : S -> A) (k : A -> prog S B) (s : S) :
  bind (gets f) k s = k (f s) s.
Proof. reflexivity. Qed.

Lemma bind_new_matrix {A} (Mx : matrix) (k : loc -> prog world A) (w : world) :
  bind (on_heap (new_matrix Mx)) k w
  = k (length (matrices (heap w)))
      {| Sim := Sim w;
         heap := {| arrays := arrays (heap w);
                    matrices := matrices (heap w) ++ [Mx] |} |}.
Proof. reflexivity. Qed.

Lemma bind_new_array {A} (a : ndarray) (k : loc -> prog world A) (w : world) :
  bind (on_heap (new_array a)) k w
  = k (length (arrays (heap w)))
      {| Sim := Sim w;
         heap := {| arrays := arrays (heap w) ++ [a];
                    matrices := matrices (heap w) |} |}.
Proof. reflexivity. Qed.

Lemma EvaluateNewStep_run (n : nat) (w : world) (dt theta tl : Qc) :
  well_shaped n w ->
  list_item (t (Sim w)) (-1) = Ok tl ->
  let s := Sim w in
  let h := heap w in
  let A := step_matrix (load_matrix (M s) h) (load_matrix (K s) h)
             (RobinAlpha s) dt theta in
  let b := step_rhs (load_matrix (M s) h) (load_matrix (K s) h)
             (load_array (T s) h) (HeatFlux s) (T_amb s) (RobinAlpha s)
             tl dt theta in
  EvaluateNewStep dt theta w
  = Ok (S (length (arrays h)),
        {| Sim := s;
           heap := {| arrays := arrays h ++ [b; spsolve A b];
                      matrices := matrices h ++ [A] |} |}).
Proof.
  intros (Hn & HM & HK & HT & HMs & HKs & HTl) Htl. cbv zeta.
  destruct w as [s h]. cbn [Sim heap] in *.
  unfold EvaluateNewStep, Sim_M, Sim_K, Sim_T, iadd_item, isub_item.
  rewrite !bind_gets, bind_new_matrix, !bind_gets, bind_new_array, !bind_gets.
  cbn [Sim heap arrays matrices].
  unfold load_matrix, load_array. cbn [arrays matrices].
  rewrite !(nth_app_old _ _ [_]) by assumption.
  fold (load_matrix (M s) h) (load_matrix (K s) h) (load_array (T s) h).
  set (Mv := load_matrix (M s) h) in *.
  set (Kv := load_matrix (K s) h) in *.
  set (Tv := load_array (T s) h) in *.
  set (b0 := sp_dot _ Tv).
  set (A0 := mat_add Mv _).
  assert (Hb0 : arr_len b0 = n).
  { unfold b0. rewrite arr_len_sp_dot.
    apply (mat_map2_square n Qcminus); [exact HMs|apply mat_scale_square; exact HKs]. }
  assert (HA0 : square n A0).
  { apply mat_map2_square; [exact HMs|apply mat_scale_square; exact HKs]. }
  rewrite bind_Sim_t_last with (tl := tl) by exact Htl.
  rewrite bind_iupdate_item with (i' := 0).
  2:{ cbn [heap arrays]. unfold load_array. cbn [arrays].
      rewrite nth_app_last. apply py_index_first. lia. }
  rewrite bind_Sim_t_last with (tl := tl) by exact Htl.
  unfold store_array at 1. cbn [heap arrays matrices].
  rewrite update_at_app_last.
  rewrite bind_iupdate_item with (i' := 0).
  2:{ cbn [heap arrays]. unfold load_array. cbn [arrays].
      rewrite nth_app_last, arr_len_nd_update. apply py_index_first. lia. }
  unfold store_array at 1. cbn [heap arrays matrices].
  rewrite update_at_app_last.
  rewrite bind_Sim_T_last.
  2:{ cbn [Sim heap]. unfold load_array. cbn [arrays].
      rewrite nth_app_old by assumption. fold (load_array (T s) h). fold Tv. lia. }
  cbn [Sim heap]. unfold load_array at 1. cbn [arrays].
  rewrite nth_app_old by assumption. fold (load_array (T s) h). fold Tv.
  rewrite bind_iupdate_item with (i' := n - 1).
  2:{ cbn [heap arrays]. unfold load_array. cbn [arrays].
      rewrite nth_app_last, !arr_len_nd_update, Hb0. apply py_index_last. lia. }
  unfold store_array at 1. cbn [heap arrays matrices].
  rewrite update_at_app_last.
  rewrite bind_iupdate_entry with (i' := n - 1) (j' := n - 1).
  2:{ cbn [heap matrices]. unfold load_matrix. cbn [matrices].
      rewrite nth_app_last. destruct HA0 as [-> _]. apply py_index_last. lia. }
  2:{ cbn [heap matrices]. unfold load_matrix. cbn [matrices].
      rewrite nth_app_last, (square_cols n) by assumption. apply py_index_last. lia. }
  unfold store_matrix at 1. cbn [heap arrays matrices].
  rewrite update_at_app_last.
  rewrite bind_Sim_t_last with (tl := tl) by exact Htl.
  rewrite bind_iupdate_item with (i' := n - 1).
  2:{ cbn [heap arrays]. unfold load_array. cbn [arrays].
      rewrite nth_app_last, !arr_len_nd_update, Hb0. apply py_index_last. lia. }
  unfold store_array at 1. cbn [heap arrays matrices].
  rewrite update_at_app_last.
  rewrite bind_Sim_t_last with (tl := tl) by exact Htl.
  rewrite bind_iupdate_item with (i' := n - 1).
  2:{ cbn [heap arrays]. unfold load_array. cbn [arrays].
      rewrite nth_app_last, !arr_len_nd_update, Hb0. apply py_index_last. lia. }
  unfold store_array at 1. cbn [heap arrays matrices].
  rewrite update_at_app_last.
  rewrite !bind_gets. cbn [heap arrays matrices].
  unfold load_matrix, load_array. cbn [arrays matrices].
  rewrite !nth_app_last.
  unfold on_heap, new_array. cbn [heap arrays matrices Sim].
  rewrite length_app, <- app_assoc. cbn [length app].
  unfold step_matrix, step_rhs. fold A0 b0.
  rewrite Hb0, (square_cols n A0) by assumption.
  destruct HA0 as [-> _].
  repeat f_equal. lia.
Qed.

End StepRun.

(** ** What [EvaluateNewStep] leaves alone *)

Section Frame.
Import NumericalForward.
Local Open Scope nat_scope.

Lemma extends_refl (w : world) : extends w w.
Proof.
  repeat split; exists []; now rewrite app_nil_r.
Qed.

Lemma keeps_bind {A B} (w0 : world) (m : prog world A) (k : A -> prog world B)
    (P : A -> Prop) (Q : B -> Prop) :
  keeps w0 m P -> (forall a, P a -> keeps w0 (k a) Q) -> keeps w0 (bind m k) Q.
Proof.
  intros Hm Hk w Hw. unfold bind. specialize (Hm w Hw).
  destruct (m w) as [[a w1]|e]; [|exact I].
  destruct Hm as [Hw1 Pa]. exact (Hk a Pa w1 Hw1).
Qed.

Lemma keeps_gets {A} (w0 : world) (f : world -> A) : keeps w0 (gets f) (fun _ => True).
Proof. intros w Hw. simpl. auto. Qed.

Lemma keeps_lift {A} (w0 : world) (f : world -> outcome A) :
  keeps w0 (fun w => lift (f w) w) (fun _ => True).
Proof. intros w Hw. unfold lift. destruct (f w); auto. Qed.

Lemma keeps_new_array (w0 : world) (a : ndarray) :
  keeps w0 (on_heap (new_array a)) (fun l => length (arrays (heap w0)) <= l).
Proof.
  intros w (HS & [bs Hb] & HA). cbn. repeat split; auto.
  - exists (bs ++ [a]). rewrite Hb. now rewrite app_assoc.
  - rewrite Hb, length_app. lia.
Qed.

Lemma keeps_new_matrix (w0 : world) (A : matrix) :
  keeps w0 (on_heap (new_matrix A)) (fun l => length (matrices (heap w0)) <= l).
Proof.
  intros w (HS & HB & [ms Hm]). cbn. repeat split; auto.
  - exists (ms ++ [A]). rewrite Hm. now rewrite app_assoc.
  - rewrite Hm, length_app. lia.
Qed.

Lemma update_at_fresh {A} (l : nat) (f : A -> A) (old new : list A) :
  length old <= l -> exists new', update_at l f (old ++ new) = old ++ new'.
Proof.
  revert l. induction old as [|a old IH]; intros l H; simpl in *.
  - eexists; reflexivity.
  - destruct l as [|l]; [lia|]. destruct (IH l) as [new' E]; [lia|].
    exists new'. simpl. now rewrite E.
Qed.

Lemma keeps_iupdate_item (w0 : world) (l : loc) (i : Z) (op : Qc -> Qc -> Qc)
    (v : float) :
  length (arrays (heap w0)) <= l ->
  keeps w0 (on_heap (iupdate_item l i op v)) (fun _ => True).
Proof.
  intros Hl w (HS & [bs Hb] & HA). unfold on_heap, iupdate_item.
  destruct (py_index _ _); [|exact I].
  unfold store_array, extends. cbn [Sim heap arrays matrices].
  repeat split; auto.
  rewrite Hb. now apply update_at_fresh.
Qed.

Lemma keeps_iupdate_entry (w0 : world) (l : loc) (i j : Z) (f : Qc -> Qc) :
  length (matrices (heap w0)) <= l ->
  keeps w0 (on_heap (iupdate_entry l i j f)) (fun _ => True).
Proof.
  intros Hl w (HS & HB & [ms Hm]). unfold on_heap, iupdate_entry.
  destruct (py_index _ _); [|exact I].
  destruct (py_index _ _); [|exact I].
  unfold store_matrix, extends. cbn [Sim heap arrays matrices].
  repeat split; auto.
  rewrite Hm. now apply update_at_fresh.
Qed.

Lemma EvaluateNewStep_keeps (w0 : world) (dt theta : Qc) :
  keeps w0 (EvaluateNewStep dt theta) (fun l => length (arrays (heap w0)) <= l).
Proof.
  unfold EvaluateNewStep, Sim_M, Sim_K, Sim_T, iadd_item, isub_item.
  eapply keeps_bind; [apply keeps_gets|intros Mv _].
  eapply keeps_bind; [apply keeps_gets|intros Kv _].
  eapply keeps_bind; [apply keeps_new_matrix|intros A HA].
  eapply keeps_bind; [apply keeps_gets|intros Mv' _].
  eapply keeps_bind; [apply keeps_gets|intros Kv' _].
  eapply keeps_bind; [apply keeps_gets|intros Tv _].
  eapply keeps_bind; [apply keeps_new_array|intros b Hb].
  eapply keeps_bind; [apply keeps_gets|intros q _].
  eapply keeps_bind; [apply keeps_gets|intros alpha _].
  eapply keeps_bind; [apply keeps_gets|intros amb _].
  eapply keeps_bind; [apply keeps_lift|intros tl1 _].
  eapply keeps_bind; [now apply keeps_iupdate_item|intros _ _].
  eapply keeps_bind; [apply keeps_lift|intros tl2 _].
  eapply keeps_bind; [now apply keeps_iupdate_item|intros _ _].
  eapply keeps_bind; [apply keeps_lift|intros Tl _].
  eapply keeps_bind; [now apply keeps_iupdate_item|intros _ _].
  eapply keeps_bind; [now apply keeps_iupdate_entry|intros _ _].
  eapply keeps_bind; [apply keeps_lift|intros tl3 _].
  eapply keeps_bind; [now apply keeps_iupdate_item|intros _ _].
  eapply keeps_bind; [apply keeps_lift|intros tl4 _].
  eapply keeps_bind; [now apply keeps_iupdate_item|intros _ _].
  eapply keeps_bind; [apply keeps_gets|intros Av _].
  eapply keeps_bind; [apply keeps_gets|intros bv _].
  apply keeps_new_array.
Qed.

End Frame.

(** ** The linear solver *)

Section Solver.

Lemma dot_zeros_r (u : vector) (n : nat) : dot u (repeat 0 n) = 0.
Proof.
  revert n; induction u as [|a u IH]; intros [|n]; simpl; auto.
  rewrite IH. ring.
Qed.

Lemma dot_sub_scale (f : Qc) (u v w : vector) :
  length u = length v ->
  dot (vec_sub u (vec_scale f v)) w = dot u w - f * dot v w.
Proof.
  unfold vec_sub, vec_scale.
  revert v w; induction u as [|a u IH]; intros [|b v] [|c w] H;
    simpl in *; try discriminate; try ring.
  rewrite IH by congruence. ring.
Qed.

Lemma dot_add_r (u v w : vector) :
  length v = length w ->
  dot u (vec_map2 Qcplus v w) = dot u v + dot u w.
Proof.
  revert v w; induction u as [|a u IH]; intros [|b v] [|c w] H;
    simpl in *; try discriminate; try ring.
  rewrite IH by congruence. ring.
Qed.

Lemma find_pivot_some (rows rest : list equation) (p : equation) :
  find_pivot rows = Some (p, rest) ->
  lead p <> 0
  /\ length rows = S (length rest)
  /\ (forall P : equation -> Prop, Forall P rows <-> P p /\ Forall P rest).
Proof.
  revert rest; induction rows as [|r rows IH]; intros rest H; simpl in H.
  - discriminate.
  - destruct (Qc_eq_dec (lead r) 0) as [E|E].
    + destruct (find_pivot rows) as [[p' rest']|]; [|discriminate].
      inversion H; subst. destruct (IH rest' eq_refl) as (Hp & Hl & HP).
      split; [exact Hp|]. split; [simpl; now rewrite Hl|].
      intros P. rewrite !Forall_cons_iff, (HP P). tauto.
    + inversion H; subst.
      split; [exact E|]. split; [reflexivity|].
      intros P. apply Forall_cons_iff.
Qed.

Lemma find_pivot_none (rows : list equation) :
  find_pivot rows = None -> Forall (fun r => lead r = 0) rows.
Proof.
  induction rows as [|r rows IH]; simpl; intros H; [constructor|].
  destruct (Qc_eq_dec (lead r) 0) as [E|E]; [|discriminate].
  destruct (find_pivot rows) as [[p' rest']|]; [discriminate|].
  constructor; auto.
Qed.

Lemma gauss_length (n : nat) :
  forall (rows : list equation) (x : vector),
    gauss n rows = Some x -> length x = n.
Proof.
  induction n as [|n IH]; intros rows x H; simpl in H.
  - inversion H. reflexivity.
  - destruct (find_pivot rows) as [[p rest]|]; [|discriminate].
    destruct (gauss n (map (eliminate p) rest)) as [xs|] eqn:E; [|discriminate].
    inversion H; subst. simpl. f_equal. eauto.
Qed.

Lemma eliminate_system (n : nat) (p : equation) (rest : list equation) :
  length (fst p) = S n ->
  length rest = n ->
  Forall (fun r => length (fst r) = S n) rest ->
  system n (map (eliminate p) rest).
Proof.
  intros Hp Hl HF. split; [now rewrite length_map|].
  apply Forall_map. eapply Forall_impl; [|exact HF].
  intros r Hr. simpl. unfold vec_sub. rewrite vec_map2_length, vec_scale_length.
  destruct r as [[|c rs] rb], p as [[|a ps] pb]; simpl in *; lia.
Qed.

(** What [eliminate] does to one row, for a candidate solution [x1 :: xs]. *)
Lemma eliminate_sat (n : nat) (p r : equation) (x1 : Qc) (xs : vector) (c1 c2 : Qc) :
  length (fst p) = S n -> length (fst r) = S n -> lead p <> 0 ->
  dot (fst p) (x1 :: xs) = c1 ->
  (dot (fst r) (x1 :: xs) = c2
   <-> dot (fst (eliminate p r)) xs = c2 - lead r / lead p * c1).
Proof.
  intros Hp Hr Hlead Hc1. unfold eliminate, lead in *. cbn [fst snd].
  destruct p as [[|a ps] pb], r as [[|c rs] rb]; simpl in *; try discriminate.
  rewrite dot_sub_scale by congruence.
  subst c1. split; intros H.
  - rewrite <- H. field. exact Hlead.
  - assert (E : dot rs xs = c2 - c / a * (a * x1 + dot ps xs) + c / a * dot ps xs).
    { rewrite <- H. ring. }
    rewrite E. field. exact Hlead.
Qed.

Lemma pivot_solution (p : equation) (xs : vector) (n : nat) :
  length (fst p) = S n -> lead p <> 0 ->
  dot (fst p) ((snd p - dot (tl (fst p)) xs) / lead p :: xs) = snd p.
Proof.
  intros Hp Hlead. unfold lead in *.
  destruct p as [[|a ps] pb]; simpl in *; [discriminate|].
  field. exact Hlead.
Qed.

Lemma gauss_sound (n : nat) :
  forall (rows : list equation) (x : vector),
    system n rows -> gauss n rows = Some x -> Forall (sat x) rows.
Proof.
  induction n as [|n IH]; intros rows x [Hl HF] H; simpl in H.
  - destruct rows; [constructor|discriminate].
  - destruct (find_pivot rows) as [[p rest]|] eqn:Epiv; [|discriminate].
    destruct (gauss n (map (eliminate p) rest)) as [xs|] eqn:E; [|discriminate].
    inversion H; subst x; clear H.
    destruct (find_pivot_some _ _ _ Epiv) as (Hlead & Hlen & HP).
    apply HP in HF. destruct HF as [Hp Hrest].
    assert (Hsys : system n (map (eliminate p) rest))
      by (apply eliminate_system; auto; lia).
    pose proof (IH _ _ Hsys E) as Hxs.
    apply HP. split.
    + apply (pivot_solution p xs n Hp Hlead).
    + rewrite Forall_map in Hxs.
      rewrite Forall_forall in *. intros r Hr.
      unfold sat.
      apply (eliminate_sat n p r _ xs (snd p) (snd r) Hp (Hrest r Hr) Hlead).
      * apply (pivot_solution p xs n Hp Hlead).
      * apply (Hxs r Hr).
Qed.

Lemma gauss_unique (n : nat) :
  forall (rows : list equation) (x y : vector),
    system n rows -> gauss n rows = Some x ->
    length y = n -> Forall (sat y) rows -> y = x.
Proof.
  induction n as [|n IH]; intros rows x y [Hl HF] H Hy Hsat; simpl in H.
  - inversion H. destruct y; [reflexivity|discriminate].
  - destruct (find_pivot rows) as [[p rest]|] eqn:Epiv; [|discriminate].
    destruct (gauss n (map (eliminate p) rest)) as [xs|] eqn:E; [|discriminate].
    inversion H; subst x; clear H.
    destruct (find_pivot_some _ _ _ Epiv) as (Hlead & Hlen & HP).
    apply HP in HF. destruct HF as [Hp Hrest].
    apply HP in Hsat. destruct Hsat as [Hyp Hyrest].
    destruct y as [|y1 ys]; [discriminate|].
    assert (Hsys : system n (map (eliminate p) rest))
      by (apply eliminate_system; auto; lia).
    assert (Hys : ys = xs).
    { apply (IH _ _ _ Hsys E); [simpl in Hy; congruence|].
      apply Forall_map. rewrite Forall_forall in *. intros r Hr.
      unfold sat.
      apply (eliminate_sat n p r y1 ys (snd p) (snd r) Hp (Hrest r Hr) Hlead Hyp).
      apply (Hyrest r Hr). }
    subst ys. f_equal.
    unfold sat, lead in *. destruct p as [[|a ps] pb]; simpl in *; [discriminate|].
    rewrite <- Hyp. field. exact Hlead.
Qed.

Lemma gauss_singular (n : nat) :
  forall rows : list equation,
    system n rows -> gauss n rows = None ->
    exists y : vector,
      length y = n /\ y <> repeat 0 n /\ Forall (sat0 y) rows.
Proof.
  induction n as [|n IH]; intros rows [Hl HF] H; simpl in H.
  - discriminate.
  - destruct (find_pivot rows) as [[p rest]|] eqn:Epiv.
    + destruct (gauss n (map (eliminate p) rest)) as [xs|] eqn:E; [discriminate|].
      destruct (find_pivot_some _ _ _ Epiv) as (Hlead & Hlen & HP).
      apply HP in HF. destruct HF as [Hp Hrest].
      assert (Hsys : system n (map (eliminate p) rest))
        by (apply eliminate_system; auto; lia).
      destruct (IH _ Hsys E) as (ys & Hys & Hnz & Hsat).
      exists ((0 - dot (tl (fst p)) ys) / lead p :: ys).
      assert (Hpiv : dot (fst p) ((0 - dot (tl (fst p)) ys) / lead p :: ys) = 0).
      { unfold lead in *. destruct p as [[|a ps] pb]; simpl in *; [discriminate|].
        field. exact Hlead. }
      repeat split.
      * simpl. congruence.
      * simpl. intros Heq. apply Hnz. now apply (f_equal (@tl Qc)) in Heq.
      * apply HP. split; [exact Hpiv|].
        rewrite Forall_map in Hsat. rewrite Forall_forall in *. intros r Hr.
        unfold sat0.
        apply (eliminate_sat n p r _ ys 0 0 Hp (Hrest r Hr) Hlead Hpiv).
        specialize (Hsat r Hr). unfold sat0 in Hsat. rewrite Hsat. ring.
    + apply find_pivot_none in Epiv.
      exists (1 :: repeat 0 n). repeat split.
      * simpl. now rewrite repeat_length.
      * simpl. intros Heq. apply (f_equal (hd 0)) in Heq. simpl in Heq.
        now apply Q_apart_0_1 in Heq.
      * rewrite Forall_forall in *. intros r Hr.
        specialize (Epiv r Hr). specialize (HF r Hr). unfold sat0, lead in *.
        destruct r as [[|a rs] rb]; simpl in *; [discriminate|].
        subst a. rewrite dot_zeros_r. ring.
Qed.

End Solver.

Section SolveMatrix.

Lemma combine_system (n : nat) (A : matrix) (bv : vector) :
  square n A -> length bv = n -> system n (combine A bv).
Proof.
  intros [HA1 HA2] Hb. split.
  - etransitivity; [apply length_combine|lia].
  - clear HA1 Hb. revert bv.
    induction HA2 as [|r A Hr HA IH]; intros [|b bv]; simpl; constructor; auto.
Qed.

Lemma sat_combine (A : matrix) (x : vector) :
  forall bv : vector,
    length A = length bv ->
    (Forall (sat x) (combine A bv) <-> mat_vec A x = bv).
Proof.
  induction A as [|r A IH]; intros [|b bv] H; simpl in *; try discriminate.
  - split; auto.
  - rewrite Forall_cons_iff, IH by congruence. unfold sat. simpl.
    split; [intros [-> ->]; reflexivity|].
    intros E. inversion E. auto.
Qed.

Lemma sat0_combine (A : matrix) (x : vector) :
  forall bv : vector,
    length A = length bv ->
    (Forall (sat0 x) (combine A bv) <-> mat_vec A x = repeat 0 (length A)).
Proof.
  induction A as [|r A IH]; intros [|b bv] H; simpl in *; try discriminate.
  - split; auto.
  - rewrite Forall_cons_iff, IH by congruence. unfold sat0. simpl.
    split; [intros [-> ->]; reflexivity|].
    intros E. split.
    + now apply (f_equal (hd 0)) in E.
    + now apply (f_equal (@tl Qc)) in E.
Qed.

Lemma vec_add_cancel (x y : vector) :
  length x = length y -> vec_map2 Qcplus x y = x -> y = repeat 0 (length y).
Proof.
  revert y; induction x as [|a x IH]; intros [|b y] H E; simpl in *;
    try discriminate; auto.
  f_equal.
  - apply (f_equal (hd 0)) in E. simpl in E.
    assert (E' : b = a + b - a) by ring. rewrite E' , E. ring.
  - apply IH; [congruence|]. now apply (f_equal (@tl Qc)) in E.
Qed.

(** [spsolve] on a finite right-hand side: it returns the unique solution
    when the matrix is nonsingular, and a non-finite array otherwise. *)
Lemma spsolve_spec (n : nat) (A : matrix) (bv : vector) :
  square n A -> length bv = n ->
  (forall x, spsolve A (Arr bv) = Arr x ->
     length x = n /\ mat_vec A x = bv
     /\ forall y, length y = n -> mat_vec A y = bv -> y = x)
  /\ (nonsingular n A -> exists x, spsolve A (Arr bv) = Arr x)
  /\ (~ nonsingular n A -> spsolve A (Arr bv) = NaNArr n).
Proof.
  intros HA Hb.
  pose proof (combine_system n A bv HA Hb) as Hsys.
  assert (Hlen : length A = length bv) by (destruct HA; congruence).
  assert (Hsome : forall x, gauss n (combine A bv) = Some x ->
            length x = n /\ mat_vec A x = bv
            /\ forall y, length y = n -> mat_vec A y = bv -> y = x).
  { intros x Hx. split; [eapply gauss_length; eauto|]. split.
    - apply sat_combine; [exact Hlen|]. eapply gauss_sound; eauto.
    - intros y Hy Hmv. eapply gauss_unique; eauto.
      apply sat_combine; assumption. }
  unfold spsolve. rewrite Hb.
  split; [|split].
  - intros x Hx. destruct (gauss n (combine A bv)) as [x'|] eqn:E; [|discriminate].
    inversion Hx; subst. now apply Hsome.
  - intros Hns. destruct (gauss n (combine A bv)) as [x|] eqn:E; [eauto|].
    destruct (gauss_singular n _ Hsys E) as (y & Hy & Hnz & Hsat).
    exfalso. apply Hnz. apply Hns; [exact Hy|].
    apply sat0_combine in Hsat; [|exact Hlen]. destruct HA as [HA1 _].
    now rewrite HA1 in Hsat.
  - intros Hns. destruct (gauss n (combine A bv)) as [x|] eqn:E; [|reflexivity].
    exfalso. apply Hns. intros y Hy Hker.
    destruct (Hsome x eq_refl) as (Hx & Hmv & Huniq).
    assert (Hsum : vec_map2 Qcplus x y = x).
    { apply Huniq.
      - rewrite vec_map2_length. lia.
      - rewrite <- Hmv. unfold mat_vec.
        apply map_ext_in. intros r Hr.
        rewrite dot_add_r by congruence.
        assert (Hr0 : dot r y = 0).
        { assert (Hin : In (dot r y) (mat_vec A y))
            by (unfold mat_vec; apply (in_map (fun row => dot row y)); exact Hr).
          rewrite Hker in Hin. now apply repeat_spec in Hin. }
        rewrite Hr0. ring. }
    rewrite <- Hy. apply (vec_add_cancel x y); congruence.
Qed.

End SolveMatrix.

(** ** Entries and sums *)

Section Entries.
Local Open Scope nat_scope.

Lemma sum_n_ext (f g : nat -> Qc) (n : nat) :
  (forall j, j < n -> f j = g j) -> sum_n f n = sum_n g n.
Proof.
  induction n as [|n IH]; intros H; simpl; auto.
  rewrite IH, H by (intros; auto with arith). reflexivity.
Qed.

Lemma sum_n_plus (f g : nat -> Qc) (n : nat) :
  sum_n (fun j => (f j + g j)%Qc) n = (sum_n f n + sum_n g n)%Qc.
Proof. induction n as [|n IH]; simpl; [ring|]. rewrite IH. ring. Qed.

Lemma sum_n_scale (c : Qc) (f : nat -> Qc) (n : nat) :
  sum_n (fun j => (c * f j)%Qc) n = (c * sum_n f n)%Qc.
Proof. induction n as [|n IH]; simpl; [ring|]. rewrite IH. ring. Qed.

(** The sum of a function that vanishes except at [k]. *)
Lemma sum_n_single (k : nat) (c : Qc) (n : nat) :
  sum_n (fun j => if j =? k then c else 0%Qc) n = if k <? n then c else 0%Qc.
Proof.
  induction n as [|n IH]; simpl; [reflexivity|].
  rewrite IH.
  destruct (Nat.eqb_spec n k), (Nat.ltb_spec k n), (Nat.ltb_spec k (S n));
    try lia; ring.
Qed.

Lemma sum_n_split (f : nat -> Qc) (i n : nat) :
  i < n ->
  sum_n f n = (f i + sum_n (fun j => if j =? i then 0 else f j) n)%Qc.
Proof.
  intros Hi.
  rewrite (sum_n_ext f (fun j => ((if j =? i then f i else 0) +
                                  (if j =? i then 0 else f j))%Qc) n).
  - rewrite sum_n_plus, sum_n_single.
    destruct (Nat.ltb_spec i n); [reflexivity|lia].
  - intros j _. destruct (Nat.eqb_spec j i); [subst|]; ring.
Qed.

Lemma dot_sum (r x : vector) :
  length r = length x ->
  dot r x = sum_n (fun j => (nth j r 0 * nth j x 0)%Qc) (length r).
Proof.
  revert x. induction r as [|a r IH] using rev_ind; intros x H.
  - reflexivity.
  - rewrite length_app in *. simpl in *.
    assert (Hx : x = removelast x ++ [last x 0%Qc]).
    { apply app_removelast_last. destruct x; simpl in *; [lia|discriminate]. }
    rewrite Hx in *. rewrite length_app in H. simpl in H.
    set (x' := removelast x) in *. set (b := last x 0%Qc) in *.
    assert (Hl : length r = length x') by lia.
    replace (length r + 1) with (S (length r)) by lia. simpl.
    rewrite app_nth2, Nat.sub_diag by lia. simpl.
    rewrite Hl at 2. rewrite app_nth2, Nat.sub_diag by lia. simpl.
    assert (Hd : forall (u v : vector) (c d : Qc), length u = length v ->
               dot (u ++ [c]) (v ++ [d]) = (dot u v + c * d)%Qc).
    { clear. induction u as [|a u IH]; intros [|b v] c d H; simpl in *;
        try discriminate; [ring|]. rewrite IH by congruence. ring. }
    rewrite Hd by exact Hl. rewrite (IH x' Hl). f_equal.
    apply sum_n_ext. intros j Hj.
    rewrite !app_nth1 by lia. reflexivity.
Qed.

Lemma entry_mat_scale (c : Qc) (A : matrix) (i j : nat) :
  entry (mat_scale c A) i j = (c * entry A i j)%Qc.
Proof.
  unfold entry, mat_scale.
  revert i; induction A as [|r A IH]; intros [|i]; simpl.
  - destruct j; ring.
  - destruct j; ring.
  - clear IH. revert j; induction r as [|a r IHr]; intros [|j]; simpl; try ring; auto.
  - apply IH.
Qed.

Lemma nth_vec_map2 (f : Qc -> Qc -> Qc) (u v : vector) (j : nat) :
  j < length u -> j < length v ->
  nth j (vec_map2 f u v) 0%Qc = f (nth j u 0%Qc) (nth j v 0%Qc).
Proof.
  revert v j; induction u as [|a u IH]; intros [|b v] [|j] Hu Hv; simpl in *;
    try lia; auto.
  apply IH; lia.
Qed.

Lemma nth_mat_map2 (f : Qc -> Qc -> Qc) (A B : matrix) (i : nat) :
  i < length A -> i < length B ->
  nth i (mat_map2 f A B) [] = vec_map2 f (nth i A []) (nth i B []).
Proof.
  revert B i; induction A as [|r A IH]; intros [|s B] [|i] HA HB; simpl in *;
    try lia; auto.
  apply IH; lia.
Qed.

Lemma square_row (n : nat) (A : matrix) (i : nat) :
  square n A -> i < n -> length (nth i A []) = n.
Proof.
  intros [H1 H2] Hi. rewrite Forall_forall in H2. apply H2.
  apply nth_In. lia.
Qed.

Lemma entry_mat_map2 (n : nat) (f : Qc -> Qc -> Qc) (A B : matrix) (i j : nat) :
  square n A -> square n B -> i < n -> j < n ->
  entry (mat_map2 f A B) i j = f (entry A i j) (entry B i j).
Proof.
  intros HA HB Hi Hj. unfold entry.
  rewrite nth_mat_map2 by (destruct HA, HB; lia).
  apply nth_vec_map2; rewrite (square_row n) by assumption; exact Hj.
Qed.

Lemma entry_update_entry (n : nat) (f : Qc -> Qc) (A : matrix) (i j i' j' : nat) :
  square n A -> i < n -> j < n ->
  entry (update_entry i j f A) i' j'
  = if (i' =? i) && (j' =? j) then f (entry A i j) else entry A i' j'.
Proof.
  intros HA Hi Hj. unfold entry, update_entry.
  destruct (Nat.eqb_spec i' i) as [->|Hne]; simpl.
  - rewrite nth_update_at_same by (destruct HA; lia).
    destruct (Nat.eqb_spec j' j) as [->|Hne].
    + apply nth_update_at_same. rewrite (square_row n) by assumption. exact Hj.
    + apply nth_update_at_other. auto.
  - rewrite nth_update_at_other by auto. reflexivity.
Qed.

Lemma nth_mat_vec (n : nat) (A : matrix) (x : vector) (i : nat) :
  square n A -> length x = n -> i < n ->
  nth i (mat_vec A x) 0%Qc = sum_n (fun j => (entry A i j * nth j x 0)%Qc) n.
Proof.
  intros HA Hx Hi. unfold mat_vec.
  assert (E : nth i (map (fun row => dot row x) A) 0%Qc = dot (nth i A []) x).
  { rewrite (nth_indep _ 0%Qc (dot [] x)) by (rewrite length_map; destruct HA; lia).
    apply (map_nth (fun row => dot row x)). }
  rewrite E, dot_sum by (rewrite (square_row n) by assumption; congruence).
  rewrite (square_row n) by assumption. reflexivity.
Qed.

Lemma mat_vec_length (A : matrix) (x : vector) : length (mat_vec A x) = length A.
Proof. apply length_map. Qed.

End Entries.

(** ** [Simulation.__init__], executed *)

Section Assembly.
Import NumericalForward.
Local Open Scope string_scope.

Lemma qz_eq_0 (z : Z) : qz z = 0 -> z = 0%Z.
Proof.
  unfold qz. intros H. apply Qc_eq_Qeq in H. cbn [this Q2Qc] in H.
  rewrite !Qred_correct in H. unfold Qeq in H. simpl in H. lia.
Qed.

Lemma diag_matrix_square (ds : list (Qc * Z)) (n : nat) : square n (diag_matrix ds n).
Proof.
  unfold diag_matrix. split.
  - now rewrite length_map, length_seq.
  - apply Forall_map, Forall_forall. intros i _.
    now rewrite length_map, length_seq.
Qed.

Lemma entry_diag_matrix (ds : list (Qc * Z)) (n i j : nat) :
  (i < n)%nat -> (j < n)%nat -> entry (diag_matrix ds n) i j = diag_entry ds i j.
Proof.
  intros Hi Hj. unfold entry, diag_matrix.
  rewrite (nth_indep _ [] ((fun i => map (diag_entry ds i) (seq 0 n)) 0%nat))
    by now rewrite length_map, length_seq.
  rewrite (map_nth (fun i => map (diag_entry ds i) (seq 0 n))).
  rewrite seq_nth by exact Hi.
  rewrite (nth_indep _ 0 (diag_entry ds (0 + i) 0%nat))
    by now rewrite length_map, length_seq.
  rewrite (map_nth (diag_entry ds (0 + i))).
  rewrite seq_nth by exact Hj. reflexivity.
Qed.

Lemma Simulation_init_run (Length : Qc) (Material : Material) (N : Z)
    (HeatFlux AmbientTemperature : Qc -> Qc) (RobinAlpha : Qc) (h : store) :
  (1 <= N)%Z -> Length <> 0 ->
  Simulation_init Length Material N HeatFlux AmbientTemperature RobinAlpha h
  = Ok ({| L := Length; Mat := Material; N := N;
           T := length (arrays h); T_record := [];
           HeatFlux := HeatFlux; RobinAlpha := RobinAlpha;
           T_amb := AmbientTemperature; t := [];
           dx := Length / qz N; x := S (length (arrays h));
           M := length (matrices h); K := S (length (matrices h)) |},
        {| arrays := arrays h ++
             [Arr (repeat 0 (Z.to_nat (N + 1)));
              Arr (map (fun i => 0 + qn i * ((Length - 0) / qz (N + 1 - 1)))
                       (seq 0 (Z.to_nat (N + 1))))];
           matrices := matrices h ++
             [assembled_M Length Material N; assembled_K Length Material N] |}).
Proof.
  intros HN HL.
  assert (HqN : qz N <> 0) by (intros E; apply qz_eq_0 in E; lia).
  assert (Hdx : Length / qz N <> 0).
  { intros E. apply HL.
    assert (E' : Length = Length / qz N * qz N) by (field; exact HqN).
    rewrite E', E. ring. }
  unfold Simulation_init, np_empty, np_linspace, diags, py_div.
  destruct (Z.ltb_spec (N + 1) 0) as [?|_]; [lia|].
  assert (Hall : forallb (fun k : Z => (Z.abs k <=? N + 1)%Z) [-1; 0; 1]%Z = true).
  { simpl. rewrite !andb_true_iff. repeat split; try reflexivity; apply Z.leb_le; lia. }
  rewrite Hall.
  unfold bind, ret, throw, new_array, new_matrix. cbn [arrays matrices combine].
  destruct (Qc_eq_dec (qz N) 0) as [?|_]; [contradiction|].
  destruct (Qc_eq_dec (Length / qz N) 0) as [?|_]; [contradiction|].
  cbn [arrays matrices].
  set (n := Z.to_nat (N + 1)) in *.
  set (DM := diag_matrix [(qz 1 / qz 6, _); _; _] n).
  set (DK := diag_matrix [(- qz 1, _); _; _] n).
  set (Mv := mat_scale (Length / qz N * rho Material * cp Material) DM).
  set (Kv := mat_scale (1 / (Length / qz N) * lmbd Material) DK).
  assert (Hn : (2 <= n)%nat) by (unfold n; lia).
  assert (HK : square n Kv) by (apply mat_scale_square, diag_matrix_square).
  assert (HK' : square n (update_entry 0 0 (fun v => v / qz 2) Kv))
    by (now apply update_entry_square).
  unfold iupdate_entry, load_matrix. cbn [matrices].
  rewrite nth_app_last.
  rewrite (proj1 HK), (square_cols n Kv) by (auto; lia).
  rewrite py_index_first by lia.
  unfold store_matrix. cbn [arrays matrices].
  rewrite update_at_app_last, nth_app_last.
  rewrite (proj1 HK'), (square_cols n _) by (auto; lia).
  assert (HpN : py_index N n = Some (Z.to_nat N)).
  { replace N with (Z.of_nat (Z.to_nat N)) at 1 by lia.
    apply py_index_nat. unfold n. lia. }
  rewrite HpN.
  rewrite update_at_app_last.
  rewrite !length_app, <- !app_assoc. cbn [length app].
  unfold assembled_M, assembled_K. fold n. fold DM DK. fold Mv Kv.
  repeat f_equal; lia.
Qed.

End Assembly.

Section AssemblyEntries.
Import NumericalForward.
Local Open Scope string_scope.

Lemma qz_neq_0 (z : Z) : z <> 0%Z -> qz z <> 0.
Proof. intros H E. now apply qz_eq_0 in E. Qed.

(** The entries of a tridiagonal [diags] matrix. *)
Lemma diag_entry_tridiagonal (lo d up : Qc) (i j : nat) :
  diag_entry [(lo, (-1)%Z); (d, 0%Z); (up, 1%Z)] i j
  = if (i =? j)%nat then d
    else if (i =? j + 1)%nat then lo
    else if (j =? i + 1)%nat then up
    else 0.
Proof.
  unfold diag_entry.
  destruct (Z.eqb_spec (Z.of_nat j - Z.of_nat i) (-1)),
           (Z.eqb_spec (Z.of_nat j - Z.of_nat i) 0),
           (Z.eqb_spec (Z.of_nat j - Z.of_nat i) 1),
           (Nat.eqb_spec i j), (Nat.eqb_spec i (j + 1)), (Nat.eqb_spec j (i + 1));
    try lia; reflexivity.
Qed.

Lemma assembled_M_square (Length : Qc) (Material : Material) (N : Z) :
  square (Z.to_nat (N + 1)) (assembled_M Length Material N).
Proof. apply mat_scale_square, diag_matrix_square. Qed.

Lemma assembled_K_square (Length : Qc) (Material : Material) (N : Z) :
  square (Z.to_nat (N + 1)) (assembled_K Length Material N).
Proof.
  unfold assembled_K.
  apply update_entry_square, update_entry_square, mat_scale_square, diag_matrix_square.
Qed.

Lemma assembled_M_entry (Length : Qc) (Material : Material) (N : Z) (i j : nat) :
  (i < Z.to_nat (N + 1))%nat -> (j < Z.to_nat (N + 1))%nat ->
  entry (assembled_M Length Material N) i j
  = Length / qz N * rho Material * cp Material
    * (if (i =? j)%nat then qz 4 / qz 6
       else if ((i =? j + 1) || (j =? i + 1))%nat then qz 1 / qz 6
       else 0).
Proof.
  intros Hi Hj. unfold assembled_M.
  rewrite entry_mat_scale, entry_diag_matrix, diag_entry_tridiagonal by assumption.
  destruct (i =? j)%nat, (i =? j + 1)%nat, (j =? i + 1)%nat; reflexivity.
Qed.

Lemma assembled_K_entry (Length : Qc) (Material : Material) (N : Z) (i j : nat) :
  (1 <= N)%Z ->
  (i < Z.to_nat (N + 1))%nat -> (j < Z.to_nat (N + 1))%nat ->
  entry (assembled_K Length Material N) i j
  = if (i =? j)%nat then
      if ((i =? 0) || (i =? Z.to_nat N))%nat
      then 1 / (Length / qz N) * lmbd Material * qz 2 / qz 2
      else 1 / (Length / qz N) * lmbd Material * qz 2
    else if ((i =? j + 1) || (j =? i + 1))%nat
         then 1 / (Length / qz N) * lmbd Material * - qz 1
         else 1 / (Length / qz N) * lmbd Material * 0.
Proof.
  intros HN Hi Hj. unfold assembled_K.
  set (n := Z.to_nat (N + 1)) in *.
  set (S0 := mat_scale _ _).
  assert (HS0 : square n S0) by (apply mat_scale_square, diag_matrix_square).
  assert (HS1 : square n (update_entry 0 0 (fun v => v / qz 2) S0))
    by now apply update_entry_square.
  assert (E0 : forall a b, (a < n)%nat -> (b < n)%nat ->
            entry S0 a b
            = 1 / (Length / qz N) * lmbd Material
              * (if (a =? b)%nat then qz 2
                 else if (a =? b + 1)%nat then - qz 1
                 else if (b =? a + 1)%nat then - qz 1 else 0)).
  { intros a b Ha Hb. unfold S0.
    now rewrite entry_mat_scale, entry_diag_matrix, diag_entry_tridiagonal. }
  rewrite (entry_update_entry n) by (auto; unfold n; lia).
  rewrite !(entry_update_entry n) by (auto; unfold n; lia).
  rewrite !E0 by (auto; unfold n; lia).
  rewrite ?Nat.eqb_refl.
  repeat match goal with
         | |- context [Nat.eqb ?a ?b] => destruct (Nat.eqb_spec a b)
         end;
    cbn [andb orb]; try lia; try reflexivity; unfold Qcdiv; ring.
Qed.

End AssemblyEntries.

Section Assembly2.
Import NumericalForward.
Local Open Scope string_scope.

Lemma Qclt_neq_0 (a : Qc) : 0 < a -> a <> 0.
Proof. intros H E. subst. now apply Qclt_not_eq in H. Qed.

Lemma qz_1 : qz 1 = 1.
Proof. now apply Qc_is_canon. Qed.

(** C3.  For a valid mesh and a material with positive properties the
    constructor succeeds, no time step has been taken ([t] and [T_record]
    are empty), and the stiffness matrix it leaves has [K[0][0]] and
    [K[N][N]] equal to half of the diagonal value [2*lmbd/dx], that is to
    [lmbd/dx], every other diagonal entry equal to [2*lmbd/dx], every entry
    next to the diagonal equal to [-lmbd/dx] and every other entry zero. *)
Theorem stiffness_boundary_entries_halved
    (Length : Qc) (Material : Material) (N : Z)
    (HeatFlux AmbientTemperature : Qc -> Qc) (RobinAlpha : Qc) (h : store) :
  (1 <= N)%Z -> 0 < Length ->
  0 < rho Material -> 0 < cp Material -> 0 < lmbd Material ->
  exists sim h',
    Simulation_init Length Material N HeatFlux AmbientTemperature RobinAlpha h
    = Ok (sim, h')
    /\ t sim = [] /\ T_record sim = []
    /\ let Kv := load_matrix (K sim) h' in
       let dx_ := Length / qz N in
       let diagonal := qz 2 * lmbd Material / dx_ in
       let last := Z.to_nat N in
       entry Kv 0 0 = diagonal / qz 2
       /\ entry Kv 0 0 = lmbd Material / dx_
       /\ entry Kv last last = diagonal / qz 2
       /\ entry Kv last last = lmbd Material / dx_
       /\ (forall i, (0 < i < last)%nat -> entry Kv i i = diagonal)
       /\ (forall i j, (i <= last)%nat -> (j <= last)%nat ->
             i = (j + 1)%nat \/ j = (i + 1)%nat ->
             entry Kv i j = - (lmbd Material / dx_))
       /\ (forall i j, (i <= last)%nat -> (j <= last)%nat ->
             i <> j -> i <> (j + 1)%nat -> j <> (i + 1)%nat ->
             entry Kv i j = 0).
Proof.
  intros HN HL _ _ _.
  assert (HL0 : Length <> 0) by now apply Qclt_neq_0.
  assert (HqN : qz N <> 0) by (apply qz_neq_0; lia).
  assert (Hq2 : qz 2 <> 0) by (apply qz_neq_0; lia).
  eexists. eexists. split; [now apply Simulation_init_run|].
  split; [reflexivity|]. split; [reflexivity|].
  cbn [K]. unfold load_matrix. cbn [matrices]. rewrite nth_app_second.
  cbv zeta.
  assert (E : forall i j, (i <= Z.to_nat N)%nat -> (j <= Z.to_nat N)%nat ->
            entry (assembled_K Length Material N) i j = _)
    by (intros i j Hi Hj; apply assembled_K_entry; lia).
  repeat split.
  - rewrite E by lia. cbn [Nat.eqb orb]. (field; repeat split; assumption).
  - rewrite E by lia. cbn [Nat.eqb orb]. (field; repeat split; assumption).
  - rewrite E by lia. rewrite !Nat.eqb_refl, orb_true_r. (field; repeat split; assumption).
  - rewrite E by lia. rewrite !Nat.eqb_refl, orb_true_r. (field; repeat split; assumption).
  - intros i Hi. rewrite E by lia. rewrite Nat.eqb_refl.
    destruct (Nat.eqb_spec i 0), (Nat.eqb_spec i (Z.to_nat N)); try lia.
    cbn [orb]. (field; repeat split; assumption).
  - intros i j Hi Hj Hadj. rewrite E by lia.
    destruct (Nat.eqb_spec i j), (Nat.eqb_spec i (j + 1)), (Nat.eqb_spec j (i + 1));
      try lia; cbn [orb]; rewrite qz_1; (field; repeat split; assumption).
  - intros i j Hi Hj H1 H2 H3. rewrite E by lia.
    destruct (Nat.eqb_spec i j), (Nat.eqb_spec i (j + 1)), (Nat.eqb_spec j (i + 1));
      try lia; cbn [orb]. ring.
Qed.

Lemma Simulation_init_no_elements (Length : Qc) (Material : Material)
    (HeatFlux AmbientTemperature : Qc -> Qc) (RobinAlpha : Qc) (h : store) :
  Simulation_init Length Material 0 HeatFlux AmbientTemperature RobinAlpha h
  = Raise "ZeroDivisionError".
Proof.
  unfold Simulation_init, np_empty, py_div. cbn [Z.add Z.ltb Z.compare].
  unfold bind, new_array.
  destruct (Qc_eq_dec (qz 0) 0) as [_|H]; [reflexivity|].
  exfalso. apply H. now apply Qc_is_canon.
Qed.

Lemma Simulation_init_negative_elements (Length : Qc) (Material : Material) (N : Z)
    (HeatFlux AmbientTemperature : Qc -> Qc) (RobinAlpha : Qc) (h : store) :
  (N < 0)%Z ->
  Simulation_init Length Material N HeatFlux AmbientTemperature RobinAlpha h
  = Raise "ValueError".
Proof.
  intros HN. unfold Simulation_init, np_empty, np_linspace, py_div, diags.
  destruct (Z.ltb_spec (N + 1) 0) as [Hlt|Hge]; [reflexivity|].
  assert (N = (-1)%Z) by lia. subst N.
  unfold bind, new_array. cbn [Z.add Z.pos_sub Z.opp].
  destruct (Qc_eq_dec (qz (-1)) 0) as [E|_].
  { apply qz_eq_0 in E. discriminate. }
  reflexivity.
Qed.

Lemma Simulation_init_no_length (Material : Material) (N : Z)
    (HeatFlux AmbientTemperature : Qc -> Qc) (RobinAlpha : Qc) (h : store) :
  (1 <= N)%Z ->
  Simulation_init 0 Material N HeatFlux AmbientTemperature RobinAlpha h
  = Raise "ZeroDivisionError".
Proof.
  intros HN. unfold Simulation_init, np_empty, np_linspace, py_div, diags.
  destruct (Z.ltb_spec (N + 1) 0) as [?|_]; [lia|].
  assert (Hall : forallb (fun k : Z => (Z.abs k <=? N + 1)%Z) [-1; 0; 1]%Z = true).
  { simpl. rewrite !andb_true_iff. repeat split; try reflexivity; apply Z.leb_le; lia. }
  rewrite Hall.
  unfold bind, ret, throw, new_array, new_matrix.
  destruct (Qc_eq_dec (qz N) 0) as [E|_].
  { apply qz_eq_0 in E. lia. }
  destruct (Qc_eq_dec (0 / qz N) 0) as [_|H]; [reflexivity|].
  exfalso. apply H. unfold Qcdiv. ring.
Qed.

(** C4 (amended).  The constructor validates nothing.  With [N >= 1] and
    [Length <> 0] it succeeds, whatever the sign of [Length] and of the
    material properties, and has recorded no time.  It fails exactly on
    [N < 0] ([ValueError], from numpy and scipy), on [N = 0] and on
    [Length = 0] ([ZeroDivisionError]); it never raises [InvalidMeshError]
    or [InvalidMaterialError]. *)
Theorem assembly_fails_only_on_degenerate_mesh
    (Length : Qc) (Material : Material) (N : Z)
    (HeatFlux AmbientTemperature : Qc -> Qc) (RobinAlpha : Qc) (h : store) :
  let result :=
    Simulation_init Length Material N HeatFlux AmbientTemperature RobinAlpha h in
  ((1 <= N)%Z -> Length <> 0 -> exists sim h', result = Ok (sim, h') /\ t sim = [])
  /\ ((N < 0)%Z -> result = Raise "ValueError")
  /\ (N = 0%Z -> result = Raise "ZeroDivisionError")
  /\ ((1 <= N)%Z -> Length = 0 -> result = Raise "ZeroDivisionError")
  /\ result <> Raise "InvalidMeshError"
  /\ result <> Raise "InvalidMaterialError".
Proof.
  cbv zeta.
  assert (Hok : (1 <= N)%Z -> Length <> 0 ->
                exists sim h',
                  Simulation_init Length Material N HeatFlux AmbientTemperature
                    RobinAlpha h = Ok (sim, h') /\ t sim = []).
  { intros HN HL. eexists. eexists. split; [now apply Simulation_init_run|reflexivity]. }
  assert (Hcases : forall e, e <> "ValueError" -> e <> "ZeroDivisionError" ->
            Simulation_init Length Material N HeatFlux AmbientTemperature
              RobinAlpha h <> Raise e).
  { intros e H1 H2 E.
    destruct (Z_lt_le_dec N 0) as [Hneg|Hnn].
    - rewrite Simulation_init_negative_elements in E by exact Hneg. congruence.
    - destruct (Z.eq_dec N 0) as [->|Hnz].
      + rewrite Simulation_init_no_elements in E. congruence.
      + destruct (Qc_eq_dec Length 0) as [->|HL].
        * rewrite Simulation_init_no_length in E by lia. congruence.
        * destruct Hok as (sim & h' & Hr & _); [lia|exact HL|]. congruence. }
  repeat split.
  - exact Hok.
  - now apply Simulation_init_negative_elements.
  - intros ->. apply Simulation_init_no_elements.
  - intros HN ->. now apply Simulation_init_no_length.
  - apply Hcases; discriminate.
  - apply Hcases; discriminate.
Qed.

End Assembly2.

(** ** The loop of [ForwardSimulation] *)

Section ForwardLoop.
Import NumericalForward.

Variable CB : Type.
Variable Call : CB -> world -> CB.

Lemma arr_len_spsolve (A : matrix) (b : ndarray) : arr_len (spsolve A b) = arr_len b.
Proof.
  destruct b as [bv|m]; simpl; [|reflexivity].
  destruct (gauss (length bv) (combine A bv)) eqn:E; simpl; [|reflexivity].
  eapply gauss_length; eauto.
Qed.

Lemma arr_len_step_rhs (n : nat) (Mv Kv : matrix) (Tv : ndarray) (q amb : Qc -> Qc)
    (alpha tl dt theta : Qc) :
  square n Mv -> square n Kv ->
  arr_len (step_rhs Mv Kv Tv q amb alpha tl dt theta) = n.
Proof.
  intros HM HK. unfold step_rhs. rewrite !arr_len_nd_update, arr_len_sp_dot.
  apply (mat_map2_square n Qcminus); [exact HM|apply mat_scale_square; exact HK].
Qed.

Lemma list_item_last (l : list Qc) (a : Qc) : list_item (l ++ [a]) (-1) = Ok a.
Proof.
  unfold list_item. rewrite py_index_last by (rewrite length_app; simpl; lia).
  rewrite length_app. simpl.
  replace (length l + 1 - 1)%nat with (length l) by lia.
  now rewrite nth_app_last.
Qed.

Lemma ForwardSimulation_body_run (n : nat) (w : world) (cb : option CB)
    (tl dt theta : Qc) :
  well_shaped n w ->
  list_item (t (Sim w)) (-1) = Ok tl ->
  ForwardSimulation_body Call theta dt (w, cb)
  = Ok (tt, after_body Call w cb tl dt theta).
Proof.
  intros Hw Htl. unfold ForwardSimulation_body, bind, on_world. cbn [fst snd].
  rewrite (EvaluateNewStep_run n w dt theta tl Hw Htl).
  cbn [fst snd set_Sim modify Sim heap with_T T_record T].
  unfold Sim_t_last. cbn [Sim with_T_record with_T t]. rewrite Htl.
  cbn [lift fst snd]. unfold CallBack_Call, modify. cbn [fst snd].
  reflexivity.
Qed.

Lemma after_body_well_shaped (n : nat) (w : world) (cb : option CB)
    (tl dt theta : Qc) :
  well_shaped n w -> well_shaped n (fst (after_body Call w cb tl dt theta)).
Proof.
  intros (Hn & HM & HK & HT & HMs & HKs & HTl).
  unfold after_body, well_shaped. cbn [fst Sim heap with_t with_T_record with_T M K T arrays matrices].
  unfold load_matrix, load_array. cbn [arrays matrices].
  rewrite !length_app. cbn [length].
  rewrite !(nth_app_old _ _ [_]) by assumption.
  repeat split; try lia; try apply HMs; try apply HKs.
  rewrite nth_app_second, arr_len_spsolve.
  apply (arr_len_step_rhs n); assumption.
Qed.

End ForwardLoop.

Section Times.

Lemma strictly_increasing_snoc (l : list Qc) (a b : Qc) :
  strictly_increasing (l ++ [a]) -> a < b -> strictly_increasing ((l ++ [a]) ++ [b]).
Proof.
  intros Hl Hab i j Hij Hj.
  rewrite !length_app in Hj. simpl in Hj.
  assert (Hlast : nth (length l) (l ++ [a]) 0 = a) by apply nth_app_last.
  destruct (Nat.eq_dec j (length l + 1)) as [->|Hne].
  - replace (length l + 1)%nat with (length (l ++ [a])) at 1
      by (rewrite length_app; simpl; lia).
    rewrite nth_app_last.
    rewrite app_nth1 by (rewrite length_app; simpl; lia).
    destruct (Nat.eq_dec i (length l)) as [->|Hne'].
    + now rewrite Hlast.
    + apply Qclt_trans with a; [|exact Hab].
      assert (H : nth i (l ++ [a]) 0 < nth (length l) (l ++ [a]) 0).
      { apply Hl; [lia|]. rewrite length_app. simpl. lia. }
      now rewrite Hlast in H.
  - rewrite !(app_nth1 (l ++ [a])) by (rewrite length_app; simpl; lia).
    apply Hl; [lia|]. rewrite length_app. simpl. lia.
Qed.

Lemma strictly_increasing_single (a : Qc) : strictly_increasing [a].
Proof. intros i j Hij Hj. simpl in Hj. lia. Qed.

Lemma qn_0 : qn 0 = 0.
Proof. now apply Qc_is_canon. Qed.

Lemma qn_S (i : nat) : qn (S i) = qn i + 1.
Proof.
  unfold qn, qz. apply Qc_is_canon. 
  unfold Qcplus, Q2Qc. cbn [this]. rewrite !Qred_correct.
  rewrite Nat2Z.inj_succ. unfold Z.succ. rewrite inject_Z_plus. reflexivity.
Qed.

Lemma qn_lt (i j : nat) : (i < j)%nat -> qn i < qn j.
Proof.
  intros H. induction H as [|j _ IH]; rewrite qn_S.
  - set (a := qn i). clearbody a. qc_lra.
  - set (a := qn i) in *. set (b := qn j) in *. clearbody a b. qc_lra.
Qed.


Lemma lt_dt (a dt : Qc) : 0 < dt -> a < a + dt.
Proof. intros H. qc_lra. Qed.


End Times.

Section ForwardRun.
Import NumericalForward.

Variable CB : Type.
Variable Call : CB -> world -> CB.

Lemma ForwardSimulation_cond_run (w : world) (cb : option CB) (tl t_stop : Qc) :
  list_item (t (Sim w)) (-1) = Ok tl ->
  @ForwardSimulation_cond CB t_stop (w, cb)
  = Ok (if Qclt_le_dec tl t_stop then true else false, (w, cb)).
Proof.
  intros Htl. unfold ForwardSimulation_cond, bind, on_world, Sim_t_last.
  cbn [fst snd]. rewrite Htl. reflexivity.
Qed.

Lemma after_body_t (w : world) (cb : option CB) (tl dt theta : Qc) :
  t (Sim (fst (after_body Call w cb tl dt theta))) = t (Sim w) ++ [tl + dt].
Proof. reflexivity. Qed.

Lemma after_body_T_record (w : world) (cb : option CB) (tl dt theta : Qc) :
  T_record (Sim (fst (after_body Call w cb tl dt theta)))
  = T_record (Sim w) ++ [S (length (arrays (heap w)))].
Proof. reflexivity. Qed.


Lemma ForwardSimulation_unfold (fuel : nat) (theta T0 dt t_start t_stop : Qc)
    (w : world) (cb : option CB) :
  ForwardSimulation Call fuel theta T0 dt t_start t_stop (w, cb)
  = while_ fuel (@ForwardSimulation_cond CB t_stop)
      (ForwardSimulation_body Call theta dt) (before_loop w T0 t_start, cb).
Proof. reflexivity. Qed.

Lemma before_loop_well_shaped (n : nat) (w : world) (T0 t_start : Qc) :
  well_shaped n w -> well_shaped n (before_loop w T0 t_start).
Proof.
  intros (Hn & HM & HK & HT & HMs & HKs & HTl).
  unfold before_loop, well_shaped, load_matrix, load_array, store_array.
  cbn [Sim heap with_t with_T_record M K T arrays matrices].
  rewrite update_at_length, nth_update_at_same by exact HT.
  repeat split; try assumption; try apply HMs; try apply HKs.
  cbn [arr_len]. rewrite repeat_length. exact HTl.
Qed.



End ForwardRun.

Section ForwardTheorems.
Import NumericalForward.

Variable CB : Type.
Variable Call : CB -> world -> CB.



End ForwardTheorems.

(** ** The system one step solves *)

Section StepValues.
Import NumericalForward.
Local Open Scope nat_scope.

Lemma nth_update_at (i k : nat) (f : Qc -> Qc) (l : vector) :
  k < length l ->
  nth i (update_at k f l) 0%Qc = if i =? k then f (nth i l 0%Qc) else nth i l 0%Qc.
Proof.
  intros Hk. destruct (Nat.eqb_spec i k) as [->|Hne].
  - now apply nth_update_at_same.
  - apply nth_update_at_other. auto.
Qed.

Lemma step_matrix_square (n : nat) (Mv Kv : matrix) (alpha dt theta : Qc) :
  square n Mv -> square n Kv -> square n (step_matrix Mv Kv alpha dt theta).
Proof.
  intros HM HK. unfold step_matrix. apply update_entry_square.
  apply (mat_map2_square n Qcplus); [exact HM|now apply mat_scale_square].
Qed.

Lemma step_matrix_entry (n : nat) (Mv Kv : matrix) (alpha dt theta : Qc) (i j : nat) :
  1 <= n -> square n Mv -> square n Kv -> i < n -> j < n ->
  entry (step_matrix Mv Kv alpha dt theta) i j
  = (entry Mv i j + dt * theta * entry Kv i j
     + (if (i =? n - 1) && (j =? n - 1) then dt * theta * alpha else 0))%Qc.
Proof.
  intros Hn HM HK Hi Hj. unfold step_matrix.
  set (A := mat_add Mv (mat_scale (dt * theta) Kv)).
  assert (HA : square n A)
    by (apply (mat_map2_square n Qcplus); [exact HM|now apply mat_scale_square]).
  assert (EA : forall a b, a < n -> b < n ->
            entry A a b = (entry Mv a b + dt * theta * entry Kv a b)%Qc).
  { intros a b Ha Hb. unfold A, mat_add.
    rewrite (entry_mat_map2 n) by (auto using mat_scale_square).
    now rewrite entry_mat_scale. }
  rewrite (proj1 HA), (square_cols n A) by assumption.
  rewrite (entry_update_entry n) by (auto; lia).
  destruct (Nat.eqb_spec i (n - 1)), (Nat.eqb_spec j (n - 1)); cbn [andb];
    rewrite EA by lia; subst; ring.
Qed.

Lemma step_rhs_finite (n : nat) (Mv Kv : matrix) (Tprev : vector) (q amb : Qc -> Qc)
    (alpha tl dt theta : Qc) :
  1 <= n -> square n Mv -> square n Kv -> length Tprev = n ->
  exists b : vector,
    step_rhs Mv Kv (Arr Tprev) q amb alpha tl dt theta = Arr b
    /\ length b = n
    /\ forall i, i < n ->
         nth i b 0%Qc
         = (sum_n (fun j => (entry Mv i j - dt * (1 - theta) * entry Kv i j)
                            * nth j Tprev 0) n
            + (if i =? 0 then dt * (1 - theta) * q tl + dt * theta * q (tl + dt)
               else 0)
            + (if i =? n - 1
               then - (dt * (1 - theta) * alpha * nth (n - 1) Tprev 0)
                    + dt * (1 - theta) * alpha * amb tl
                    + dt * theta * alpha * amb (tl + dt)
               else 0))%Qc.
Proof.
  intros Hn HM HK HT. unfold step_rhs.
  set (B := mat_sub Mv (mat_scale (dt * (1 - theta)) Kv)).
  assert (HB : square n B)
    by (apply (mat_map2_square n Qcminus); [exact HM|now apply mat_scale_square]).
  assert (EB : forall a b, a < n -> b < n ->
            entry B a b = (entry Mv a b - dt * (1 - theta) * entry Kv a b)%Qc).
  { intros a b Ha Hb. unfold B, mat_sub.
    rewrite (entry_mat_map2 n) by (auto using mat_scale_square).
    now rewrite entry_mat_scale. }
  cbn [sp_dot arr_len arr_last fscale option_map nd_update].
  rewrite mat_vec_length, (proj1 HB), HT.
  eexists. split; [reflexivity|].
  assert (Hlen : length (mat_vec B Tprev) = n)
    by (rewrite mat_vec_length; apply HB).
  split; [now rewrite !update_at_length|].
  intros i Hi.
  rewrite !nth_update_at by (rewrite ?update_at_length; lia).
  rewrite (nth_mat_vec n) by assumption.
  rewrite (sum_n_ext _ (fun j => ((entry Mv i j - dt * (1 - theta) * entry Kv i j)
                                  * nth j Tprev 0)%Qc))
    by (intros j Hj; now rewrite EB).
  destruct (i =? 0), (i =? n - 1); ring.
Qed.

End StepValues.

Section StepTheorems.
Import NumericalForward.
Local Open Scope string_scope.
Local Open Scope list_scope.


(** C9.  [EvaluateNewStep] leaves the simulation as it found it: when it
    returns, [Sim] (so [t], [T_record] and the references [T], [M], [K])
    is unchanged, every array and every matrix that existed before the call
    has its content unchanged, and the array it returns is a fresh one.
    Its result is determined by its inputs: two simulations with the same
    [M], [K], [T], last time, [RobinAlpha], and the same heat flux and
    ambient temperature at [tl] and [tl + dt], get the same array. *)
Theorem EvaluateNewStep_leaves_simulation_unchanged (w : world) (dt theta : Qc) :
  match EvaluateNewStep dt theta w with
  | Ok (l, w') =>
      Sim w' = Sim w
      /\ t (Sim w') = t (Sim w)
      /\ T_record (Sim w') = T_record (Sim w)
      /\ (forall a, (a < length (arrays (heap w)))%nat ->
            load_array a (heap w') = load_array a (heap w))
      /\ (forall m, (m < length (matrices (heap w)))%nat ->
            load_matrix m (heap w') = load_matrix m (heap w))
      /\ (length (arrays (heap w)) <= l)%nat
  | Raise _ => True
  end
  /\ forall (n : nat) (w2 : world) (tl : Qc),
       well_shaped n w -> well_shaped n w2 ->
       load_matrix (M (Sim w2)) (heap w2) = load_matrix (M (Sim w)) (heap w) ->
       load_matrix (K (Sim w2)) (heap w2) = load_matrix (K (Sim w)) (heap w) ->
       load_array (T (Sim w2)) (heap w2) = load_array (T (Sim w)) (heap w) ->
       list_item (t (Sim w)) (-1) = Ok tl ->
       list_item (t (Sim w2)) (-1) = Ok tl ->
       HeatFlux (Sim w2) tl = HeatFlux (Sim w) tl ->
       HeatFlux (Sim w2) (tl + dt) = HeatFlux (Sim w) (tl + dt) ->
       T_amb (Sim w2) tl = T_amb (Sim w) tl ->
       T_amb (Sim w2) (tl + dt) = T_amb (Sim w) (tl + dt) ->
       RobinAlpha (Sim w2) = RobinAlpha (Sim w) ->
       exists l l2 w' w2',
         EvaluateNewStep dt theta w = Ok (l, w')
         /\ EvaluateNewStep dt theta w2 = Ok (l2, w2')
         /\ load_array l2 (heap w2') = load_array l (heap w').
Proof.
  split.
  - pose proof (EvaluateNewStep_keeps w dt theta w (extends_refl w)) as H.
    destruct (EvaluateNewStep dt theta w) as [[l w']|e]; [|exact I].
    destruct H as [(HS & [bs Hb] & [ms Hm]) Hl].
    repeat split; try (now rewrite HS); try exact Hl.
    + intros a Ha. unfold load_array. rewrite Hb. now apply app_nth1.
    + intros m Hlt. unfold load_matrix. rewrite Hm. now apply app_nth1.
  - intros n w2 tl Hw Hw2 EM EK ET Htl Htl2 Eq1 Eq2 Ea1 Ea2 Ealpha.
    pose proof (EvaluateNewStep_run n w dt theta tl Hw Htl) as H1.
    pose proof (EvaluateNewStep_run n w2 dt theta tl Hw2 Htl2) as H2.
    cbv zeta in H1, H2.
    rewrite EM, EK, ET, Ealpha in H2. unfold step_rhs in H2.
    rewrite Eq1, Eq2, Ea1, Ea2 in H2.
    fold (step_rhs (load_matrix (M (Sim w)) (heap w))
            (load_matrix (K (Sim w)) (heap w)) (load_array (T (Sim w)) (heap w))
            (HeatFlux (Sim w)) (T_amb (Sim w)) (RobinAlpha (Sim w)) tl dt theta) in H2.
    eexists. eexists. eexists. eexists.
    split; [exact H1|]. split; [exact H2|].
    unfold load_array. cbn [heap arrays]. now rewrite !nth_app_second.
Qed.

(** C5 (amended).  [EvaluateNewStep] checks neither the matrix nor the
    result.  On a well-shaped simulation (square [M] and [K] of the size of
    [T], a time list that is not empty: what the constructor and the loop
    leave) it raises nothing, leaves [Sim] alone and returns the array
    [spsolve(A, b)] for the matrix [A] and the right-hand side [b] it has
    assembled.  When the previous temperature is finite, [b] is finite,
    and the returned array is the unique solution of [A x = b] when [A] is
    nonsingular, and the [nan]-filled array of the solver when [A] is
    singular: the non-finite result is returned as an ordinary value. *)
Theorem EvaluateNewStep_returns_solver_result
    (n : nat) (w : world) (dt theta tl : Qc) :
  well_shaped n w ->
  list_item (t (Sim w)) (-1) = Ok tl ->
  let A := step_matrix (load_matrix (M (Sim w)) (heap w))
             (load_matrix (K (Sim w)) (heap w)) (RobinAlpha (Sim w))
             dt theta in
  let b := step_rhs (load_matrix (M (Sim w)) (heap w))
             (load_matrix (K (Sim w)) (heap w))
             (load_array (T (Sim w)) (heap w)) (HeatFlux (Sim w))
             (T_amb (Sim w)) (RobinAlpha (Sim w)) tl dt theta in
  exists l w',
    EvaluateNewStep dt theta w = Ok (l, w')
    /\ Sim w' = Sim w
    /\ load_array l (heap w') = spsolve A b
    /\ forall Tprev, load_array (T (Sim w)) (heap w) = Arr Tprev ->
         exists bv,
           b = Arr bv /\ length bv = n
           /\ (nonsingular n A ->
               exists x,
                 load_array l (heap w') = Arr x /\ length x = n
                 /\ mat_vec A x = bv
                 /\ forall y, length y = n -> mat_vec A y = bv -> y = x)
           /\ (~ nonsingular n A -> load_array l (heap w') = NaNArr n).
Proof.
  intros Hw Htl. cbv zeta.
  pose proof (EvaluateNewStep_run n w dt theta tl Hw Htl) as Hrun. cbv zeta in Hrun.
  set (A := step_matrix _ _ _ dt theta) in *.
  set (b := step_rhs _ _ _ _ _ _ tl dt theta) in *.
  eexists. eexists. split; [exact Hrun|]. split; [reflexivity|].
  assert (El : load_array (S (length (arrays (heap w))))
                 {| arrays := arrays (heap w) ++ [b; spsolve A b];
                    matrices := matrices (heap w) ++ [A] |}
               = spsolve A b).
  { unfold load_array. cbn [arrays]. apply nth_app_second. }
  cbn [heap]. split; [exact El|].
  intros Tprev HT. rewrite El.
  destruct Hw as (Hn & HM & HK & HTv & HMs & HKs & HTl).
  rewrite HT in HTl. cbn [arr_len] in HTl.
  destruct (step_rhs_finite n _ _ Tprev (HeatFlux (Sim w)) (T_amb (Sim w))
              (RobinAlpha (Sim w)) tl dt theta Hn HMs HKs HTl)
    as (bv & Hb & Hblen & _).
  assert (Eb : b = Arr bv) by (unfold b; rewrite HT; exact Hb).
  rewrite Eb.
  assert (HA : square n A) by now apply step_matrix_square.
  destruct (spsolve_spec n A bv HA Hblen) as (Hsome & Hns & Hsing).
  exists bv. split; [reflexivity|]. split; [exact Hblen|]. split.
  - intros H. destruct (Hns H) as [x Hx]. exists x. split; [exact Hx|].
    now apply Hsome.
  - exact Hsing.
Qed.

End StepTheorems.

(** ** Strictly diagonally dominant matrices are nonsingular *)

Section Dominance.

Lemma sum_n_le (f g : nat -> Qc) (n : nat) :
  (forall j, (j < n)%nat -> f j <= g j) -> sum_n f n <= sum_n g n.
Proof.
  induction n as [|n IH]; intros H; simpl.
  - apply Qcle_refl.
  - apply Qcplus_le_compat; [apply IH; intros; apply H; lia|apply H; lia].
Qed.

Lemma Qcabs_sum_n (f : nat -> Qc) (n : nat) :
  Qcabs (sum_n f n) <= sum_n (fun j => Qcabs (f j)) n.
Proof.
  induction n as [|n IH]; simpl.
  - rewrite Qcabs_pos; apply Qcle_refl.
  - eapply Qcle_trans; [apply Qcabs_triangle|].
    apply Qcplus_le_compat; [exact IH|apply Qcle_refl].
Qed.

(** An entry of largest absolute value. *)
Lemma max_abs_index (y : vector) :
  y <> [] ->
  exists i, (i < length y)%nat
            /\ forall j, (j < length y)%nat -> Qcabs (nth j y 0) <= Qcabs (nth i y 0).
Proof.
  induction y as [|a y IH]; intros H; [contradiction|].
  destruct y as [|b y].
  - exists 0%nat. split; [simpl; lia|]. intros [|j] Hj; simpl in *; [apply Qcle_refl|lia].
  - destruct IH as (i & Hi & Hmax); [discriminate|].
    destruct (Qclt_le_dec (Qcabs (nth i (b :: y) 0)) (Qcabs a)) as [Hlt|Hge].
    + exists 0%nat. split; [simpl; lia|]. intros [|j] Hj.
      * apply Qcle_refl.
      * change (nth (S j) (a :: b :: y) 0) with (nth j (b :: y) 0).
        change (nth 0 (a :: b :: y) 0) with a.
        eapply Qcle_trans; [apply Hmax; simpl in *; lia|].
        now apply Qclt_le_weak.
    + exists (S i). split; [simpl in *; lia|]. intros [|j] Hj.
      * exact Hge.
      * apply Hmax. simpl in *. lia.
Qed.

Lemma all_zero_repeat (y : vector) :
  (forall j, (j < length y)%nat -> nth j y 0 = 0) -> y = repeat 0 (length y).
Proof.
  induction y as [|a y IH]; intros H; [reflexivity|]. simpl. f_equal.
  - apply (H 0%nat). simpl. lia.
  - apply IH. intros j Hj. apply (H (S j)). simpl. lia.
Qed.

Lemma Qcabs_zero_le (a b : Qc) : Qcabs a <= Qcabs b -> b = 0 -> a = 0.
Proof.
  intros H ->. apply Qcabs_null. apply Qcle_antisym; [exact H|apply Qcabs_nonneg].
Qed.

Lemma diagonally_dominant_nonsingular (n : nat) (A : matrix) :
  square n A ->
  (forall i, (i < n)%nat -> dominant_row n A i) ->
  nonsingular n A.
Proof.
  intros HA Hdom y Hy Hker.
  destruct (list_eq_dec Qc_eq_dec y (repeat 0 n)) as [E|Hne]; [exact E|exfalso].
  assert (Hnil : y <> []).
  { intros ->. apply Hne. simpl in Hy. now subst n. }
  destruct (max_abs_index y Hnil) as (i & Hi & Hmax).
  rewrite Hy in Hi, Hmax.
  set (yi := nth i y 0) in *.
  assert (Hyi : yi <> 0).
  { intros E. apply Hne. rewrite <- Hy. apply all_zero_repeat.
    intros j Hj. rewrite Hy in Hj. apply (Qcabs_zero_le _ yi); auto. }
  assert (Hpos : 0 < Qcabs yi).
  { destruct (Qcle_lt_or_eq _ _ (Qcabs_nonneg yi)) as [H|H]; [exact H|].
    exfalso. apply Hyi. now apply Qcabs_null. }
  (* row [i] of the system *)
  assert (Hrow : sum_n (fun j => entry A i j * nth j y 0) n = 0).
  { rewrite <- (nth_mat_vec n A y i HA Hy Hi), Hker.
    apply nth_repeat. }
  rewrite (sum_n_split _ i n Hi) in Hrow. fold yi in Hrow.
  set (rest := sum_n (fun j => if (j =? i)%nat then 0 else entry A i j * nth j y 0) n) in *.
  assert (Hdiag : Qcabs (entry A i i) * Qcabs yi = Qcabs rest).
  { rewrite <- Qcabs_Qcmult.
    assert (E : entry A i i * yi = - rest).
    { assert (E' : entry A i i * yi = (entry A i i * yi + rest) - rest) by ring.
      rewrite E', Hrow. ring. }
    rewrite E. apply Qcabs_opp. }
  assert (Hrest : Qcabs rest
                  <= sum_n (fun j => if (j =? i)%nat then 0 else Qcabs (entry A i j)) n
                     * Qcabs yi).
  { eapply Qcle_trans; [apply Qcabs_sum_n|].
    rewrite Qcmult_comm, <- sum_n_scale.
    apply sum_n_le. intros j Hj. cbv beta.
    destruct (j =? i)%nat.
    - rewrite Qcabs_pos by apply Qcle_refl. rewrite Qcmult_0_r. apply Qcle_refl.
    - rewrite Qcabs_Qcmult, Qcmult_comm.
      apply Qcmult_le_compat_r; [apply Hmax; exact Hj|apply Qcabs_nonneg]. }
  specialize (Hdom i Hi). unfold dominant_row in Hdom.
  apply (Qcmult_lt_compat_r _ _ (Qcabs yi) Hpos) in Hdom.
  rewrite Hdiag in Hdom.
  exact (Qcle_not_lt _ _ Hrest Hdom).
Qed.

End Dominance.

(** ** The state of rest *)

Section SteadyState.
Import NumericalForward.

Lemma qz_2 : qz 2 = 1 + 1.
Proof. now apply Qc_is_canon. Qed.
Lemma qz_4_6 : qz 4 / qz 6 = Q2Qc (4 # 6).
Proof. now apply Qc_is_canon. Qed.
Lemma qz_1_6 : qz 1 / qz 6 = Q2Qc (1 # 6).
Proof. now apply Qc_is_canon. Qed.

Lemma Qcmult_pos (a b : Qc) : 0 < a -> 0 < b -> 0 < a * b.
Proof. intros Ha Hb. qc_nra. Qed.

Lemma Qcmult_nonneg (a b : Qc) : 0 <= a -> 0 <= b -> 0 <= a * b.
Proof. intros Ha Hb. qc_nra. Qed.

Lemma Qcinv_pos (a : Qc) : 0 < a -> 0 < / a.
Proof. intros Ha. qc_to_q. now apply Qinv_lt_0_compat. Qed.

Lemma Qcdiv_pos (a b : Qc) : 0 < a -> 0 < b -> 0 < a / b.
Proof. intros Ha Hb. apply Qcmult_pos; [exact Ha|now apply Qcinv_pos]. Qed.

Lemma qz_pos (z : Z) : (0 < z)%Z -> 0 < qz z.
Proof.
  intros H. unfold qz, Qclt. cbn [this Q2Qc]. rewrite !Qred_correct.
  unfold Qlt. simpl. lia.
Qed.

Lemma half_double (k : Qc) : k * qz 2 / qz 2 = k.
Proof. rewrite qz_2. qc_to_q. field. Qed.

Lemma double (k : Qc) : k * qz 2 = k + k.
Proof. rewrite qz_2. ring. Qed.

Lemma dominance_arith (mu c r : Qc) :
  0 < mu -> 0 <= c -> 0 <= r ->
  let mo := mu * (qz 1 / qz 6) in
  let md := mu * (qz 4 / qz 6) in
  Qcabs (mo - c) <= mo + c
  /\ mo + c < md + c
  /\ mo + c < md + c + r
  /\ mo + c + (mo + c) < md + (c + c).
Proof.
  intros Hmu Hc Hr. cbv zeta. rewrite qz_1_6, qz_4_6.
  split; [|repeat split; qc_lra].
  apply Qcabs_Qcle_condition. split; qc_lra.
Qed.

(** The sum of a row that vanishes outside the three diagonals. *)
Lemma sum_n_tridiagonal (f : nat -> Qc) (d lo up : Qc) (i n : nat) :
  (i < n)%nat ->
  (forall j, (j < n)%nat ->
     f j = if (i =? j)%nat then d
           else if (i =? j + 1)%nat then lo
           else if (j =? i + 1)%nat then up else 0) ->
  sum_n f n
  = d + (if (1 <=? i)%nat then lo else 0) + (if (i + 1 <? n)%nat then up else 0).
Proof.
  intros Hi Hf.
  rewrite (sum_n_ext f (fun j => (if (j =? i)%nat then d else 0)
                                 + ((if (j =? i - 1)%nat
                                     then (if (1 <=? i)%nat then lo else 0) else 0)
                                    + (if (j =? i + 1)%nat then up else 0))) n).
  - rewrite !sum_n_plus, !sum_n_single.
    destruct (Nat.ltb_spec i n), (Nat.ltb_spec (i - 1) n), (Nat.ltb_spec (i + 1) n),
             (Nat.leb_spec 1 i); try lia; ring.
  - intros j Hj. rewrite (Hf j Hj).
    destruct (Nat.eqb_spec i j), (Nat.eqb_spec j i), (Nat.eqb_spec i (j + 1)),
             (Nat.eqb_spec j (i - 1)), (Nat.eqb_spec j (i + 1)), (Nat.leb_spec 1 i);
      try lia; ring.
Qed.

Variables (Length : Qc) (Mat : Material) (N : Z).
Variables (alpha dt theta : Qc).
Hypothesis HN : (1 <= N)%Z.
Hypothesis HL : 0 < Length.
Hypothesis Hrho : 0 < rho Mat.
Hypothesis Hcp : 0 < cp Mat.
Hypothesis Hlmbd : 0 < lmbd Mat.

Let n := Z.to_nat (N + 1).
Let last := Z.to_nat N.
Let Mv := assembled_M Length Mat N.
Let Kv := assembled_K Length Mat N.
Let mu := Length / qz N * rho Mat * cp Mat.
Let kappa := 1 / (Length / qz N) * lmbd Mat.

Lemma qzN_pos : 0 < qz N.
Proof. apply qz_pos. lia. Qed.

Lemma dx_pos : 0 < Length / qz N.
Proof. apply Qcdiv_pos; [exact HL|exact qzN_pos]. Qed.

Lemma mu_pos : 0 < mu.
Proof.
  unfold mu. apply Qcmult_pos; [apply Qcmult_pos|]; [exact dx_pos|exact Hrho|exact Hcp].
Qed.

Lemma kappa_pos : 0 < kappa.
Proof.
  unfold kappa. apply Qcmult_pos; [|exact Hlmbd].
  apply Qcdiv_pos; [reflexivity|exact dx_pos].
Qed.

Hypothesis Hdt : 0 < dt.
Hypothesis Htheta : 0 <= theta.
Hypothesis Halpha : 0 <= alpha.

Let c := dt * theta * kappa.
Let r := dt * theta * alpha.
Let A := step_matrix Mv Kv alpha dt theta.

Lemma c_nonneg : 0 <= c.
Proof.
  unfold c. apply Qcmult_nonneg; [apply Qcmult_nonneg|];
    [apply Qclt_le_weak, Hdt|exact Htheta|apply Qclt_le_weak, kappa_pos].
Qed.

Lemma r_nonneg : 0 <= r.
Proof.
  unfold r. apply Qcmult_nonneg; [apply Qcmult_nonneg|];
    [apply Qclt_le_weak, Hdt|exact Htheta|exact Halpha].
Qed.

Lemma n_last : n = S last.
Proof. unfold n, last. lia. Qed.

Lemma steady_A_square : square n A.
Proof.
  apply step_matrix_square; [apply assembled_M_square|apply assembled_K_square].
Qed.

Lemma steady_A_entry (i j : nat) :
  (i < n)%nat -> (j < n)%nat ->
  entry A i j
  = if (i =? j)%nat then
      if ((i =? 0) || (i =? last))%nat
      then mu * (qz 4 / qz 6) + c + (if (i =? last)%nat then r else 0)
      else mu * (qz 4 / qz 6) + (c + c)
    else if (i =? j + 1)%nat then mu * (qz 1 / qz 6) - c
    else if (j =? i + 1)%nat then mu * (qz 1 / qz 6) - c
    else 0.
Proof.
  intros Hi Hj. unfold A.
  rewrite (step_matrix_entry n);
    [|unfold n; lia|apply assembled_M_square|apply assembled_K_square
     |exact Hi|exact Hj].
  unfold Mv, Kv.
  rewrite assembled_M_entry, assembled_K_entry by assumption.
  fold mu kappa. replace (n - 1)%nat with last by (unfold n, last; lia).
  unfold c, r.
  repeat match goal with
         | |- context [Nat.eqb ?a ?b] => destruct (Nat.eqb_spec a b)
         end;
    cbn [andb orb]; try lia;
    rewrite ?half_double, ?double, ?qz_1; ring.
Qed.

Lemma steady_A_dominant (i : nat) : (i < n)%nat -> dominant_row n A i.
Proof.
  intros Hi. unfold dominant_row.
  destruct (dominance_arith mu c r mu_pos c_nonneg r_nonneg) as (Habs & H1 & H2 & H3).
  set (mo := mu * (qz 1 / qz 6)) in *.
  set (md := mu * (qz 4 / qz 6)) in *.
  eapply Qcle_lt_trans.
  - apply (sum_n_le _ (fun j => if (i =? j)%nat then 0
                                else if (i =? j + 1)%nat then mo + c
                                else if (j =? i + 1)%nat then mo + c else 0)).
    intros j Hj. cbv beta. rewrite steady_A_entry by assumption. fold mo md.
    destruct (Nat.eqb_spec j i), (Nat.eqb_spec i j); try lia.
    + apply Qcle_refl.
    + destruct (i =? j + 1)%nat; [exact Habs|].
      destruct (j =? i + 1)%nat; [exact Habs|].
      rewrite Qcabs_pos; apply Qcle_refl.
  - rewrite (sum_n_tridiagonal _ 0 (mo + c) (mo + c) i n Hi) by reflexivity.
    eapply Qclt_le_trans; [|apply Qcle_Qcabs].
    rewrite steady_A_entry by assumption. fold mo md.
    rewrite Nat.eqb_refl. pose proof n_last as Hn.
    destruct (Nat.eqb_spec i 0), (Nat.eqb_spec i last), (Nat.leb_spec 1 i),
             (Nat.ltb_spec (i + 1) n); cbn [orb]; try lia.
    + clear - H1. qc_lra.
    + clear - H2. qc_lra.
    + clear - H3. qc_lra.
Qed.

Lemma steady_A_nonsingular : nonsingular n A.
Proof.
  apply diagonally_dominant_nonsingular;
    [exact steady_A_square|exact steady_A_dominant].
Qed.

(** Every row of the stiffness matrix sums to zero. *)
Lemma stiffness_row_sum (i : nat) :
  (i < n)%nat -> sum_n (fun j => entry Kv i j) n = 0.
Proof.
  intros Hi. pose proof n_last as Hn.
  rewrite (sum_n_tridiagonal _
             (if ((i =? 0) || (i =? last))%nat then kappa else kappa + kappa)
             (- kappa) (- kappa) i n Hi).
  - destruct (Nat.eqb_spec i 0), (Nat.eqb_spec i last), (Nat.leb_spec 1 i),
             (Nat.ltb_spec (i + 1) n); cbn [orb]; try lia; ring.
  - intros j Hj. unfold Kv. rewrite assembled_K_entry by assumption. fold kappa.
    repeat match goal with
           | |- context [Nat.eqb ?a ?b] => destruct (Nat.eqb_spec a b)
           end;
      cbn [andb orb]; try lia;
      rewrite ?half_double, ?double, ?qz_1; ring.
Qed.

Variables (T0 tl : Qc) (q amb : Qc -> Qc).
Hypothesis Hq : forall tau, q tau = 0.
Hypothesis Hamb : forall tau, amb tau = T0.

Let u := repeat T0 n.

Lemma nth_uniform (j : nat) : (j < n)%nat -> nth j u 0 = T0.
Proof. intros Hj. unfold u. now apply nth_repeat_lt. Qed.

Lemma steady_state_solve :
  spsolve A (step_rhs Mv Kv (Arr u) q amb alpha tl dt theta) = Arr u.
Proof.
  pose proof n_last as Hn.
  assert (Hn1 : (1 <= n)%nat) by lia.
  assert (Hu : length u = n) by apply repeat_length.
  destruct (step_rhs_finite n Mv Kv u q amb alpha tl dt theta Hn1
              (assembled_M_square _ _ _) (assembled_K_square _ _ _) Hu)
    as (b & Hb & Hblen & Hbi).
  rewrite Hb.
  destruct (spsolve_spec n A b steady_A_square Hblen) as (Hsome & Hns & _).
  destruct (Hns steady_A_nonsingular) as [x Hx].
  rewrite Hx. f_equal. symmetry.
  apply (proj2 (proj2 (Hsome x Hx))); [exact Hu|].
  apply (nth_ext _ _ 0 0).
  { rewrite mat_vec_length, Hblen. apply steady_A_square. }
  intros i Hi. rewrite mat_vec_length, (proj1 steady_A_square) in Hi.
  rewrite (nth_mat_vec n A u i steady_A_square Hu Hi), (Hbi i Hi).
  rewrite !Hq, !Hamb, nth_uniform by lia.
  rewrite (sum_n_ext (fun j => entry A i j * nth j u 0)
             (fun j => (entry Mv i j - dt * (1 - theta) * entry Kv i j) * nth j u 0
                       + (dt * T0 * entry Kv i j
                          + (if (j =? n - 1)%nat
                             then (if (i =? n - 1)%nat then r * T0 else 0)
                             else 0))) n).
  - rewrite !sum_n_plus, sum_n_scale, stiffness_row_sum, sum_n_single by exact Hi.
    destruct (Nat.ltb_spec (n - 1) n); [|lia].
    unfold r. destruct (i =? 0)%nat, (i =? n - 1)%nat; ring.
  - intros j Hj. unfold A.
    rewrite (step_matrix_entry n);
      [|exact Hn1|apply assembled_M_square|apply assembled_K_square|exact Hi|exact Hj].
    fold Mv Kv. rewrite nth_uniform by exact Hj. unfold r.
    destruct (i =? n - 1)%nat, (j =? n - 1)%nat; cbn [andb]; ring.
Qed.

End SteadyState.

Section SteadyRun.
Import NumericalForward.

Variables (Length : Qc) (Mat : Material) (N : Z).
Variables (dt theta T0 : Qc).
Hypothesis HN : (1 <= N)%Z.
Hypothesis HL : 0 < Length.
Hypothesis Hrho : 0 < rho Mat.
Hypothesis Hcp : 0 < cp Mat.
Hypothesis Hlmbd : 0 < lmbd Mat.
Hypothesis Hdt : 0 < dt.
Hypothesis Htheta : 0 <= theta.

Variable CB : Type.
Variable Call : CB -> world -> CB.

Lemma nonempty_last (l : list Qc) :
  l <> [] -> exists ts tl, l = ts ++ [tl].
Proof.
  intros H. exists (removelast l), (last l 0). now apply app_removelast_last.
Qed.

(** One step from rest: the solver returns the uniform temperature. *)
Lemma at_rest_step (w : world) :
  at_rest Length Mat N T0 w -> 0 <= RobinAlpha (Sim w) ->
  exists l w',
    EvaluateNewStep dt theta w = Ok (l, w')
    /\ load_array l (heap w') = Arr (repeat T0 (Z.to_nat (N + 1))).
Proof.
  intros (Hw & HM & HK & Hq & Hamb & HT & Hrec & Ht) Halpha.
  destruct (nonempty_last _ Ht) as (ts & tl & Hts).
  assert (Htl : list_item (t (Sim w)) (-1) = Ok tl)
    by (rewrite Hts; apply list_item_last).
  pose proof (EvaluateNewStep_run _ w dt theta tl Hw Htl) as Hrun. cbv zeta in Hrun.
  eexists. eexists. split; [exact Hrun|].
  unfold load_array. cbn [heap arrays]. rewrite nth_app_second.
  fold (load_array (T (Sim w)) (heap w)). rewrite HM, HK, HT.
  now apply steady_state_solve.
Qed.

Lemma after_body_at_rest (w : world) (cb : option CB) (tl : Qc) :
  at_rest Length Mat N T0 w -> 0 <= RobinAlpha (Sim w) ->
  at_rest Length Mat N T0 (fst (after_body Call w cb tl dt theta))
  /\ RobinAlpha (Sim (fst (after_body Call w cb tl dt theta))) = RobinAlpha (Sim w).
Proof.
  intros (Hw & HM & HK & Hq & Hamb & HT & Hrec & Ht) Halpha.
  split; [|reflexivity].
  pose proof (after_body_well_shaped CB Call _ w cb tl dt theta Hw) as Hw'.
  destruct Hw as (Hn & HMl & HKl & HTl & _).
  assert (Hnew : load_array (S (length (arrays (heap w))))
                   (heap (fst (after_body Call w cb tl dt theta)))
                 = Arr (repeat T0 (Z.to_nat (N + 1)))).
  { unfold after_body, load_array. cbn [fst heap arrays].
    rewrite nth_app_second. fold (load_array (T (Sim w)) (heap w)).
    rewrite HM, HK, HT. now apply steady_state_solve. }
  unfold at_rest. cbv zeta.
  split; [exact Hw'|].
  unfold after_body in *. cbn [fst Sim heap with_t with_T_record with_T
                               M K T T_record t HeatFlux T_amb arrays matrices] in *.
  unfold load_matrix in *. cbn [matrices] in *.
  rewrite !(nth_app_old _ _ [_]) by assumption.
  repeat split; try assumption.
  - apply Forall_app. split.
    + eapply Forall_impl; [|exact Hrec]. cbv beta. intros l [Hl Hload].
      split; [rewrite length_app; lia|].
      unfold load_array in *. cbn [arrays]. now rewrite nth_app_old.
    + constructor; [|constructor]. split; [|exact Hnew].
      rewrite length_app. simpl. lia.
  - intros E. now apply app_eq_nil in E as [_ E].
Qed.

Lemma while_at_rest (t_stop : Qc) (fuel : nat) :
  forall (w : world) (cb : option CB),
    at_rest Length Mat N T0 w -> 0 <= RobinAlpha (Sim w) ->
    exists exited w' cb',
      while_ fuel (@ForwardSimulation_cond CB t_stop)
        (ForwardSimulation_body Call theta dt) (w, cb)
      = Ok (exited, (w', cb'))
      /\ at_rest Length Mat N T0 w'.
Proof.
  induction fuel as [|fuel IH]; intros w cb Hrest Halpha.
  - exists false, w, cb. split; [reflexivity|exact Hrest].
  - cbn [while_]. unfold bind.
    destruct Hrest as (Hw & Hrest'). pose proof (conj Hw Hrest') as Hrest.
    destruct Hrest' as (_ & _ & _ & _ & _ & _ & Ht).
    destruct (nonempty_last _ Ht) as (ts & tl & Hts).
    assert (Htl : list_item (t (Sim w)) (-1) = Ok tl)
      by (rewrite Hts; apply list_item_last).
    rewrite (ForwardSimulation_cond_run CB w cb tl) by exact Htl.
    destruct (Qclt_le_dec tl t_stop) as [Hlt|Hge].
    + rewrite (ForwardSimulation_body_run CB Call _ w cb tl dt theta Hw Htl).
      destruct (after_body_at_rest w cb tl Hrest Halpha) as [Hrest1 Ha1].
      destruct (after_body Call w cb tl dt theta) as [w1 cb1]. cbn [fst] in *.
      apply IH; [exact Hrest1|now rewrite Ha1].
    + exists true, w, cb. split; [reflexivity|exact Hrest].
Qed.

End SteadyRun.

Section SteadyTheorem.
Import NumericalForward.

Lemma Simulation_init_at_rest (Length : Qc) (Mat : Material) (N : Z)
    (q amb : Qc -> Qc) (alpha T0 t_start : Qc) (h : store) :
  (1 <= N)%Z -> Length <> 0 ->
  (forall tau, q tau = 0) -> (forall tau, amb tau = T0) ->
  exists sim h0,
    Simulation_init Length Mat N q amb alpha h = Ok (sim, h0)
    /\ RobinAlpha sim = alpha
    /\ at_rest Length Mat N T0 (before_loop {| Sim := sim; heap := h0 |} T0 t_start).
Proof.
  intros HN HL Hq Hamb.
  eexists. eexists. split; [now apply Simulation_init_run|].
  split; [reflexivity|].
  set (n := Z.to_nat (N + 1)).
  assert (Hw : well_shaped n
                 {| Sim := {| L := Length; Mat := Mat; N := N;
                              T := length (arrays h); T_record := [];
                              HeatFlux := q; RobinAlpha := alpha; T_amb := amb;
                              t := []; dx := Length / qz N;
                              x := S (length (arrays h));
                              M := length (matrices h);
                              K := S (length (matrices h)) |};
                    heap := {| arrays := arrays h ++
                                 [Arr (repeat 0 n);
                                  Arr (map (fun i => 0 + qn i * ((Length - 0) / qz (N + 1 - 1)))
                                         (seq 0 n))];
                               matrices := matrices h ++
                                 [assembled_M Length Mat N; assembled_K Length Mat N] |} |}).
  { unfold well_shaped, load_matrix, load_array.
    cbn [Sim heap M K T arrays matrices].
    rewrite !length_app, nth_app_first, nth_app_second, nth_app_first.
    cbn [length arr_len]. rewrite repeat_length.
    repeat split; try (unfold n; lia);
      try apply assembled_M_square; try apply assembled_K_square. }
  pose proof (before_loop_well_shaped n _ T0 t_start Hw) as Hw0.
  unfold at_rest. cbv zeta. fold n. split; [exact Hw0|].
  unfold before_loop, load_matrix, load_array, store_array.
  cbn [Sim heap M K T T_record t HeatFlux T_amb with_T_record with_t arrays matrices].
  rewrite nth_app_first, nth_app_second.
  assert (HT : nth (length (arrays h))
                 (update_at (length (arrays h))
                    (fun a => Arr (repeat T0 (arr_len a)))
                    (arrays h ++ [Arr (repeat 0 n); Arr (map (fun i => 0 + qn i * ((Length - 0) / qz (N + 1 - 1))) (seq 0 n))]))
                 (Arr [])
               = Arr (repeat T0 n)).
  { rewrite nth_update_at_same by (rewrite length_app; simpl; lia).
    rewrite nth_app_first. cbn [arr_len]. now rewrite repeat_length. }
  repeat split; auto.
  - constructor; [|constructor]. split; [|exact HT].
    rewrite update_at_length, length_app. simpl. lia.
  - discriminate.
Qed.

Variable CB : Type.
Variable Call : CB -> world -> CB.

(** C2 (amended).  For a valid mesh ([N >= 1], [Length > 0]), positive
    [rho], [cp], [lmbd], [RobinAlpha >= 0], [dt > 0], [theta] in [0, 1], a
    heat flux that is zero everywhere and an ambient temperature that is
    [T0] everywhere: the constructor succeeds, [ForwardSimulation] starts
    from the uniform vector [T0], one step from it returns the same
    uniform vector, and after any number of iterations of the loop the
    current temperature and every recorded temperature are that uniform
    vector. *)
Theorem uniform_temperature_stays_uniform
    (Length : Qc) (Mat : Material) (N : Z) (q amb : Qc -> Qc)
    (alpha dt theta T0 t_start t_stop : Qc) (h : store) (cb : option CB) :
  (1 <= N)%Z -> 0 < Length ->
  0 < rho Mat -> 0 < cp Mat -> 0 < lmbd Mat ->
  0 <= alpha ->
  0 < dt -> 0 <= theta -> theta <= 1 ->
  (forall tau, q tau = 0) -> (forall tau, amb tau = T0) ->
  exists sim h0,
    Simulation_init Length Mat N q amb alpha h = Ok (sim, h0)
    /\ let uniform := Arr (repeat T0 (Z.to_nat (N + 1))) in
       let w0 := before_loop {| Sim := sim; heap := h0 |} T0 t_start in
       load_array (T (Sim w0)) (heap w0) = uniform
       /\ (exists l w',
             EvaluateNewStep dt theta w0 = Ok (l, w')
             /\ load_array l (heap w') = uniform)
       /\ forall fuel,
            exists exited w' cb',
              ForwardSimulation Call fuel theta T0 dt t_start t_stop
                ({| Sim := sim; heap := h0 |}, cb)
              = Ok (exited, (w', cb'))
              /\ load_array (T (Sim w')) (heap w') = uniform
              /\ Forall (fun l => load_array l (heap w') = uniform)
                   (T_record (Sim w')).
Proof.
  intros HN HL Hrho Hcp Hlmbd Halpha Hdt Htheta _ Hq Hamb.
  assert (HL0 : Length <> 0) by now apply Qclt_neq_0.
  destruct (Simulation_init_at_rest Length Mat N q amb alpha T0 t_start h HN HL0 Hq Hamb)
    as (sim & h0 & Hinit & Ha & Hrest).
  exists sim, h0. split; [exact Hinit|]. cbv zeta.
  assert (Ha0 : 0 <= RobinAlpha (Sim (before_loop {| Sim := sim; heap := h0 |} T0 t_start)))
    by (cbn; now rewrite Ha).
  split; [apply Hrest|]. split.
  - now apply (at_rest_step Length Mat N dt theta T0).
  - intros fuel. rewrite ForwardSimulation_unfold.
    destruct (while_at_rest Length Mat N dt theta T0 HN HL Hrho Hcp Hlmbd Hdt Htheta
                CB Call t_stop fuel _ cb Hrest Ha0)
      as (exited & w' & cb' & Hrun & Hrest').
    exists exited, w', cb'. split; [exact Hrun|].
    destruct Hrest' as (_ & _ & _ & _ & _ & HT & Hrec & _).
    split; [exact HT|].
    eapply Forall_impl; [|exact Hrec]. cbv beta. tauto.
Qed.

End SteadyTheorem.

(** ** Examples *)

Section Examples.
Import NumericalForward.
Local Open Scope string_scope.
Local Open Scope list_scope.


(** C2 fails for a negative [RobinAlpha]: with positive material
    properties, zero heat flux, ambient temperature 21, [dt = 1] and
    [theta = 1], the step from the uniform vector 21 meets a singular matrix
    and returns a [nan] array. *)
Lemma negative_RobinAlpha_breaks_steady_state :
  0 < rho (Mat (Sim singular_world))
  /\ 0 < cp (Mat (Sim singular_world))
  /\ 0 < lmbd (Mat (Sim singular_world))
  /\ (forall tau, HeatFlux (Sim singular_world) tau = 0)
  /\ (forall tau, T_amb (Sim singular_world) tau = qz 21)
  /\ load_array (T (Sim (before_loop singular_world (qz 21) 0)))
       (heap (before_loop singular_world (qz 21) 0))
     = Arr [qz 21; qz 21]
  /\ exists l w',
       EvaluateNewStep 1 1 (before_loop singular_world (qz 21) 0) = Ok (l, w')
       /\ load_array l (heap w') = NaNArr 2
       /\ load_array l (heap w') <> Arr [qz 21; qz 21].
Proof.
  split; [reflexivity|]. split; [reflexivity|]. split; [reflexivity|].
  split; [intros; reflexivity|]. split; [intros; reflexivity|].
  split; [vm_compute; reflexivity|].
  eexists. eexists. split; [vm_compute; reflexivity|].
  split; [vm_compute; reflexivity|].
  vm_compute. discriminate.
Qed.

(** The state of rest of C2 on the two-element example. *)
Lemma uniform_temperature_stays_uniform_witness :
  exists sim h0,
    Simulation_init 1 {| rho := qz 6; cp := 1; lmbd := 1 |} 2
      (fun _ => 0) (fun _ => qz 21) (qz 5) empty_store = Ok (sim, h0)
    /\ exists l w',
         EvaluateNewStep 1 (Q2Qc (1 # 2))
           (before_loop {| Sim := sim; heap := h0 |} (qz 21) 0) = Ok (l, w')
         /\ load_array l (heap w') = Arr (repeat (qz 21) 3).
Proof.
  destruct (uniform_temperature_stays_uniform unit (fun c _ => c)
              1 {| rho := qz 6; cp := 1; lmbd := 1 |} 2
              (fun _ => 0) (fun _ => qz 21) (qz 5) 1 (Q2Qc (1 # 2)) (qz 21) 0 (qz 3)
              empty_store None)
    as (sim & h0 & Hinit & _ & Hstep & _).
  - lia.
  - reflexivity.
  - reflexivity.
  - reflexivity.
  - reflexivity.
  - vm_compute. discriminate.
  - reflexivity.
  - vm_compute. discriminate.
  - vm_compute. discriminate.
  - intros; reflexivity.
  - intros; reflexivity.
  - exists sim, h0. split; [exact Hinit|exact Hstep].
Defined.

(** The halved boundary entries of C3 for ten elements of steel. *)
Lemma stiffness_boundary_entries_halved_witness :
  exists sim h',
    Simulation_init 1 Steel 10 (fun _ => 0) Default_AmbientTemperature (qz 10)
      empty_store = Ok (sim, h')
    /\ entry (load_matrix (K sim) h') 0 0 = qz 2 * lmbd Steel / (1 / qz 10) / qz 2
    /\ entry (load_matrix (K sim) h') 10 10 = qz 2 * lmbd Steel / (1 / qz 10) / qz 2.
Proof.
  destruct (stiffness_boundary_entries_halved 1 Steel 10 (fun _ => 0)
              Default_AmbientTemperature (qz 10) empty_store)
    as (sim & h' & Hinit & _ & _ & H0 & _ & HN & _).
  - lia.
  - reflexivity.
  - reflexivity.
  - reflexivity.
  - reflexivity.
  - exists sim, h'. split; [exact Hinit|]. split; [exact H0|exact HN].
Defined.

(** C4 fails for a negative length: the mesh is invalid ([Length <= 0]),
    and the constructor succeeds. *)
Lemma negative_length_is_accepted :
  ~ (0 < - (1)) /\
  exists sim h',
    Simulation_init (- (1)) Steel 10 (fun _ => 0) Default_AmbientTemperature (qz 10)
      empty_store = Ok (sim, h')
    /\ t sim = [].
Proof.
  split; [vm_compute; discriminate|].
  eexists. eexists. split; [vm_compute; reflexivity|reflexivity].
Qed.

(** C4 (amended) for a negative length and non-positive material
    properties. *)
Lemma assembly_fails_only_on_degenerate_mesh_witness :
  exists sim h',
    Simulation_init (- (1)) {| rho := - (1); cp := 0; lmbd := - (1) |} 10
      (fun _ => 0) Default_AmbientTemperature (qz 10) empty_store = Ok (sim, h')
    /\ t sim = [].
Proof.
  apply (assembly_fails_only_on_degenerate_mesh (- (1))
           {| rho := - (1); cp := 0; lmbd := - (1) |} 10
           (fun _ => 0) Default_AmbientTemperature (qz 10) empty_store).
  - lia.
  - vm_compute. discriminate.
Defined.

(** C5 fails on a singular step matrix: the kernel of the matrix contains
    [(0, 1)], and the step returns (a [nan] array) instead of raising. *)
Lemma singular_system_is_returned_not_raised :
  ~ nonsingular 2
      (step_matrix
         (load_matrix (M (Sim singular_world)) (heap singular_world))
         (load_matrix (K (Sim singular_world)) (heap singular_world))
         (RobinAlpha (Sim singular_world)) 1 1)
  /\ exists l w',
       EvaluateNewStep 1 1 (before_loop singular_world (qz 21) 0) = Ok (l, w')
       /\ load_array l (heap w') = NaNArr 2.
Proof.
  split.
  - intros H. specialize (H [0; 1] eq_refl).
    assert (E : [0; 1] = repeat 0 2).
    { apply H. apply (nth_ext _ _ 0 0); [reflexivity|].
      intros [|[|i]] Hi; try (simpl in Hi; lia); apply Qc_is_canon; vm_compute; reflexivity. }
    apply (f_equal (fun l => nth 1 l 0)) in E. simpl in E.
    now apply Q_apart_0_1 in E.
  - eexists. eexists. split; vm_compute; reflexivity.
Qed.

(** C5 (amended) on the two-element example. *)
Lemma EvaluateNewStep_returns_solver_result_witness :
  exists l w',
    EvaluateNewStep 1 (Q2Qc (1 # 2)) (before_loop example_world (qz 21) 0)
    = Ok (l, w')
    /\ Sim w' = Sim (before_loop example_world (qz 21) 0)
    /\ exists x, load_array l (heap w') = Arr x /\ length x = 3%nat.
Proof.
  destruct (EvaluateNewStep_returns_solver_result 3
              (before_loop example_world (qz 21) 0) 1 (Q2Qc (1 # 2)) 0)
    as (l & w' & H1 & H2 & H3 & _).
  - unfold well_shaped, square. vm_compute.
    repeat split; try lia; repeat constructor.
  - vm_compute. reflexivity.
  - exists l, w'. split; [exact H1|]. split; [exact H2|].
    rewrite H3. eexists. split; vm_compute; reflexivity.
Defined.


(** The determinism of C9 on the two-element example. *)
Lemma EvaluateNewStep_leaves_simulation_unchanged_witness :
  exists l l2 w' w2',
    EvaluateNewStep 1 (Q2Qc (1 # 2)) (before_loop example_world (qz 21) 0)
    = Ok (l, w')
    /\ EvaluateNewStep 1 (Q2Qc (1 # 2)) (before_loop example_world (qz 21) 0)
       = Ok (l2, w2')
    /\ load_array l2 (heap w2') = load_array l (heap w').
Proof.
  destruct (EvaluateNewStep_leaves_simulation_unchanged
              (before_loop example_world (qz 21) 0) 1 (Q2Qc (1 # 2))) as [_ H].
  apply (H 3%nat (before_loop example_world (qz 21) 0) 0).
  - unfold well_shaped, square. vm_compute.
    repeat split; try lia; repeat constructor.
  - unfold well_shaped, square. vm_compute.
    repeat split; try lia; repeat constructor.
  - reflexivity.
  - reflexivity.
  - reflexivity.
  - vm_compute. reflexivity.
  - vm_compute. reflexivity.
  - reflexivity.
  - reflexivity.
  - reflexivity.
  - reflexivity.
  - reflexivity.
Defined.


End Examples.

Section ControllerExamples.
Import Utilities.
Local Open Scope string_scope.
Local Open Scope list_scope.

(** C6 on the example run: [stop] arrives after one committed step. *)
Lemma stop_truncates_history_witness :
  exists self' e self'',
    controller_loop example_current_t example_finished example_step 7
      example_schedule example_controller = (STOPPED, self')
    /\ Sim self' = [0; 0]
    /\ steps self' = 1%nat
    /\ simulation_state (MyCallBack self') = "stopped"
    /\ complete_simulation example_current_t example_finished example_step
         example_error 7 example_schedule example_controller
       = Some (STOPPED, e, self'')
    /\ simulation_state (MyCallBack self'') = "stopped".
Proof.
  destruct (@stop_truncates_history (list Qc) example_current_t example_finished
              example_step example_error Qc (fun s => s)
              (fun s => eq_trans (length_app s [0]) (Nat.add_comm _ _))
              example_schedule example_controller
              (snd (controller_loop example_current_t example_finished
                      example_step 1 example_schedule example_controller))
              1 1 [] eq_refl eq_refl)
    with (fuel := 7%nat)
    as (self' & e & self'' & H1 & H2 & H3 & H4 & H5 & H6 & H7 & H8 & H9 & H10).
  - vm_compute. reflexivity.
  - vm_compute. reflexivity.
  - vm_compute. reflexivity.
  - vm_compute. reflexivity.
  - lia.
  - exists self', e, self''. split; [exact H1|].
    split; [rewrite H2; vm_compute; reflexivity|].
    split; [exact H3|]. split; [exact H5|]. split; [exact H7|].
    apply H10. reflexivity.
Defined.

(** C7 on a queue holding [pause] and [stop]: one iteration takes
    [pause] and leaves [stop]. *)
Lemma loop_iteration_consumes_at_most_one_message_witness :
  calls (snd (loop_body example_current_t example_step
                (fun _ => ["pause"; "stop"]) example_controller)) = 1%nat
  /\ queue (MyCallBack (snd (loop_body example_current_t example_step
                               (fun _ => ["pause"; "stop"]) example_controller)))
     = Some ["stop"]
  /\ simulation_state
       (MyCallBack (snd (loop_body example_current_t example_step
                           (fun _ => ["pause"; "stop"]) example_controller)))
     = "paused".
Proof.
  destruct (@loop_iteration_consumes_at_most_one_message (list Qc)
              example_current_t example_step
              (fun _ => ["pause"; "stop"]) example_controller)
    as (H1 & H2 & H3 & _).
  split; [exact H1|]. split; [exact H2|]. exact (H3 eq_refl).
Defined.

(** What C6 leaves open: a message that is still in the queue after [stop]
    is taken by the final forced call of the callback, which changes the
    state of the callback once the loop has been left. *)
Example message_left_after_stop :
  match complete_simulation example_current_t example_finished example_step
          example_error 7
          (fun n => if (n =? 1)%nat then ["stop"; "continue"] else [])
          example_controller with
  | Some (ex, _, self) =>
      ex = STOPPED /\ Sim self = [0; 0]
      /\ simulation_state (MyCallBack self) = "running"
  | None => False
  end.
Proof. vm_compute. repeat split; reflexivity. Qed.

End ControllerExamples.

(** * Further properties of the code *)

(** ** The forward loop under an invariant *)

Section LoopInvariant.
Import NumericalForward.

Variable CB : Type.
Variable Call : CB -> world -> CB.

(** A property of the states of the loop that every iteration keeps holds
    when the loop is left, and whenever it is interrupted. *)
Lemma while_invariant (n : nat) (theta dt t_stop : Qc)
    (I : world -> option CB -> Prop) :
  (forall w cb, I w cb -> well_shaped n w /\ t (Sim w) <> []) ->
  (forall w cb tl, I w cb -> list_item (t (Sim w)) (-1) = Ok tl -> tl < t_stop ->
     I (fst (after_body Call w cb tl dt theta))
       (snd (after_body Call w cb tl dt theta))) ->
  forall fuel w cb, I w cb ->
    exists exited w' cb',
      while_ fuel (@ForwardSimulation_cond CB t_stop)
        (ForwardSimulation_body Call theta dt) (w, cb)
      = Ok (exited, (w', cb'))
      /\ I w' cb'
      /\ (exited = true ->
          exists tl, list_item (t (Sim w')) (-1) = Ok tl /\ t_stop <= tl).
Proof.
  intros Hshape Hstep.
  induction fuel as [|fuel IH]; intros w cb HI.
  - exists false, w, cb. split; [reflexivity|]. split; [exact HI|discriminate].
  - cbn [while_]. unfold bind.
    destruct (Hshape w cb HI) as [Hw Ht].
    destruct (nonempty_last _ Ht) as (ts & tl & Hts).
    assert (Htl : list_item (t (Sim w)) (-1) = Ok tl)
      by (rewrite Hts; apply list_item_last).
    rewrite (ForwardSimulation_cond_run CB w cb tl) by exact Htl.
    destruct (Qclt_le_dec tl t_stop) as [Hlt|Hge].
    + rewrite (ForwardSimulation_body_run CB Call n w cb tl dt theta Hw Htl).
      specialize (Hstep w cb tl HI Htl Hlt).
      destruct (after_body Call w cb tl dt theta) as [w1 cb1]. cbn [fst snd] in Hstep.
      now apply IH.
    + exists true, w, cb. split; [reflexivity|]. split; [exact HI|].
      intros _. exists tl. split; [exact Htl|exact Hge].
Qed.

End LoopInvariant.

(** ** The state in which the loop starts *)

Section Started.
Import NumericalForward.

(** The store after [Simulation.__init__]. *)
Lemma Simulation_init_assembled (Length : Qc) (Mat : Material) (N : Z)
    (q amb : Qc -> Qc) (alpha : Qc) (h : store) :
  (1 <= N)%Z -> Length <> 0 ->
  exists sim h0,
    Simulation_init Length Mat N q amb alpha h = Ok (sim, h0)
    /\ assembled Length Mat N {| Sim := sim; heap := h0 |}
    /\ HeatFlux sim = q /\ T_amb sim = amb /\ RobinAlpha sim = alpha
    /\ t sim = [] /\ T_record sim = []
    /\ T sim = length (arrays h) /\ x sim = S (length (arrays h))
    /\ dx sim = Length / qz N
    /\ arrays h0
       = arrays h ++ [Arr (repeat 0 (Z.to_nat (N + 1)));
                      Arr (map (fun i => qn i * (Length / qz N))
                             (seq 0 (Z.to_nat (N + 1))))].
Proof.
  intros HN HL.
  eexists. eexists. split; [now apply Simulation_init_run|].
  set (n := Z.to_nat (N + 1)).
  cbn [HeatFlux T_amb RobinAlpha t T_record T x dx].
  split; [|repeat split; try reflexivity].
  - unfold assembled, well_shaped, load_matrix, load_array.
    cbn [Sim heap M K T arrays matrices].
    rewrite !length_app, nth_app_first, nth_app_second, nth_app_first.
    cbn [length arr_len]. rewrite repeat_length. fold n.
    repeat split; try (unfold n; lia);
      try apply assembled_M_square; try apply assembled_K_square.
  - cbn [arrays]. do 4 f_equal. apply map_ext. intros i.
    replace (N + 1 - 1)%Z with N by lia. unfold Qcdiv. ring.
Qed.

End Started.

(** ** Temperatures stay finite on physical inputs *)

Section FiniteRun.
Import NumericalForward.

Variables (Length : Qc) (Mat : Material) (N : Z).
Variables (dt theta : Qc).
Hypothesis HN : (1 <= N)%Z.
Hypothesis HL : 0 < Length.
Hypothesis Hrho : 0 < rho Mat.
Hypothesis Hcp : 0 < cp Mat.
Hypothesis Hlmbd : 0 < lmbd Mat.
Hypothesis Hdt : 0 < dt.
Hypothesis Htheta : 0 <= theta.

Variable CB : Type.
Variable Call : CB -> world -> CB.

Let n := Z.to_nat (N + 1).

(** On physical inputs the solve of one step has a finite answer. *)
Lemma step_solution_finite (Tv : vector) (q amb : Qc -> Qc) (alpha tl : Qc) :
  0 <= alpha -> length Tv = n ->
  finite_array n
    (spsolve (step_matrix (assembled_M Length Mat N) (assembled_K Length Mat N)
                alpha dt theta)
       (step_rhs (assembled_M Length Mat N) (assembled_K Length Mat N) (Arr Tv)
          q amb alpha tl dt theta)).
Proof.
  intros Halpha HT.
  assert (Hn1 : (1 <= n)%nat) by (unfold n; lia).
  destruct (step_rhs_finite n _ _ Tv q amb alpha tl dt theta Hn1
              (assembled_M_square Length Mat N) (assembled_K_square Length Mat N) HT)
    as (b & Hb & Hblen & _).
  rewrite Hb.
  destruct (spsolve_spec n _ b
              (steady_A_square Length Mat N alpha dt theta) Hblen)
    as (Hsome & Hns & _).
  destruct (Hns (steady_A_nonsingular Length Mat N alpha dt theta
                   HN HL Hrho Hcp Hlmbd Hdt Htheta Halpha)) as [x Hx].
  exists x. split; [exact Hx|]. apply (Hsome x Hx).
Qed.

(** The states of a run with finite temperatures. *)
Let finite_run (w : world) (_ : option CB) : Prop :=
  assembled Length Mat N w
  /\ 0 <= RobinAlpha (Sim w)
  /\ t (Sim w) <> []
  /\ finite_array n (load_array (T (Sim w)) (heap w))
  /\ Forall (fun l => (l < length (arrays (heap w)))%nat
                      /\ finite_array n (load_array l (heap w)))
       (T_record (Sim w)).

Lemma after_body_assembled (w : world) (cb : option CB) (tl : Qc) :
  assembled Length Mat N w ->
  assembled Length Mat N (fst (after_body Call w cb tl dt theta)).
Proof.
  intros (Hw & HM & HK).
  pose proof (after_body_well_shaped CB Call _ w cb tl dt theta Hw) as Hw'.
  destruct Hw as (_ & HMl & HKl & _).
  split; [exact Hw'|].
  unfold after_body, load_matrix in *.
  cbn [fst Sim heap with_t with_T_record with_T M K matrices] in *.
  rewrite !(nth_app_old _ _ [_]) by assumption. auto.
Qed.

Lemma after_body_finite_run (w : world) (cb : option CB) (tl : Qc) :
  finite_run w cb ->
  finite_run (fst (after_body Call w cb tl dt theta))
    (snd (after_body Call w cb tl dt theta)).
Proof.
  intros (Ha & Halpha & Ht & (Tv & HT & HTlen) & Hrec).
  pose proof (after_body_assembled w cb tl Ha) as Ha'.
  destruct Ha as (Hw & HM & HK).
  assert (Hnew : finite_array n
                   (load_array (S (length (arrays (heap w))))
                      (heap (fst (after_body Call w cb tl dt theta))))).
  { unfold after_body, load_array. cbn [fst heap arrays].
    rewrite nth_app_second. fold (load_array (T (Sim w)) (heap w)).
    rewrite HM, HK, HT. now apply step_solution_finite. }
  unfold finite_run. split; [exact Ha'|].
  unfold after_body in *.
  cbn [fst snd Sim heap with_t with_T_record with_T T T_record t RobinAlpha
       arrays] in *.
  split; [exact Halpha|]. split.
  { intros E. now apply app_eq_nil in E as [_ E]. }
  split; [exact Hnew|].
  apply Forall_app. split.
  - eapply Forall_impl; [|exact Hrec]. cbv beta. intros l [Hl Hload].
    split; [rewrite length_app; lia|].
    unfold load_array in *. cbn [arrays]. now rewrite nth_app_old.
  - constructor; [|constructor]. split; [|exact Hnew].
    rewrite length_app. simpl. lia.
Qed.

Lemma before_loop_finite_run (sim : Simulation) (h0 : store) (cb : option CB)
    (T0 t_start : Qc) :
  assembled Length Mat N {| Sim := sim; heap := h0 |} ->
  0 <= RobinAlpha sim -> T_record sim = [] ->
  finite_run (before_loop {| Sim := sim; heap := h0 |} T0 t_start) cb.
Proof.
  intros (Hw & HM & HK) Halpha Hrec.
  pose proof (before_loop_well_shaped n _ T0 t_start Hw) as Hw0.
  destruct Hw as (_ & _ & _ & HTl & _ & _ & HTlen).
  cbn [Sim heap] in *.
  assert (HT : load_array (T sim)
                 (store_array (T sim) (fun a => Arr (repeat T0 (arr_len a))) h0)
               = Arr (repeat T0 n)).
  { unfold load_array, store_array. cbn [arrays].
    rewrite nth_update_at_same by exact HTl.
    fold (load_array (T sim) h0). now rewrite HTlen. }
  unfold finite_run. split; [split; [exact Hw0|]|].
  { unfold before_loop, load_matrix, store_array.
    cbn [Sim heap with_t with_T_record M K matrices]. auto. }
  unfold before_loop.
  cbn [Sim heap with_t with_T_record T T_record t RobinAlpha].
  rewrite Hrec, HT. cbn [app].
  assert (Hfin : finite_array n (Arr (repeat T0 n)))
    by (eexists; split; [reflexivity|apply repeat_length]).
  split; [exact Halpha|]. split; [destruct (t sim); discriminate|].
  split; [exact Hfin|].
  constructor; [|constructor]. rewrite HT. split; [|exact Hfin].
  unfold store_array. cbn [arrays]. now rewrite update_at_length.
Qed.

(** X1.  On a valid mesh, with positive material properties, a non-negative
    [RobinAlpha], [dt > 0] and [theta >= 0], whatever the heat flux, the
    ambient temperature and the initial temperature: a simulation built
    by [Simulation] and run by [ForwardSimulation] never raises, and after
    any number of iterations its current temperature and every
    temperature it has recorded are finite arrays of [N + 1] entries (no
    step ever meets a singular system). *)
Theorem forward_temperatures_stay_finite
    (q amb : Qc -> Qc) (alpha T0 t_start t_stop : Qc) (h : store)
    (cb : option CB) (fuel : nat) :
  0 <= alpha ->
  exists sim h0 exited w' cb',
    Simulation_init Length Mat N q amb alpha h = Ok (sim, h0)
    /\ ForwardSimulation Call fuel theta T0 dt t_start t_stop
         ({| Sim := sim; heap := h0 |}, cb)
       = Ok (exited, (w', cb'))
    /\ finite_array (Z.to_nat (N + 1)) (load_array (T (Sim w')) (heap w'))
    /\ Forall (fun l => finite_array (Z.to_nat (N + 1)) (load_array l (heap w')))
         (T_record (Sim w')).
Proof.
  intros Halpha.
  assert (HL0 : Length <> 0) by now apply Qclt_neq_0.
  destruct (Simulation_init_assembled Length Mat N q amb alpha h HN HL0)
    as (sim & h0 & Hinit & Ha & _ & _ & Hal & _ & Hrec & _).
  exists sim, h0.
  assert (Hstart : finite_run (before_loop {| Sim := sim; heap := h0 |} T0 t_start) cb).
  { apply before_loop_finite_run; [exact Ha|now rewrite Hal|exact Hrec]. }
  destruct (while_invariant CB Call n theta dt t_stop finite_run) with
    (fuel := fuel) (w := before_loop {| Sim := sim; heap := h0 |} T0 t_start) (cb := cb)
    as (exited & w' & cb' & Hrun & HI & _).
  - intros w c (Hasm & _ & Ht & _). split; [apply Hasm|exact Ht].
  - intros w c tl HI _ _. now apply after_body_finite_run.
  - exact Hstart.
  - exists exited, w', cb'. split; [exact Hinit|].
    split; [rewrite ForwardSimulation_unfold; exact Hrun|].
    destruct HI as (_ & _ & _ & HT & Hrec').
    split; [exact HT|].
    eapply Forall_impl; [|exact Hrec']. cbv beta. tauto.
Qed.

End FiniteRun.

(** ** A step that does not advance the time *)

Section NoProgress.
Import NumericalForward.

Variable CB : Type.
Variable Call : CB -> world -> CB.

(** X2.  With [dt <= 0] and [t_start < t_stop] the loop of [ForwardSimulation]
    is never left: whatever the number of iterations it is given, it is
    still running after them (and has raised nothing). *)
Theorem forward_simulation_needs_positive_dt
    (Length : Qc) (Mat : Material) (N : Z) (q amb : Qc -> Qc)
    (alpha theta T0 dt t_start t_stop : Qc) (h : store) (cb : option CB)
    (fuel : nat) :
  (1 <= N)%Z -> Length <> 0 ->
  dt <= 0 -> t_start < t_stop ->
  exists sim h0 w' cb',
    Simulation_init Length Mat N q amb alpha h = Ok (sim, h0)
    /\ ForwardSimulation Call fuel theta T0 dt t_start t_stop
         ({| Sim := sim; heap := h0 |}, cb)
       = Ok (false, (w', cb')).
Proof.
  intros HN HL Hdt Hlt.
  destruct (Simulation_init_assembled Length Mat N q amb alpha h HN HL)
    as (sim & h0 & Hinit & (Hw & _) & _ & _ & _ & Ht & _).
  exists sim, h0.
  set (n := Z.to_nat (N + 1)) in *.
  set (I := fun (w : world) (_ : option CB) =>
              well_shaped n w
              /\ exists ts tl, t (Sim w) = ts ++ [tl] /\ tl < t_stop).
  destruct (while_invariant CB Call n theta dt t_stop I) with
    (fuel := fuel) (w := before_loop {| Sim := sim; heap := h0 |} T0 t_start) (cb := cb)
    as (exited & w' & cb' & Hrun & HI & Hexit).
  - intros w c (Hw' & ts & tl & Hts & _). split; [exact Hw'|].
    rewrite Hts. intros E. now apply app_eq_nil in E as [_ E].
  - intros w c tl (Hw' & ts & tl' & Hts & Htl') Hlast _.
    rewrite Hts, list_item_last in Hlast. inversion Hlast; subst tl'.
    split; [now apply after_body_well_shaped|].
    exists (t (Sim w)), (tl + dt). split; [reflexivity|].
    clear - Hdt Htl'. qc_lra.
  - split; [now apply before_loop_well_shaped|].
    exists [], t_start. split; [|exact Hlt].
    unfold before_loop. cbn [Sim with_T_record with_t t]. now rewrite Ht.
  - exists w', cb'. split; [exact Hinit|].
    rewrite ForwardSimulation_unfold, Hrun.
    destruct exited; [|reflexivity].
    exfalso. destruct (Hexit eq_refl) as (tl & Hlast & Hge).
    destruct HI as (_ & ts & tl' & Hts & Htl').
    rewrite Hts, list_item_last in Hlast. inversion Hlast; subst tl'.
    exact (Qcle_not_lt _ _ Hge Htl').
Qed.

End NoProgress.

(** ** Sums over rows and columns *)

Section Sums.
Local Open Scope nat_scope.

Lemma total_sum (v : vector) :
  NumericalForward.total v = sum_n (fun i => nth i v 0%Qc) (length v).
Proof.
  unfold NumericalForward.total.
  induction v as [|a v IH] using rev_ind; [reflexivity|].
  rewrite fold_right_app, length_app. cbn [fold_right length].
  replace (length v + 1) with (S (length v)) by lia. cbn [sum_n].
  rewrite nth_app_last.
  rewrite (sum_n_ext _ (fun i => nth i v 0%Qc))
    by (intros i Hi; now rewrite app_nth1).
  rewrite <- IH. clear IH.
  induction v as [|b v IH]; cbn [fold_right]; [ring|].
  rewrite IH. ring.
Qed.

Lemma sum_n_swap (f : nat -> nat -> Qc) (m n : nat) :
  sum_n (fun i => sum_n (fun j => f i j) n) m
  = sum_n (fun j => sum_n (fun i => f i j) m) n.
Proof.
  induction m as [|m IH]; cbn [sum_n].
  - induction n as [|n IHn]; cbn [sum_n]; [reflexivity|].
    rewrite <- IHn. ring.
  - rewrite IH, <- sum_n_plus. reflexivity.
Qed.

Lemma sum_n_zero_fun (n : nat) : sum_n (fun _ => 0%Qc) n = 0%Qc.
Proof. induction n as [|n IH]; cbn [sum_n]; [reflexivity|]. rewrite IH. ring. Qed.

Lemma sum_n_minus (f g : nat -> Qc) (n : nat) :
  sum_n (fun j => (f j - g j)%Qc) n = (sum_n f n - sum_n g n)%Qc.
Proof.
  induction n as [|n IH]; cbn [sum_n]; [ring|]. rewrite IH. ring.
Qed.

(** The sum of the entries of [A x], column by column. *)
Lemma total_mat_vec (n : nat) (A : matrix) (x : vector) :
  square n A -> length x = n ->
  NumericalForward.total (mat_vec A x)
  = sum_n (fun j => (sum_n (fun i => entry A i j) n * nth j x 0)%Qc) n.
Proof.
  intros HA Hx.
  rewrite total_sum, mat_vec_length, (proj1 HA).
  rewrite (sum_n_ext _ (fun i => sum_n (fun j => (entry A i j * nth j x 0)%Qc) n))
    by (intros i Hi; now apply nth_mat_vec).
  rewrite sum_n_swap. apply sum_n_ext. intros j Hj.
  rewrite Qcmult_comm, <- sum_n_scale. apply sum_n_ext. intros i Hi. ring.
Qed.

End Sums.

(** ** The assembled matrices *)

Section Matrices.
Import NumericalForward.

Variables (Length : Qc) (Mat : Material) (N : Z).
Hypothesis HN : (1 <= N)%Z.

Let n := Z.to_nat (N + 1).

Lemma assembled_M_symmetric (i j : nat) :
  (i < n)%nat -> (j < n)%nat ->
  entry (assembled_M Length Mat N) i j = entry (assembled_M Length Mat N) j i.
Proof.
  intros Hi Hj. rewrite !assembled_M_entry by assumption.
  repeat match goal with
         | |- context [Nat.eqb ?a ?b] => destruct (Nat.eqb_spec a b)
         end; cbn [andb orb]; try lia; reflexivity.
Qed.

Lemma assembled_K_symmetric (i j : nat) :
  (i < n)%nat -> (j < n)%nat ->
  entry (assembled_K Length Mat N) i j = entry (assembled_K Length Mat N) j i.
Proof.
  intros Hi Hj. rewrite !assembled_K_entry by assumption.
  repeat match goal with
         | |- context [Nat.eqb ?a ?b] => destruct (Nat.eqb_spec a b)
         end; cbn [andb orb]; try lia; reflexivity.
Qed.

Lemma stiffness_column_sum (j : nat) :
  (j < n)%nat -> sum_n (fun i => entry (assembled_K Length Mat N) i j) n = 0.
Proof.
  intros Hj.
  rewrite (sum_n_ext _ (fun i => entry (assembled_K Length Mat N) j i))
    by (intros i Hi; now apply assembled_K_symmetric).
  now apply stiffness_row_sum.
Qed.

End Matrices.

(** ** The heat balance of one step *)

Section Balance.
Import NumericalForward.
Local Open Scope nat_scope.

Variables (n : nat) (Mv Kv : matrix).
Hypothesis Hn : 1 <= n.
Hypothesis HM : square n Mv.
Hypothesis HK : square n Kv.
Hypothesis HKcol : forall j, j < n -> sum_n (fun i => entry Kv i j) n = 0%Qc.

Lemma last_term (c : Qc) (v : vector) :
  sum_n (fun j => ((if j =? n - 1 then c else 0) * nth j v 0)%Qc) n
  = (c * nth (n - 1) v 0)%Qc.
Proof.
  rewrite (sum_n_ext _ (fun j => if j =? n - 1 then (c * nth (n - 1) v 0)%Qc else 0%Qc)).
  - rewrite sum_n_single. destruct (Nat.ltb_spec (n - 1) n); [reflexivity|lia].
  - intros j _. destruct (Nat.eqb_spec j (n - 1)) as [->|_]; ring.
Qed.

Lemma first_term (c : Qc) :
  sum_n (fun i => if i =? 0 then c else 0%Qc) n = c.
Proof.
  rewrite sum_n_single. destruct (Nat.ltb_spec 0 n); [reflexivity|lia].
Qed.

Lemma last_indicator (c : Qc) :
  sum_n (fun i => if i =? n - 1 then c else 0%Qc) n = c.
Proof.
  rewrite sum_n_single. destruct (Nat.ltb_spec (n - 1) n); [reflexivity|lia].
Qed.

(** The entries of [A x] add up to the heat of [x] plus the implicit part
    of the convective loss. *)
Lemma total_step_matrix (alpha dt theta : Qc) (x : vector) :
  length x = n ->
  total (mat_vec (step_matrix Mv Kv alpha dt theta) x)
  = (total (mat_vec Mv x) + dt * theta * alpha * nth (n - 1) x 0)%Qc.
Proof.
  intros Hx.
  rewrite (total_mat_vec n) by (auto using step_matrix_square).
  rewrite (total_mat_vec n Mv) by assumption.
  rewrite <- last_term, <- sum_n_plus.
  apply sum_n_ext. intros j Hj.
  rewrite (sum_n_ext _ (fun i => (entry Mv i j
                                  + (dt * theta * entry Kv i j
                                     + (if i =? n - 1
                                        then (if j =? n - 1 then dt * theta * alpha else 0)
                                        else 0)))%Qc)).
  - rewrite !sum_n_plus, sum_n_scale, HKcol, last_indicator by exact Hj. ring.
  - intros i Hi. rewrite (step_matrix_entry n) by assumption.
    destruct (i =? n - 1), (j =? n - 1); cbn [andb]; ring.
Qed.

(** The entries of the right-hand side add up to the heat of the previous
    temperatures plus what the boundaries contribute. *)
Lemma total_step_rhs (Tv b : vector) (q amb : Qc -> Qc) (alpha tl dt theta : Qc) :
  length Tv = n ->
  step_rhs Mv Kv (Arr Tv) q amb alpha tl dt theta = Arr b ->
  total b
  = (total (mat_vec Mv Tv)
     + (dt * (1 - theta) * q tl + dt * theta * q (tl + dt))
     + (- (dt * (1 - theta) * alpha * nth (n - 1) Tv 0)
        + dt * (1 - theta) * alpha * amb tl
        + dt * theta * alpha * amb (tl + dt)))%Qc.
Proof.
  intros HT Hb.
  destruct (step_rhs_finite n Mv Kv Tv q amb alpha tl dt theta Hn HM HK HT)
    as (b' & Hb' & Hblen & Hbi).
  rewrite Hb in Hb'. inversion Hb'; subst b'. clear Hb'.
  rewrite total_sum, Hblen.
  rewrite (sum_n_ext _ _ n Hbi), !sum_n_plus, first_term, last_indicator.
  f_equal. f_equal.
  rewrite (total_mat_vec n Mv) by assumption.
  rewrite sum_n_swap. apply sum_n_ext. intros j Hj.
  rewrite (sum_n_ext _ (fun i => (nth j Tv 0 * entry Mv i j
                                  - dt * (1 - theta) * nth j Tv 0 * entry Kv i j)%Qc))
    by (intros i _; ring).
  rewrite sum_n_minus, !sum_n_scale, HKcol by exact Hj. ring.
Qed.

End Balance.

Section StepBalance.
Import NumericalForward.

(** What a finite result of [EvaluateNewStep] satisfies. *)
Lemma EvaluateNewStep_finite_result (n : nat) (w w' : world) (dt theta tl : Qc)
    (Tv x : vector) (l : loc) :
  well_shaped n w ->
  load_array (T (Sim w)) (heap w) = Arr Tv ->
  list_item (t (Sim w)) (-1) = Ok tl ->
  EvaluateNewStep dt theta w = Ok (l, w') ->
  load_array l (heap w') = Arr x ->
  let Mv := load_matrix (M (Sim w)) (heap w) in
  let Kv := load_matrix (K (Sim w)) (heap w) in
  let A := step_matrix Mv Kv (RobinAlpha (Sim w)) dt theta in
  exists b : vector,
    step_rhs Mv Kv (Arr Tv) (HeatFlux (Sim w)) (T_amb (Sim w)) (RobinAlpha (Sim w))
      tl dt theta = Arr b
    /\ length Tv = n /\ length x = n /\ length b = n
    /\ spsolve A (Arr b) = Arr x
    /\ mat_vec A x = b
    /\ (forall y, length y = n -> mat_vec A y = b -> y = x).
Proof.
  intros Hw HT Htl Hrun Hx. cbv zeta.
  pose proof (EvaluateNewStep_run n w dt theta tl Hw Htl) as Hrun'. cbv zeta in Hrun'.
  rewrite Hrun in Hrun'. inversion Hrun'; subst l w'. clear Hrun'.
  unfold load_array at 1 in Hx. cbn [heap arrays] in Hx.
  rewrite nth_app_second in Hx.
  destruct Hw as (Hn & _ & _ & _ & HMs & HKs & HTl).
  rewrite HT in HTl. cbn [arr_len] in HTl.
  rewrite HT in Hx.
  destruct (step_rhs_finite n _ _ Tv (HeatFlux (Sim w)) (T_amb (Sim w))
              (RobinAlpha (Sim w)) tl dt theta Hn HMs HKs HTl)
    as (b & Hb & Hblen & _).
  exists b. split; [exact Hb|]. rewrite Hb in Hx.
  destruct (spsolve_spec n _ b
              (step_matrix_square n _ _ (RobinAlpha (Sim w)) dt theta HMs HKs) Hblen)
    as (Hsome & _ & _).
  destruct (Hsome x Hx) as (Hxlen & Hmv & Huniq).
  repeat split; assumption.
Qed.

(** X3.  The heat balance of one step.  On a simulation with assembled
    matrices ([N >= 1]) and finite temperatures [Tv] at time [tl], whenever
    [EvaluateNewStep] returns a finite array [x]: the heat of [x] minus the
    heat of [Tv] (the entries of [M x], resp. [M Tv], added up) is what the
    heat flux brings in during the step minus what the convection at the
    other end takes out, both weighted by [theta]:
    [dt * ((1 - theta) * q(tl) + theta * q(tl + dt))
     - dt * RobinAlpha * ((1 - theta) * (Tv[N] - T_amb(tl))
                          + theta * (x[N] - T_amb(tl + dt)))].
    Conduction inside the wall moves heat and neither creates nor destroys
    it. *)
Theorem step_heat_balance
    (Length : Qc) (Mat : Material) (N : Z) (w w' : world) (dt theta tl : Qc)
    (Tv x : vector) (l : loc) :
  (1 <= N)%Z ->
  assembled Length Mat N w ->
  load_array (T (Sim w)) (heap w) = Arr Tv ->
  list_item (t (Sim w)) (-1) = Ok tl ->
  EvaluateNewStep dt theta w = Ok (l, w') ->
  load_array l (heap w') = Arr x ->
  let Mv := assembled_M Length Mat N in
  let q := HeatFlux (Sim w) in
  let amb := T_amb (Sim w) in
  let last := Z.to_nat N in
  total (mat_vec Mv x) - total (mat_vec Mv Tv)
  = dt * ((1 - theta) * q tl + theta * q (tl + dt))
    - dt * RobinAlpha (Sim w)
      * ((1 - theta) * (nth last Tv 0 - amb tl)
         + theta * (nth last x 0 - amb (tl + dt))).
Proof.
  intros HN (Hw & HM & HK) HT Htl Hrun Hx. cbv zeta.
  destruct (EvaluateNewStep_finite_result _ w w' dt theta tl Tv x l
              Hw HT Htl Hrun Hx)
    as (b & Hb & HTlen & Hxlen & Hblen & _ & Hmv & _).
  rewrite HM, HK in Hb, Hmv.
  set (n := Z.to_nat (N + 1)) in *.
  assert (Hn : (1 <= n)%nat) by (unfold n; lia).
  assert (HKcol : forall j, (j < n)%nat ->
            sum_n (fun i => entry (assembled_K Length Mat N) i j) n = 0)
    by (intros j Hj; now apply stiffness_column_sum).
  pose proof (total_step_matrix n _ _ Hn (assembled_M_square Length Mat N)
                (assembled_K_square Length Mat N) HKcol
                (RobinAlpha (Sim w)) dt theta x Hxlen) as HA.
  pose proof (total_step_rhs n _ _ Hn (assembled_M_square Length Mat N)
                (assembled_K_square Length Mat N) HKcol
                Tv b (HeatFlux (Sim w)) (T_amb (Sim w)) (RobinAlpha (Sim w))
                tl dt theta HTlen Hb) as Hrhs.
  rewrite Hmv, Hrhs in HA.
  replace (n - 1)%nat with (Z.to_nat N) in HA by (unfold n; lia).
  clear - HA.
  set (X := total (mat_vec (assembled_M Length Mat N) x)) in *.
  assert (E : X = X + dt * theta * RobinAlpha (Sim w) * nth (Z.to_nat N) x 0
                  - dt * theta * RobinAlpha (Sim w) * nth (Z.to_nat N) x 0) by ring.
  rewrite E, <- HA. ring.
Qed.

End StepBalance.

(** ** Adding a constant to every temperature *)

(** A system with one solution only has a nonsingular matrix. *)
Lemma unique_solution_nonsingular (n : nat) (A : matrix) (b x : vector) :
  square n A -> length x = n ->
  mat_vec A x = b ->
  (forall y, length y = n -> mat_vec A y = b -> y = x) ->
  nonsingular n A.
Proof.
  intros HA Hx Hmv Huniq y Hy Hker.
  assert (Hsum : vec_map2 Qcplus x y = x).
  { apply Huniq.
    - rewrite vec_map2_length. lia.
    - rewrite <- Hmv. unfold mat_vec.
      apply map_ext_in. intros r Hr.
      assert (Hrl : length r = n).
      { destruct HA as [_ HA]. rewrite Forall_forall in HA. now apply HA. }
      rewrite dot_add_r by congruence.
      assert (Hr0 : dot r y = 0).
      { assert (Hin : In (dot r y) (mat_vec A y))
          by (unfold mat_vec; apply (in_map (fun row => dot row y)); exact Hr).
        rewrite Hker in Hin. now apply repeat_spec in Hin. }
      rewrite Hr0. ring. }
  rewrite <- Hy. apply (vec_add_cancel x y); congruence.
Qed.


Section Offset.
Import NumericalForward.
Local Open Scope nat_scope.

Variables (n : nat) (Mv Kv : matrix).
Hypothesis Hn : 1 <= n.
Hypothesis HM : square n Mv.
Hypothesis HK : square n Kv.
Hypothesis HKrow : forall i, i < n -> sum_n (fun j => entry Kv i j) n = 0%Qc.

Lemma offset_length (c : Qc) (v : vector) : length (offset c v) = length v.
Proof. apply length_map. Qed.

Lemma nth_offset (c : Qc) (v : vector) (j : nat) :
  j < length v -> nth j (offset c v) 0%Qc = (nth j v 0 + c)%Qc.
Proof.
  intros Hj. unfold offset.
  rewrite (nth_indep _ 0%Qc ((fun a => (a + c)%Qc) 0%Qc)) by (now rewrite length_map).
  apply (map_nth (fun a => (a + c)%Qc)).
Qed.

(** The system of the step for temperatures and ambient temperatures
    that are all higher by [c] is solved by the solution raised by [c]. *)
Lemma step_system_offset (Tv x b b' : vector) (q amb amb' : Qc -> Qc)
    (alpha tl dt theta c : Qc) :
  length Tv = n -> length x = n ->
  (forall tau, amb' tau = (amb tau + c)%Qc) ->
  step_rhs Mv Kv (Arr Tv) q amb alpha tl dt theta = Arr b ->
  step_rhs Mv Kv (Arr (offset c Tv)) q amb' alpha tl dt theta = Arr b' ->
  mat_vec (step_matrix Mv Kv alpha dt theta) x = b ->
  mat_vec (step_matrix Mv Kv alpha dt theta) (offset c x) = b'.
Proof.
  intros HT Hx Hamb Hb Hb' Hmv.
  pose proof (step_matrix_square n Mv Kv alpha dt theta HM HK) as HA.
  destruct (step_rhs_finite n Mv Kv Tv q amb alpha tl dt theta Hn HM HK HT)
    as (b1 & Hb1 & Hb1len & Hb1i).
  rewrite Hb in Hb1. inversion Hb1; subst b1. clear Hb1.
  assert (HT' : length (offset c Tv) = n) by now rewrite offset_length.
  destruct (step_rhs_finite n Mv Kv (offset c Tv) q amb' alpha tl dt theta
              Hn HM HK HT')
    as (b2 & Hb2 & Hb2len & Hb2i).
  rewrite Hb' in Hb2. inversion Hb2; subst b2. clear Hb2.
  apply (nth_ext _ _ 0%Qc 0%Qc).
  { rewrite mat_vec_length, Hb2len. apply HA. }
  intros i Hi. rewrite mat_vec_length, (proj1 HA) in Hi.
  rewrite (nth_mat_vec n) by (auto; now rewrite offset_length).
  rewrite (Hb2i i Hi), !Hamb, nth_offset by lia.
  assert (Hbi : nth i b 0%Qc
                = sum_n (fun j => (entry (step_matrix Mv Kv alpha dt theta) i j
                                   * nth j x 0)%Qc) n).
  { rewrite <- Hmv. now apply nth_mat_vec. }
  rewrite (Hb1i i Hi) in Hbi.
  set (rM := sum_n (fun j => entry Mv i j) n).
  rewrite (sum_n_ext _ (fun j => (entry (step_matrix Mv Kv alpha dt theta) i j
                                  * nth j x 0
                                  + (c * entry Mv i j
                                     + (dt * theta * c * entry Kv i j
                                        + (if j =? n - 1
                                           then (if i =? n - 1
                                                 then dt * theta * alpha * c else 0)
                                           else 0))))%Qc)).
  2:{ intros j Hj. rewrite nth_offset by lia.
      rewrite (step_matrix_entry n) by assumption.
      destruct (i =? n - 1), (j =? n - 1); cbn [andb]; ring. }
  rewrite (sum_n_ext (fun j => ((entry Mv i j - dt * (1 - theta) * entry Kv i j)
                                * nth j (offset c Tv) 0)%Qc)
             (fun j => ((entry Mv i j - dt * (1 - theta) * entry Kv i j)
                        * nth j Tv 0
                        + (c * entry Mv i j
                           + (- (dt * (1 - theta) * c)) * entry Kv i j))%Qc)).
  2:{ intros j Hj. rewrite nth_offset by lia. ring. }
  rewrite !sum_n_plus, !sum_n_scale, HKrow, last_indicator by assumption.
  fold rM. rewrite <- Hbi.
  destruct (i =? 0), (i =? n - 1); ring.
Qed.

End Offset.

Section StepOffset.
Import NumericalForward.

(** X4.  The temperature scale has no origin.  Take two simulations with the
    same assembled matrices ([N >= 1]), the same [RobinAlpha], heat flux
    and time, where the temperatures and the ambient temperature of the
    second are those of the first plus a constant [c].  If
    [EvaluateNewStep] returns a finite array [x] on the first, it returns
    [x] plus [c] on the second. *)
Theorem step_commutes_with_temperature_offset
    (Length : Qc) (Mat : Material) (N : Z) (w1 w2 w1' : world)
    (dt theta tl c : Qc) (Tv x : vector) (l1 : loc) :
  (1 <= N)%Z ->
  assembled Length Mat N w1 -> assembled Length Mat N w2 ->
  load_array (T (Sim w1)) (heap w1) = Arr Tv ->
  load_array (T (Sim w2)) (heap w2) = Arr (offset c Tv) ->
  list_item (t (Sim w1)) (-1) = Ok tl ->
  list_item (t (Sim w2)) (-1) = Ok tl ->
  RobinAlpha (Sim w2) = RobinAlpha (Sim w1) ->
  (forall tau, HeatFlux (Sim w2) tau = HeatFlux (Sim w1) tau) ->
  (forall tau, T_amb (Sim w2) tau = T_amb (Sim w1) tau + c) ->
  EvaluateNewStep dt theta w1 = Ok (l1, w1') ->
  load_array l1 (heap w1') = Arr x ->
  exists l2 w2',
    EvaluateNewStep dt theta w2 = Ok (l2, w2')
    /\ load_array l2 (heap w2') = Arr (offset c x).
Proof.
  intros HN (Hw1 & HM1 & HK1) (Hw2 & HM2 & HK2) HT1 HT2 Htl1 Htl2 Hal Hq Hamb
         Hrun Hx.
  destruct (EvaluateNewStep_finite_result _ w1 w1' dt theta tl Tv x l1
              Hw1 HT1 Htl1 Hrun Hx)
    as (b & Hb & HTlen & Hxlen & Hblen & _ & Hmv & Huniq).
  rewrite HM1, HK1 in Hb, Hmv, Huniq.
  set (n := Z.to_nat (N + 1)) in *.
  assert (Hn : (1 <= n)%nat) by (unfold n; lia).
  pose proof (assembled_M_square Length Mat N) as HMs.
  pose proof (assembled_K_square Length Mat N) as HKs.
  fold n in HMs, HKs.
  assert (HKrow : forall i, (i < n)%nat ->
            sum_n (fun j => entry (assembled_K Length Mat N) i j) n = 0)
    by (intros i Hi; now apply stiffness_row_sum).
  set (A := step_matrix (assembled_M Length Mat N) (assembled_K Length Mat N)
              (RobinAlpha (Sim w1)) dt theta) in *.
  assert (HA : square n A) by now apply step_matrix_square.
  pose proof (EvaluateNewStep_run n w2 dt theta tl Hw2 Htl2) as Hrun2.
  cbv zeta in Hrun2. rewrite HM2, HK2, HT2, Hal in Hrun2. fold A in Hrun2.
  eexists. eexists. split; [exact Hrun2|].
  unfold load_array. cbn [heap arrays]. rewrite nth_app_second.
  assert (HT' : length (offset c Tv) = n) by now rewrite offset_length.
  destruct (step_rhs_finite n _ _ (offset c Tv) (HeatFlux (Sim w2)) (T_amb (Sim w2))
              (RobinAlpha (Sim w1)) tl dt theta Hn HMs HKs HT')
    as (b' & Hb' & Hb'len & _).
  rewrite Hb'.
  destruct (spsolve_spec n A b' HA Hb'len) as (Hsome & Hns & _).
  destruct Hns as [x' Hx'].
  { now apply (unique_solution_nonsingular n A b x). }
  rewrite Hx'. f_equal. symmetry.
  apply (proj2 (proj2 (Hsome x' Hx'))); [now rewrite offset_length|].
  apply (step_system_offset n _ _ Hn HMs HKs HKrow Tv x b b'
           (HeatFlux (Sim w1)) (T_amb (Sim w1)) (T_amb (Sim w2))
           (RobinAlpha (Sim w1)) tl dt theta c); auto.
  rewrite <- Hb'. unfold step_rhs.
  now rewrite !Hq.
Qed.

End StepOffset.

(** ** The matrices and the mesh after construction *)

Section Constructed.
Import NumericalForward.

Lemma qn_qz (N : Z) : (0 <= N)%Z -> qn (Z.to_nat N) = qz N.
Proof. intros H. unfold qn. now rewrite Z2Nat.id. Qed.

Lemma mat_vec_uniform_zero (n : nat) (A : matrix) (c : Qc) :
  square n A ->
  (forall i, (i < n)%nat -> sum_n (fun j => entry A i j) n = 0) ->
  mat_vec A (repeat c n) = repeat 0 n.
Proof.
  intros HA Hrow.
  apply (nth_ext _ _ 0 0).
  { rewrite mat_vec_length, repeat_length. apply HA. }
  intros i Hi. rewrite mat_vec_length, (proj1 HA) in Hi.
  rewrite (nth_mat_vec n) by (auto using repeat_length).
  rewrite nth_repeat_lt by exact Hi.
  rewrite (sum_n_ext _ (fun j => c * entry A i j)).
  - rewrite sum_n_scale, Hrow by exact Hi. ring.
  - intros j Hj. rewrite nth_repeat_lt by exact Hj. ring.
Qed.

(** X5.  The mass matrix [Simulation.__init__] stores.  For [N >= 1] and
    [Length <> 0], with [m = dx * rho * cp]: [M] has [N + 1] rows and
    columns, every diagonal entry is [m * 4/6] (the two boundary rows
    included: only [K] is halved there), the entries next to the diagonal
    are [m * 1/6], every other entry is zero, and [M] is symmetric. *)
Theorem mass_matrix_entries
    (Length : Qc) (Mat : Material) (N : Z) (q amb : Qc -> Qc) (alpha : Qc)
    (h : store) :
  (1 <= N)%Z -> Length <> 0 ->
  exists sim h0,
    Simulation_init Length Mat N q amb alpha h = Ok (sim, h0)
    /\ let Mv := load_matrix (M sim) h0 in
       let m := dx sim * rho Mat * cp Mat in
       let n := Z.to_nat (N + 1) in
       square n Mv
       /\ forall i j, (i < n)%nat -> (j < n)%nat ->
            entry Mv i j
            = (if (i =? j)%nat then m * (qz 4 / qz 6)
               else if ((i =? j + 1) || (j =? i + 1))%nat then m * (qz 1 / qz 6)
               else 0)
            /\ entry Mv i j = entry Mv j i.
Proof.
  intros HN HL.
  destruct (Simulation_init_assembled Length Mat N q amb alpha h HN HL)
    as (sim & h0 & Hinit & (_ & HM & _) & _ & _ & _ & _ & _ & _ & _ & Hdx & _).
  exists sim, h0. split; [exact Hinit|]. cbv zeta.
  cbn [Sim heap] in HM. rewrite HM, Hdx.
  split; [apply assembled_M_square|].
  intros i j Hi Hj. split; [|now apply assembled_M_symmetric].
  rewrite assembled_M_entry by assumption.
  destruct (i =? j)%nat; [reflexivity|].
  destruct ((i =? j + 1) || (j =? i + 1))%nat; [reflexivity|ring].
Qed.

(** X6.  The stiffness matrix [Simulation.__init__] stores is symmetric, and
    each of its rows and each of its columns adds up to zero: applied to a
    uniform temperature field it gives the zero vector (no conduction
    without a temperature difference). *)
Theorem stiffness_matrix_is_symmetric_and_conservative
    (Length : Qc) (Mat : Material) (N : Z) (q amb : Qc -> Qc) (alpha : Qc)
    (h : store) :
  (1 <= N)%Z -> Length <> 0 ->
  exists sim h0,
    Simulation_init Length Mat N q amb alpha h = Ok (sim, h0)
    /\ let Kv := load_matrix (K sim) h0 in
       let n := Z.to_nat (N + 1) in
       square n Kv
       /\ (forall i j, (i < n)%nat -> (j < n)%nat -> entry Kv i j = entry Kv j i)
       /\ (forall i, (i < n)%nat -> sum_n (fun j => entry Kv i j) n = 0)
       /\ (forall j, (j < n)%nat -> sum_n (fun i => entry Kv i j) n = 0)
       /\ forall c, mat_vec Kv (repeat c n) = repeat 0 n.
Proof.
  intros HN HL.
  destruct (Simulation_init_assembled Length Mat N q amb alpha h HN HL)
    as (sim & h0 & Hinit & (_ & _ & HK) & _).
  exists sim, h0. split; [exact Hinit|]. cbv zeta.
  cbn [Sim heap] in HK. rewrite HK.
  split; [apply assembled_K_square|].
  split; [intros i j Hi Hj; now apply assembled_K_symmetric|].
  split; [intros i Hi; now apply stiffness_row_sum|].
  split; [intros j Hj; now apply stiffness_column_sum|].
  intros c. apply mat_vec_uniform_zero; [apply assembled_K_square|].
  intros i Hi. now apply stiffness_row_sum.
Qed.

(** X7.  The mesh [Simulation.__init__] lays out.  For [N >= 1] and
    [Length <> 0]: [Sim.x] has [N + 1] nodes, node [i] is at [i * dx] with
    [dx = Length / N] the value stored in [Sim.dx], the first node is at 0
    and the last at [Length]; for [Length > 0] the nodes are strictly
    increasing. *)
Theorem mesh_nodes_are_equally_spaced
    (Length : Qc) (Mat : Material) (N : Z) (q amb : Qc -> Qc) (alpha : Qc)
    (h : store) :
  (1 <= N)%Z -> Length <> 0 ->
  exists sim h0 xs,
    Simulation_init Length Mat N q amb alpha h = Ok (sim, h0)
    /\ load_array (x sim) h0 = Arr xs
    /\ length xs = Z.to_nat (N + 1)
    /\ dx sim = Length / qz N
    /\ (forall i, (i < Z.to_nat (N + 1))%nat -> nth i xs 0 = qn i * dx sim)
    /\ nth 0 xs 0 = 0
    /\ nth (Z.to_nat N) xs 0 = Length
    /\ (0 < Length -> strictly_increasing xs).
Proof.
  intros HN HL.
  destruct (Simulation_init_assembled Length Mat N q amb alpha h HN HL)
    as (sim & h0 & Hinit & _ & _ & _ & _ & _ & _ & _ & Hx & Hdx & Harr).
  set (n := Z.to_nat (N + 1)) in *.
  set (xs := map (fun i => qn i * (Length / qz N)) (seq 0 n)) in *.
  exists sim, h0, xs. split; [exact Hinit|].
  assert (Hlen : length xs = n) by (unfold xs; now rewrite length_map, length_seq).
  assert (Hnth : forall i, (i < n)%nat -> nth i xs 0 = qn i * (Length / qz N)).
  { intros i Hi. unfold xs.
    rewrite (nth_indep _ 0 ((fun i => qn i * (Length / qz N)) 0%nat))
      by (rewrite length_map, length_seq; exact Hi).
    rewrite (map_nth (fun i => qn i * (Length / qz N))), seq_nth by exact Hi.
    reflexivity. }
  assert (HqN : qz N <> 0) by (apply qz_neq_0; lia).
  split.
  { unfold load_array. rewrite Hx, Harr. apply nth_app_second. }
  split; [exact Hlen|]. split; [exact Hdx|]. rewrite Hdx.
  split; [exact Hnth|]. split; [|split].
  - rewrite Hnth by (unfold n; lia). rewrite qn_0. ring.
  - rewrite Hnth by (unfold n; lia). rewrite qn_qz by lia. now field.
  - intros HLpos i j Hij Hj. rewrite Hlen in Hj.
    rewrite !Hnth by lia.
    assert (Hd : 0 < Length / qz N) by (apply Qcdiv_pos; [exact HLpos|apply qz_pos; lia]).
    pose proof (qn_lt i j Hij) as Hq.
    clear - Hd Hq. set (d := Length / qz N) in *. qc_nra.
Qed.

End Constructed.

(** ** The recorded arrays as objects *)

Section Records.
Import NumericalForward.

Variable CB : Type.
Variable Call : CB -> world -> CB.

(** The loop leaves the arrays it finds as they are. *)
Lemma after_body_old_array (w : world) (cb : option CB) (tl dt theta : Qc) (l : loc) :
  (l < length (arrays (heap w)))%nat ->
  load_array l (heap (fst (after_body Call w cb tl dt theta)))
  = load_array l (heap w).
Proof.
  intros Hl. unfold after_body, load_array. cbn [fst heap arrays].
  now apply nth_app_old.
Qed.

Lemma after_body_arrays (w : world) (cb : option CB) (tl dt theta : Qc) :
  length (arrays (heap (fst (after_body Call w cb tl dt theta))))
  = S (S (length (arrays (heap w)))).
Proof.
  unfold after_body. cbn [fst heap arrays]. rewrite length_app. simpl. lia.
Qed.

Lemma after_body_T (w : world) (cb : option CB) (tl dt theta : Qc) :
  T (Sim (fst (after_body Call w cb tl dt theta))) = S (length (arrays (heap w))).
Proof. reflexivity. Qed.

(** X8.  Every entry of [Sim.T_record] is an array of its own.  On a
    simulation built by [Simulation] ([N >= 1], [Length <> 0]), after any
    number of iterations of the loop of [ForwardSimulation]: the entries
    of [T_record] are pairwise different objects, the last of them is the
    object [Sim.T] refers to, and the first still holds the initial
    temperature [T0] at every node (a step binds [Sim.T] to the array the
    solver returns and never writes into a recorded one). *)
Theorem recorded_temperatures_are_separate_arrays
    (Length : Qc) (Mat : Material) (N : Z) (q amb : Qc -> Qc)
    (alpha theta T0 dt t_start t_stop : Qc) (h : store) (cb : option CB)
    (fuel : nat) :
  (1 <= N)%Z -> Length <> 0 ->
  exists sim h0 exited w' cb' first rest,
    Simulation_init Length Mat N q amb alpha h = Ok (sim, h0)
    /\ ForwardSimulation Call fuel theta T0 dt t_start t_stop
         ({| Sim := sim; heap := h0 |}, cb)
       = Ok (exited, (w', cb'))
    /\ NoDup (T_record (Sim w'))
    /\ T_record (Sim w') = first :: rest
    /\ last (T_record (Sim w')) 0%nat = T (Sim w')
    /\ load_array first (heap w') = Arr (repeat T0 (Z.to_nat (N + 1))).
Proof.
  intros HN HL.
  destruct (Simulation_init_assembled Length Mat N q amb alpha h HN HL)
    as (sim & h0 & Hinit & (Hw & _) & _ & _ & _ & Ht & Hrec & _).
  exists sim, h0.
  set (n := Z.to_nat (N + 1)) in *.
  set (w0 := before_loop {| Sim := sim; heap := h0 |} T0 t_start).
  set (I := fun (w : world) (_ : option CB) =>
              well_shaped n w /\ t (Sim w) <> []
              /\ NoDup (T_record (Sim w))
              /\ Forall (fun l => (l < length (arrays (heap w)))%nat) (T_record (Sim w))
              /\ last (T_record (Sim w)) 0%nat = T (Sim w)
              /\ exists rest, T_record (Sim w) = T (Sim w0) :: rest
                              /\ load_array (T (Sim w0)) (heap w)
                                 = Arr (repeat T0 n)).
  destruct (while_invariant CB Call n theta dt t_stop I) with
    (fuel := fuel) (w := w0) (cb := cb)
    as (exited & w' & cb' & Hrun & HI & _).
  - intros w c (Hw' & Ht' & _). auto.
  - intros w c tl (Hw' & Ht' & Hnd & Hall & Hlast & rest & Hr & Hfirst) _ _.
    split; [now apply after_body_well_shaped|].
    rewrite after_body_t, after_body_T_record, after_body_T, after_body_arrays.
    split; [intros E; now apply app_eq_nil in E as [_ E]|].
    split.
    { apply NoDup_app. repeat split.
      - exact Hnd.
      - constructor; [intros []|constructor].
      - intros l Hin [E|[]]. rewrite Forall_forall in Hall.
        specialize (Hall l Hin). lia. }
    split.
    { apply Forall_app. split.
      - eapply Forall_impl; [|exact Hall]. cbv beta. intros; lia.
      - constructor; [lia|constructor]. }
    split; [apply last_last|].
    exists (rest ++ [S (length (arrays (heap w)))]).
    split; [now rewrite Hr|].
    rewrite after_body_old_array; [exact Hfirst|].
    rewrite Forall_forall in Hall. apply Hall. rewrite Hr. now left.
  - split; [now apply before_loop_well_shaped|].
    destruct Hw as (_ & _ & _ & HTl & _ & _ & HTlen). cbn [Sim heap] in HTl, HTlen.
    unfold w0, before_loop.
    cbn [Sim heap with_t with_T_record T T_record t].
    rewrite Hrec, Ht. cbn [app last].
    split; [discriminate|].
    split; [constructor; [intros []|constructor]|].
    split.
    { constructor; [|constructor].
      unfold store_array. cbn [arrays]. now rewrite update_at_length. }
    split; [reflexivity|].
    exists []. split; [reflexivity|].
    unfold load_array, store_array. cbn [arrays].
    rewrite nth_update_at_same by exact HTl.
    fold (load_array (T sim) h0). now rewrite HTlen.
  - destruct HI as (_ & _ & Hnd & _ & Hlast & rest & Hr & Hfirst).
    exists exited, w', cb', (T (Sim w0)), rest.
    split; [exact Hinit|].
    split; [rewrite ForwardSimulation_unfold; exact Hrun|].
    repeat split; assumption.
Qed.

(** X9.  A second run on the same simulation writes into the history of the
    first.  Take a simulation whose last recorded temperature is the array
    [Sim.T] refers to, as [ForwardSimulation] leaves it.  A further call
    of [ForwardSimulation] fills that array with its own [T0] and records
    it once more: from then on (after any number of iterations) the entry
    that was the last of the first run and the entry after it are the same
    object, and it holds [T0] at every node; the temperatures the first
    run ended with are no longer in the history. *)
Theorem second_run_overwrites_last_record
    (n : nat) (w : world) (cb : option CB) (r : list loc)
    (theta T0 dt t_start t_stop : Qc) (fuel : nat) :
  well_shaped n w ->
  T_record (Sim w) = r ++ [T (Sim w)] ->
  exists exited w' cb',
    ForwardSimulation Call fuel theta T0 dt t_start t_stop (w, cb)
    = Ok (exited, (w', cb'))
    /\ nth (length r) (T_record (Sim w')) 0%nat = T (Sim w)
    /\ nth (S (length r)) (T_record (Sim w')) 0%nat = T (Sim w)
    /\ load_array (T (Sim w)) (heap w') = Arr (repeat T0 n).
Proof.
  intros Hw Hrec.
  set (w0 := before_loop w T0 t_start).
  set (I := fun (w1 : world) (_ : option CB) =>
              well_shaped n w1 /\ t (Sim w1) <> []
              /\ (T (Sim w) < length (arrays (heap w1)))%nat
              /\ load_array (T (Sim w)) (heap w1) = Arr (repeat T0 n)
              /\ exists more,
                   T_record (Sim w1) = r ++ [T (Sim w); T (Sim w)] ++ more).
  destruct (while_invariant CB Call n theta dt t_stop I) with
    (fuel := fuel) (w := w0) (cb := cb)
    as (exited & w' & cb' & Hrun & HI & _).
  - intros w1 c (Hw1 & Ht1 & _). auto.
  - intros w1 c tl (Hw1 & Ht1 & Hl & Hload & more & Hr) _ _.
    split; [now apply after_body_well_shaped|].
    rewrite after_body_t, after_body_T_record, after_body_arrays.
    split; [intros E; now apply app_eq_nil in E as [_ E]|].
    split; [lia|].
    split; [now rewrite after_body_old_array|].
    exists (more ++ [S (length (arrays (heap w1)))]).
    rewrite Hr, <- !app_assoc. reflexivity.
  - split; [now apply before_loop_well_shaped|].
    destruct Hw as (Hn & HM & HK & HTl & HMs & HKs & HTlen).
    unfold w0, before_loop.
    cbn [Sim heap with_t with_T_record T T_record t].
    split; [intros E; now apply app_eq_nil in E as [_ E]|].
    split; [unfold store_array; cbn [arrays]; now rewrite update_at_length|].
    split.
    { unfold load_array, store_array. cbn [arrays].
      rewrite nth_update_at_same by exact HTl.
      fold (load_array (T (Sim w)) (heap w)). now rewrite HTlen. }
    exists []. rewrite Hrec, <- app_assoc. reflexivity.
  - destruct HI as (_ & _ & _ & Hload & more & Hr).
    exists exited, w', cb'.
    split; [rewrite ForwardSimulation_unfold; exact Hrun|].
    rewrite Hr. split; [|split; [|exact Hload]].
    + rewrite app_nth2 by lia. now rewrite Nat.sub_diag.
    + rewrite app_nth2 by lia.
      replace (S (length r) - length r)%nat with 1%nat by lia. reflexivity.
Qed.

End Records.

(** ** DefaultCallBack *)

Section CallBack.
Import NumericalForward.
Local Open Scope string_scope.
Local Open Scope list_scope.

Lemma seq_item_last {A} (l : list A) (a : A) : seq_item (l ++ [a]) (-1) = Ok a.
Proof.
  unfold seq_item. rewrite py_index_last by (rewrite length_app; simpl; lia).
  rewrite length_app. simpl.
  replace (length l + 1 - 1)%nat with (length l) by lia.
  rewrite nth_error_app2 by lia. now rewrite Nat.sub_diag.
Qed.

(** What one call of [Call] does, given the temperature [v] that
    [np.interp] finds at [x0] and the last time [tl]. *)
Lemma DefaultCallBack_Call_run (w : world) (c : DefaultCallBack)
    (log : list display) (v : float) (tl : Qc) :
  np_interp (x0 c) (load_array (x (Sim w)) (heap w))
    (load_array (T (Sim w)) (heap w)) = Ok v ->
  list_item (t (Sim w)) (-1) = Ok tl ->
  let hist := TempHistoryAtPoint_x0 c ++ [v] in
  let c1 := with_TempHistoryAtPoint_x0 hist c in
  DefaultCallBack_Call w (c, log)
  = if Qclt_le_dec (last_call c + Call_at c) tl then
      if (length (skipn 1 (t (Sim w))) =? length hist)%nat
         && plottable (ExperimentData c)
      then Ok (tt,
               (with_last_call (last_call c + Call_at c) c1,
                log ++ [Clf; Axis (plot_limits c);
                        Plot (skipn 1 (t (Sim w))) hist]
                    ++ match ExperimentData c with
                       | Some (ts, vs) => [Plot ts (map Some vs)]
                       | None => []
                       end
                    ++ [Pause (1 / qz 100);
                        PrintLine v tl (HeatFlux (Sim w) tl)]))
      else Raise "ValueError"
    else Ok (tt, (c1, log)).
Proof.
  intros Hv Htl. cbv zeta.
  cbv [DefaultCallBack_Call bind gets lift modify fst snd].
  rewrite Hv, Htl.
  cbn [with_TempHistoryAtPoint_x0 last_call Call_at TempHistoryAtPoint_x0
       ExperimentData plot_limits].
  destruct (Qclt_le_dec (last_call c + Call_at c) tl) as [Hdue|Hnot]; [|reflexivity].
  cbv [plt plt_plot modify throw ret fst snd].
  destruct (length (skipn 1 (t (Sim w))) =? length (TempHistoryAtPoint_x0 c ++ [v]))%nat;
    [|reflexivity].
  cbn [andb]. unfold plottable.
  destruct (ExperimentData c) as [[ts vs]|] eqn:E.
  - rewrite length_map.
    destruct (length ts =? length vs)%nat; [|reflexivity].
    cbv [fst snd]. rewrite seq_item_last.
    cbn [with_last_call with_TempHistoryAtPoint_x0 last_call Call_at
         TempHistoryAtPoint_x0 ExperimentData plot_limits x0].
    rewrite <- !app_assoc. reflexivity.
  - cbv [fst snd]. rewrite seq_item_last.
    cbn [with_last_call with_TempHistoryAtPoint_x0 last_call Call_at
         TempHistoryAtPoint_x0 ExperimentData plot_limits x0].
    rewrite <- !app_assoc. reflexivity.
Qed.

Lemma np_interp_returns (x0 : Qc) (xp fp : ndarray) :
  (1 <= arr_len xp)%nat -> arr_len fp = arr_len xp ->
  exists v, np_interp x0 xp fp = Ok v.
Proof.
  intros H1 H2. unfold np_interp.
  destruct (Nat.eqb_spec (arr_len xp) 0); [lia|].
  rewrite H2, Nat.eqb_refl. cbn [negb].
  destruct xp as [[|xa xp]|?], fp as [[|fa fp]|?]; eauto.
Qed.

End CallBack.

Section CallBackRun.
Import NumericalForward.
Local Open Scope string_scope.
Local Open Scope list_scope.

Lemma DefaultCallBack_in_loop_after_body (w : world) (c : DefaultCallBack)
    (log : list display) (tl dt theta : Qc) :
  snd (after_body DefaultCallBack_in_loop w (Some (Ok (c, log))) tl dt theta)
  = Some (DefaultCallBack_in_loop (Ok (c, log))
            (fst (after_body DefaultCallBack_in_loop w (Some (Ok (c, log))) tl dt theta))).
Proof. reflexivity. Qed.

Lemma length_skipn_1 {A} (l : list A) : length (skipn 1 l) = (length l - 1)%nat.
Proof. destruct l; simpl; lia. Qed.

Lemma DefaultCallBack_in_loop_step (w : world) (c : DefaultCallBack)
    (log : list display) (tl : Qc) :
  (1 <= arr_len (load_array (x (Sim w)) (heap w)))%nat ->
  arr_len (load_array (T (Sim w)) (heap w))
  = arr_len (load_array (x (Sim w)) (heap w)) ->
  list_item (t (Sim w)) (-1) = Ok tl ->
  plottable (ExperimentData c) = true ->
  (length (TempHistoryAtPoint_x0 c) + 2)%nat = length (t (Sim w)) ->
  exists c' log' v,
    DefaultCallBack_in_loop (Ok (c, log)) w = Ok (c', log')
    /\ np_interp (x0 c) (load_array (x (Sim w)) (heap w))
         (load_array (T (Sim w)) (heap w)) = Ok v
    /\ TempHistoryAtPoint_x0 c' = TempHistoryAtPoint_x0 c ++ [v]
    /\ ExperimentData c' = ExperimentData c
    /\ x0 c' = x0 c.
Proof.
  intros Hx HT Htl Hplot Hlen.
  destruct (np_interp_returns (x0 c) _ _ Hx HT) as [v Hv].
  unfold DefaultCallBack_in_loop.
  rewrite (DefaultCallBack_Call_run w c log v tl Hv Htl).
  assert (Hsame : (length (skipn 1 (t (Sim w)))
                   =? length (TempHistoryAtPoint_x0 c ++ [v]))%nat = true).
  { apply Nat.eqb_eq. rewrite length_skipn_1, !length_app. simpl. lia. }
  rewrite Hsame, Hplot. cbn [andb].
  destruct (Qclt_le_dec (last_call c + Call_at c) tl).
  - eexists. eexists. exists v. split; [reflexivity|]. split; [exact Hv|].
    cbn [with_last_call with_TempHistoryAtPoint_x0 TempHistoryAtPoint_x0
         ExperimentData x0].
    auto.
  - eexists. eexists. exists v. split; [reflexivity|]. split; [exact Hv|].
    cbn [with_TempHistoryAtPoint_x0 TempHistoryAtPoint_x0 ExperimentData x0].
    auto.
Qed.

Lemma Forall2_weaken {A B} (R R' : A -> B -> Prop) (P : B -> Prop)
    (l1 : list A) (l2 : list B) :
  Forall2 R l1 l2 -> Forall P l2 ->
  (forall a b, P b -> R a b -> R' a b) ->
  Forall2 R' l1 l2.
Proof.
  intros H HP Himp. induction H as [|a b l1 l2 Hab H IH]; constructor.
  - apply Himp; [now inversion HP|exact Hab].
  - apply IH. now inversion HP.
Qed.

Lemma Forall2_nth_rel {A B} (R : A -> B -> Prop) (l1 : list A) (l2 : list B)
    (da : A) (db : B) :
  Forall2 R l1 l2 ->
  forall i, (i < length l1)%nat -> R (nth i l1 da) (nth i l2 db).
Proof.
  intros H. induction H as [|a b l1 l2 Hab H IH]; intros i Hi.
  - simpl in Hi. lia.
  - destruct i as [|i]; [exact Hab|]. apply IH. simpl in Hi. lia.
Qed.

(** A run with a [DefaultCallBack] of its own. *)
Lemma default_callback_run
    (Length : Qc) (Mat : Material) (N : Z) (q amb : Qc -> Qc)
    (alpha theta T0 dt t_start t_stop : Qc) (h : store)
    (c0 : DefaultCallBack) (log0 : list display) (fuel : nat) :
  (1 <= N)%Z -> Length <> 0 ->
  TempHistoryAtPoint_x0 c0 = [] ->
  plottable (ExperimentData c0) = true ->
  exists sim h0 exited w' c' log',
    Simulation_init Length Mat N q amb alpha h = Ok (sim, h0)
    /\ ForwardSimulation DefaultCallBack_in_loop fuel theta T0 dt t_start t_stop
         ({| Sim := sim; heap := h0 |}, Some (Ok (c0, log0)))
       = Ok (exited, (w', Some (Ok (c', log'))))
    /\ t (Sim w') <> []
    /\ length (t (Sim w')) = length (T_record (Sim w'))
    /\ Forall2 (fun v l =>
                  np_interp (x0 c0) (load_array (x (Sim w')) (heap w'))
                    (load_array l (heap w')) = Ok v)
         (TempHistoryAtPoint_x0 c') (skipn 1 (T_record (Sim w'))).
Proof.
  intros HN HL Hhist Hexp.
  destruct (Simulation_init_assembled Length Mat N q amb alpha h HN HL)
    as (sim & h0 & Hinit & (Hw & _) & _ & _ & _ & Ht & Hrec & HTloc & Hxloc & _ & Harr).
  exists sim, h0.
  set (n := Z.to_nat (N + 1)) in *.
  set (w0 := before_loop {| Sim := sim; heap := h0 |} T0 t_start).
  set (I := fun (w : world) (cb : option (outcome shown)) =>
              well_shaped n w /\ t (Sim w) <> []
              /\ (x (Sim w) < length (arrays (heap w)))%nat
              /\ arr_len (load_array (x (Sim w)) (heap w)) = n
              /\ length (t (Sim w)) = length (T_record (Sim w))
              /\ Forall (fun l => (l < length (arrays (heap w)))%nat)
                   (T_record (Sim w))
              /\ exists c log,
                   cb = Some (Ok (c, log))
                   /\ plottable (ExperimentData c) = true
                   /\ x0 c = x0 c0
                   /\ Forall2 (fun v l =>
                                 np_interp (x0 c0) (load_array (x (Sim w)) (heap w))
                                   (load_array l (heap w)) = Ok v)
                        (TempHistoryAtPoint_x0 c) (skipn 1 (T_record (Sim w)))).
  destruct (while_invariant _ DefaultCallBack_in_loop n theta dt t_stop I) with
    (fuel := fuel) (w := w0) (cb := Some (Ok (c0, log0)))
    as (exited & w' & cb' & Hrun & HI & _).
  - intros w c (Hw' & Ht' & _). auto.
  - intros w cb tl
      (Hw' & Ht' & Hx & Hxlen & Hlen & Hall & c & log & -> & Hplot & Hx0 & Hrel) Htl _.
    pose proof (after_body_well_shaped _ DefaultCallBack_in_loop n w
                  (Some (Ok (c, log))) tl dt theta Hw') as Hw1.
    pose proof (after_body_t _ DefaultCallBack_in_loop w (Some (Ok (c, log))) tl dt theta)
      as Ht1.
    pose proof (after_body_T_record _ DefaultCallBack_in_loop w (Some (Ok (c, log)))
                  tl dt theta) as Hr1.
    pose proof (after_body_T _ DefaultCallBack_in_loop w (Some (Ok (c, log)))
                  tl dt theta) as HT1.
    pose proof (after_body_old_array _ DefaultCallBack_in_loop w (Some (Ok (c, log)))
                  tl dt theta) as Hold.
    pose proof (after_body_arrays _ DefaultCallBack_in_loop w (Some (Ok (c, log)))
                  tl dt theta) as Hl1.
    assert (Hxf : x (Sim (fst (after_body DefaultCallBack_in_loop w
                                 (Some (Ok (c, log))) tl dt theta))) = x (Sim w))
      by reflexivity.
    set (w1 := fst (after_body DefaultCallBack_in_loop w (Some (Ok (c, log))) tl dt theta))
      in *.
    assert (Hxlen1 : arr_len (load_array (x (Sim w1)) (heap w1)) = n)
      by (rewrite Hxf, Hold; assumption).
    assert (Htl1 : list_item (t (Sim w1)) (-1) = Ok (tl + dt))
      by (rewrite Ht1; apply list_item_last).
    assert (Hrec1 : (1 <= length (T_record (Sim w)))%nat).
    { rewrite <- Hlen. destruct (t (Sim w)); [contradiction|simpl; lia]. }
    assert (Hlenrel : length (TempHistoryAtPoint_x0 c)
                      = (length (T_record (Sim w)) - 1)%nat).
    { rewrite (Forall2_length Hrel). apply length_skipn_1. }
    destruct (DefaultCallBack_in_loop_step w1 c log (tl + dt))
      as (c1 & log1 & v & Hcall & Hv & Hhist1 & Hexp1 & Hx01).
    { rewrite Hxlen1. apply Hw1. }
    { rewrite Hxlen1. apply Hw1. }
    { exact Htl1. }
    { exact Hplot. }
    { rewrite Ht1, length_app. simpl. lia. }
    split; [exact Hw1|].
    split; [rewrite Ht1; intros E; now apply app_eq_nil in E as [_ E]|].
    split; [rewrite Hxf, Hl1; lia|].
    split; [exact Hxlen1|].
    split; [rewrite Ht1, Hr1, !length_app; simpl; lia|].
    split.
    { rewrite Hr1, Hl1. apply Forall_app. split.
      - eapply Forall_impl; [|exact Hall]. cbv beta. intros; lia.
      - constructor; [lia|constructor]. }
    exists c1, log1.
    split; [rewrite DefaultCallBack_in_loop_after_body; fold w1; now rewrite Hcall|].
    split; [now rewrite Hexp1|]. split; [now rewrite Hx01|].
    rewrite Hhist1, Hr1.
    rewrite skipn_app.
    replace (1 - length (T_record (Sim w)))%nat with 0%nat by lia.
    cbn [skipn]. apply Forall2_app.
    + assert (Hall' : Forall (fun l => (l < length (arrays (heap w)))%nat)
                        (skipn 1 (T_record (Sim w)))).
      { rewrite Forall_forall in *. intros l Hin. apply Hall.
        destruct (T_record (Sim w)); [destruct Hin|now right]. }
      eapply Forall2_weaken; [exact Hrel|exact Hall'|]. cbv beta.
      intros v0 l Hl Hvl. rewrite Hxf, !Hold by assumption. exact Hvl.
    + constructor; [|constructor].
      rewrite <- HT1, <- Hx0. exact Hv.
  - split; [now apply before_loop_well_shaped|].
    unfold w0, before_loop.
    cbn [Sim heap with_t with_T_record T T_record t x].
    split; [rewrite Ht; discriminate|].
    unfold load_array, store_array. cbn [arrays].
    rewrite update_at_length, Hxloc, HTloc, Harr, length_app.
    split; [simpl; lia|].
    split.
    { rewrite nth_update_at_other by lia. rewrite nth_app_second.
      cbn [arr_len]. now rewrite length_map, length_seq. }
    rewrite Ht, Hrec. split; [reflexivity|].
    split; [constructor; [simpl; lia|constructor]|].
    exists c0, log0. split; [reflexivity|]. split; [exact Hexp|].
    split; [reflexivity|].
    rewrite Hhist. cbn [app skipn]. constructor.
  - destruct HI as (_ & Hne & _ & _ & Hlen & _ & c' & log' & -> & _ & _ & Hrel).
    exists exited, w', c', log'.
    split; [exact Hinit|].
    split; [rewrite ForwardSimulation_unfold; exact Hrun|].
    split; [exact Hne|]. split; [exact Hlen|exact Hrel].
Qed.

(** X10.  The default callback keeps step with a run of its own.  On a
    simulation built by [Simulation] ([N >= 1], [Length <> 0]) and run by
    [ForwardSimulation] with a [DefaultCallBack] whose history is empty
    (and whose [ExperimentData], if any, are two sequences of one length):
    after any number of iterations the callback has raised nothing, and
    its history [TempHistoryAtPoint_x0] has one entry per step, that is one
    entry less than [Sim.t]; the sequences it hands to [plt.plot],
    [Sim.t[1:]] and the history, have the same length. *)
Theorem default_callback_keeps_step_with_the_run
    (Length : Qc) (Mat : Material) (N : Z) (q amb : Qc -> Qc)
    (alpha theta T0 dt t_start t_stop : Qc) (h : store)
    (c0 : DefaultCallBack) (log0 : list display) (fuel : nat) :
  (1 <= N)%Z -> Length <> 0 ->
  TempHistoryAtPoint_x0 c0 = [] ->
  plottable (ExperimentData c0) = true ->
  exists sim h0 exited w' c' log',
    Simulation_init Length Mat N q amb alpha h = Ok (sim, h0)
    /\ ForwardSimulation DefaultCallBack_in_loop fuel theta T0 dt t_start t_stop
         ({| Sim := sim; heap := h0 |}, Some (Ok (c0, log0)))
       = Ok (exited, (w', Some (Ok (c', log'))))
    /\ (length (TempHistoryAtPoint_x0 c') + 1)%nat = length (t (Sim w'))
    /\ length (skipn 1 (t (Sim w'))) = length (TempHistoryAtPoint_x0 c').
Proof.
  intros HN HL Hhist Hexp.
  destruct (default_callback_run Length Mat N q amb alpha theta T0 dt t_start t_stop
              h c0 log0 fuel HN HL Hhist Hexp)
    as (sim & h0 & exited & w' & c' & log' & Hinit & Hrun & Hne & Hlen & Hrel).
  exists sim, h0, exited, w', c', log'.
  split; [exact Hinit|]. split; [exact Hrun|].
  pose proof (Forall2_length Hrel) as E. rewrite length_skipn_1 in E.
  rewrite length_skipn_1, Hlen, E.
  assert (1 <= length (t (Sim w')))%nat
    by (destruct (t (Sim w')); [contradiction|simpl; lia]).
  lia.
Qed.

(** X11.  The history of the default callback holds the temperature at [x0] of
    every recorded step.  In a run as above, after any number of
    iterations: entry [i] of [TempHistoryAtPoint_x0] is what [np.interp]
    finds at [x0] on the mesh [Sim.x] in the temperatures
    [Sim.T_record[i + 1]] (the initial temperature [T_record[0]] has no
    entry in the history). *)
Theorem default_callback_history_follows_records
    (Length : Qc) (Mat : Material) (N : Z) (q amb : Qc -> Qc)
    (alpha theta T0 dt t_start t_stop : Qc) (h : store)
    (c0 : DefaultCallBack) (log0 : list display) (fuel : nat) :
  (1 <= N)%Z -> Length <> 0 ->
  TempHistoryAtPoint_x0 c0 = [] ->
  plottable (ExperimentData c0) = true ->
  exists sim h0 exited w' c' log',
    Simulation_init Length Mat N q amb alpha h = Ok (sim, h0)
    /\ ForwardSimulation DefaultCallBack_in_loop fuel theta T0 dt t_start t_stop
         ({| Sim := sim; heap := h0 |}, Some (Ok (c0, log0)))
       = Ok (exited, (w', Some (Ok (c', log'))))
    /\ (length (TempHistoryAtPoint_x0 c') + 1)%nat = length (T_record (Sim w'))
    /\ forall i, (i < length (TempHistoryAtPoint_x0 c'))%nat ->
         np_interp (x0 c0) (load_array (x (Sim w')) (heap w'))
           (load_array (nth (S i) (T_record (Sim w')) 0%nat) (heap w'))
         = Ok (nth i (TempHistoryAtPoint_x0 c') None).
Proof.
  intros HN HL Hhist Hexp.
  destruct (default_callback_run Length Mat N q amb alpha theta T0 dt t_start t_stop
              h c0 log0 fuel HN HL Hhist Hexp)
    as (sim & h0 & exited & w' & c' & log' & Hinit & Hrun & Hne & Hlen & Hrel).
  exists sim, h0, exited, w', c', log'.
  split; [exact Hinit|]. split; [exact Hrun|].
  pose proof (Forall2_length Hrel) as E. rewrite length_skipn_1 in E.
  assert (H1 : (1 <= length (t (Sim w')))%nat)
    by (destruct (t (Sim w')); [contradiction|simpl; lia]).
  split; [lia|].
  intros i Hi.
  replace (nth (S i) (T_record (Sim w')) 0%nat)
    with (nth i (skipn 1 (T_record (Sim w'))) 0%nat)
    by (destruct (T_record (Sim w')); [now destruct i|reflexivity]).
  now apply (Forall2_nth_rel _ _ _ None 0%nat Hrel).
Qed.

(** A callback that does not raise keeps its state when handed back to
    the loop; a callback that has raised stays as it is. *)
Lemma DefaultCallBack_in_loop_raised (w : world) (e : string) (tl dt theta : Qc) :
  snd (after_body DefaultCallBack_in_loop w (Some (Raise e)) tl dt theta)
  = Some (Raise e).
Proof. reflexivity. Qed.



End CallBackRun.

(** ** Interpolation on the mesh *)

Section Interpolation.
Import NumericalForward.

Variable d : Qc.
Hypothesis Hd : 0 < d.

Let g (i : nat) : Qc := qn i * d.

Lemma grid_lt (i j : nat) : (i < j)%nat -> g i < g j.
Proof.
  intros H. unfold g. pose proof (qn_lt i j H) as Hq.
  clear - Hd Hq. set (a := qn i) in *. set (b := qn j) in *. clearbody a b. qc_nra.
Qed.

Lemma grid_le (i j : nat) : (i <= j)%nat -> g i <= g j.
Proof.
  intros H. destruct (Nat.eq_dec i j) as [->|Hne]; [apply Qcle_refl|].
  apply Qclt_le_weak, grid_lt. lia.
Qed.

Lemma grid_step (j : nat) : g (S j) - g j = d.
Proof. unfold g. rewrite qn_S. ring. Qed.

(** The value [interp_from] finds on the nodes [g k, g (k + 1), ...]. *)
Lemma interp_from_grid (x : Qc) (m : nat) :
  forall (k : nat) (fa : Qc) (fs : vector),
    length fs = m -> g k <= x ->
    (forall j, (k <= j < k + m)%nat -> g j <= x -> x < g (S j) ->
       interp_from x (g k) fa (map g (seq (S k) m)) fs
       = nth (j - k) (fa :: fs) 0
         + (nth (S j - k) (fa :: fs) 0 - nth (j - k) (fa :: fs) 0) * ((x - g j) / d))
    /\ (g (k + m) <= x ->
        interp_from x (g k) fa (map g (seq (S k) m)) fs = nth m (fa :: fs) 0).
Proof.
  assert (Hd0 : d <> 0) by (apply Qclt_neq_0; exact Hd).
  induction m as [|m IH]; intros k fa fs Hlen Hk.
  - destruct fs; [|discriminate]. split; [intros j Hj; lia|reflexivity].
  - destruct fs as [|fb fs]; [discriminate|]. injection Hlen as Hlen.
    cbn [seq map interp_from].
    destruct (Qclt_le_dec x (g (S k))) as [Hlt|Hge].
    + split.
      * intros j Hj Hj1 Hj2.
        assert (j = k).
        { destruct (Nat.eq_dec j k) as [E|E]; [exact E|exfalso].
          assert (Hle : g (S k) <= g j) by (apply grid_le; lia).
          apply (Qclt_not_le _ _ Hlt). eapply Qcle_trans; eassumption. }
        subst j. rewrite Nat.sub_diag.
        replace (S k - k)%nat with 1%nat by lia. cbn [nth].
        destruct (Qc_eq_dec x (g k)) as [->|Hne].
        -- unfold Qcdiv. ring.
        -- rewrite grid_step. field. exact Hd0.
      * intros Hlast. exfalso.
        assert (Hle : g (S k) <= g (k + S m)) by (apply grid_le; lia).
        apply (Qclt_not_le _ _ Hlt). eapply Qcle_trans; eassumption.
    + destruct (IH (S k) fb fs Hlen Hge) as [IH1 IH2]. split.
      * intros j Hj Hj1 Hj2.
        assert (S k <= j)%nat.
        { destruct (Nat.le_gt_cases (S k) j) as [E|E]; [exact E|exfalso].
          assert (Hle : g (S j) <= g (S k)) by (apply grid_le; lia).
          apply (Qclt_not_le _ _ Hj2). eapply Qcle_trans; eassumption. }
        rewrite (IH1 j) by (auto; lia).
        replace (j - k)%nat with (S (j - S k)) by lia.
        replace (S j - k)%nat with (S (S j - S k)) by lia.
        reflexivity.
      * intros Hlast. rewrite IH2; [reflexivity|].
        replace (S k + m)%nat with (k + S m)%nat by lia. exact Hlast.
Qed.

(** [np.interp] on the nodes [0, d, 2 d, ...]. *)
Lemma np_interp_grid (x : Qc) (n : nat) (Tv : vector) :
  (1 <= n)%nat -> length Tv = n ->
  exists v,
    np_interp x (Arr (map g (seq 0 n))) (Arr Tv) = Ok (Some v)
    /\ (x <= 0 -> v = nth 0 Tv 0)
    /\ (g (n - 1) <= x -> v = nth (n - 1) Tv 0)
    /\ forall j, (S j < n)%nat -> g j <= x -> x < g (S j) ->
         v = nth j Tv 0 + (nth (S j) Tv 0 - nth j Tv 0) * ((x - g j) / d).
Proof.
  intros Hn Hlen.
  destruct n as [|m]; [lia|]. destruct Tv as [|fa fs]; [discriminate|].
  injection Hlen as Hlen.
  unfold np_interp. cbn [arr_len]. rewrite length_map, length_seq.
  cbn [length Nat.eqb negb]. rewrite Hlen, Nat.eqb_refl. cbn [negb seq map].
  assert (Hg0 : g 0 = 0) by (unfold g; rewrite qn_0; ring).
  replace (S m - 1)%nat with m by lia.
  destruct (Qclt_le_dec x (g 0)) as [Hlt|Hge].
  - exists fa. split; [reflexivity|]. split; [reflexivity|]. split.
    + intros Hlast. exfalso.
      assert (Hle : g 0 <= g m) by (apply grid_le; lia).
      apply (Qclt_not_le _ _ Hlt). eapply Qcle_trans; eassumption.
    + intros j _ Hj _. exfalso.
      assert (Hle : g 0 <= g j) by (apply grid_le; lia).
      apply (Qclt_not_le _ _ Hlt). eapply Qcle_trans; eassumption.
  - destruct (interp_from_grid x m 0 fa fs Hlen Hge) as [H1 H2].
    eexists. split; [reflexivity|]. split; [|split].
    + intros Hx0.
      assert (E : x = g 0) by (apply Qcle_antisym; [rewrite Hg0; exact Hx0|exact Hge]).
      destruct m as [|m].
      * now rewrite H2 by (rewrite E; apply Qcle_refl).
      * rewrite (H1 0%nat); [|lia|exact Hge|rewrite E; apply grid_lt; lia].
        rewrite E. cbn [Nat.sub nth]. unfold Qcdiv. ring.
    + intros Hlast. now apply H2.
    + intros j Hj Hj1 Hj2. rewrite (H1 j) by (auto; lia).
      now rewrite Nat.sub_0_r.
Qed.

End Interpolation.

Section InterpolationOnMesh.
Import NumericalForward.

(** X13.  What [np.interp(x0, Sim.x, T)] is on the mesh of a simulation.
    For [N >= 1] and [Length > 0], with finite temperatures [Tv] at the
    [N + 1] nodes: the value is [Tv[0]] for [x0 <= 0], [Tv[N]] for
    [x0 >= Length], and for [x0] in the element between the nodes
    [j * dx] and [(j + 1) * dx] it is
    [Tv[j] + (Tv[j + 1] - Tv[j]) * (x0 - j * dx) / dx]: the temperature of
    node [j] when [x0] is that node, and a value that moves linearly to
    the temperature of the next node across the element. *)
Theorem temperature_at_x0_on_the_mesh
    (Length : Qc) (Mat : Material) (N : Z) (q amb : Qc -> Qc) (alpha : Qc)
    (h : store) (x0 : Qc) (Tv : vector) :
  (1 <= N)%Z -> 0 < Length ->
  length Tv = Z.to_nat (N + 1) ->
  exists sim h0 v,
    Simulation_init Length Mat N q amb alpha h = Ok (sim, h0)
    /\ np_interp x0 (load_array (x sim) h0) (Arr Tv) = Ok (Some v)
    /\ (x0 <= 0 -> v = nth 0 Tv 0)
    /\ (Length <= x0 -> v = nth (Z.to_nat N) Tv 0)
    /\ forall j, (j < Z.to_nat N)%nat ->
         qn j * dx sim <= x0 -> x0 < qn (S j) * dx sim ->
         v = nth j Tv 0
             + (nth (S j) Tv 0 - nth j Tv 0) * ((x0 - qn j * dx sim) / dx sim).
Proof.
  intros HN HL Hlen.
  assert (HL0 : Length <> 0) by now apply Qclt_neq_0.
  destruct (Simulation_init_assembled Length Mat N q amb alpha h HN HL0)
    as (sim & h0 & Hinit & _ & _ & _ & _ & _ & _ & _ & Hx & Hdx & Harr).
  assert (Hd : 0 < Length / qz N) by (apply Qcdiv_pos; [exact HL|apply qz_pos; lia]).
  destruct (np_interp_grid (Length / qz N) Hd x0 (Z.to_nat (N + 1)) Tv)
    as (v & Hv & Hleft & Hright & Hmid); [lia|exact Hlen|].
  exists sim, h0, v. split; [exact Hinit|].
  split.
  { unfold load_array. rewrite Hx, Harr, nth_app_second. exact Hv. }
  split; [exact Hleft|]. rewrite Hdx.
  replace (Z.to_nat (N + 1) - 1)%nat with (Z.to_nat N) in Hright by lia.
  split.
  - intros Hx0. apply Hright.
    rewrite qn_qz by lia.
    assert (E : qz N * (Length / qz N) = Length) by (field; apply qz_neq_0; lia).
    now rewrite E.
  - intros j Hj. apply Hmid. lia.
Qed.

End InterpolationOnMesh.

(** ** The controller loop, whatever the GUI sends *)

Section ControllerRuns.

Import Utilities.
Local Open Scope nat_scope.
Local Open Scope string_scope.
Local Open Scope list_scope.

Variable SimT : Type.
Variable current_t : SimT -> Qc.
Variable simulation_has_finished : SimT -> bool.
Variable evaluate_one_step : SimT -> SimT.
Variable calculate_final_error : SimT -> Qc.

Abbreviation controller' := (SimulationController SimT).
Abbreviation body' := (loop_body current_t evaluate_one_step).
Abbreviation loop' :=
  (controller_loop current_t simulation_has_finished evaluate_one_step).
Abbreviation complete' :=
  (complete_simulation current_t simulation_has_finished evaluate_one_step
     calculate_final_error).
Abbreviation after k s := (Nat.iter k evaluate_one_step s).

(** One iteration: the state the callback returns decides between a
    step, a wait and the exit. *)
Lemma loop_body_state (arrivals : schedule) (self : controller') :
  let self' := snd (body' arrivals self) in
  let st := simulation_state (MyCallBack self') in
  calls self' = S (calls self)
  /\ fst (body' arrivals self) = String.eqb st "stopped"
  /\ (st = "running" ->
      Sim self' = evaluate_one_step (Sim self) /\ steps self' = S (steps self))
  /\ (st <> "running" -> Sim self' = Sim self /\ steps self' = steps self).
Proof.
  cbv zeta.
  destruct (loop_body_Sim current_t evaluate_one_step arrivals self)
    as (Hcb & Hcalls & Hbrk & Hrun & Hnot).
  pose proof (Callback_call_poll (current_t (Sim self)) false
                (gui_put (arrivals (calls self)) (MyCallBack self))) as Hp.
  destruct (Callback_call _ _ _) as [[st cb'] ev]. cbn [fst snd] in *.
  destruct Hp as [Hst _]. rewrite Hcb, <- Hst. auto.
Qed.

(** X14.  Control messages decide how far a run gets and nothing else.
    Whatever arrives on the queue and after any number of iterations of
    the loop of [complete_simulation]: the [Sim] object is the one the loop
    started with after [k] calls of [evaluate_one_step], where [k] is the
    number of steps the loop has taken; none of the states before it had
    finished; [k] is at most the number of calls of the callback; a loop
    that was left because the simulation finished holds a finished
    simulation, and one that was left by [break] holds a callback in state
    "stopped". *)
Theorem messages_never_alter_the_simulation
    (arrivals : schedule) (fuel : nat) (self : controller') :
  let ex := fst (loop' fuel arrivals self) in
  let self' := snd (loop' fuel arrivals self) in
  let k := steps self' - steps self in
  steps self <= steps self'
  /\ Sim self' = after k (Sim self)
  /\ (forall j, j < k -> simulation_has_finished (after j (Sim self)) = false)
  /\ k <= calls self' - calls self
  /\ calls self <= calls self'
  /\ (ex = FINISHED -> simulation_has_finished (Sim self') = true)
  /\ (ex = STOPPED -> simulation_state (MyCallBack self') = "stopped").
Proof.
  cbv zeta. revert self.
  induction fuel as [|fuel IH]; intros self; cbn [controller_loop fst snd].
  - rewrite Nat.sub_diag. cbn [Nat.iter].
    repeat split; try lia; try discriminate.
  - destruct (simulation_has_finished (Sim self)) eqn:Hfin.
    + cbn [fst snd]. rewrite Nat.sub_diag. cbn [Nat.iter].
      repeat split; try lia; try discriminate; auto.
    + destruct (loop_body_state arrivals self) as (Hcalls & Hbrk & Hrun & Hnot).
      destruct (body' arrivals self) as [brk self1]. cbn [fst snd] in *.
      destruct brk.
      * cbn [fst snd]. symmetry in Hbrk. apply String.eqb_eq in Hbrk.
        destruct Hnot as [HS Hst]; [rewrite Hbrk; discriminate|].
        rewrite Hst, HS, Nat.sub_diag. cbn [Nat.iter].
        repeat split; try lia; try discriminate; auto.
      * specialize (IH self1).
        destruct (loop' fuel arrivals self1) as [ex self']. cbn [fst snd] in *.
        destruct IH as (H1 & H2 & H3 & H4 & H5 & H6 & H7).
        destruct (string_dec (simulation_state (MyCallBack self1)) "running") as [E|E].
        -- destruct (Hrun E) as [HS Hst]. rewrite Hst in *. rewrite HS in *.
           replace (steps self' - steps self) with (S (steps self' - S (steps self)))
             by lia.
           rewrite Nat.iter_succ_r.
           repeat split; try lia; auto.
           intros [|j] Hj; [exact Hfin|].
           rewrite Nat.iter_succ_r. apply H3. lia.
        -- destruct (Hnot E) as [HS Hst]. rewrite Hst in *. rewrite HS in *.
           repeat split; try lia; auto.
Qed.

Lemma quiet_call (arrivals : schedule) (cb : Callback) (n : nat) (ct : Qc) (f : bool) :
  quiet arrivals cb ->
  let cb' := snd (fst (Callback_call ct f (gui_put (arrivals n) cb))) in
  quiet arrivals cb' /\ simulation_state cb' = simulation_state cb.
Proof.
  intros Hq. cbv zeta.
  pose proof (Callback_call_poll ct f (gui_put (arrivals n) cb)) as Hp.
  destruct (Callback_call _ _ _) as [[st cb'] ev]. cbn [fst snd].
  destruct Hp as [_ Hp].
  assert (Hst : simulation_state (gui_put (arrivals n) cb) = simulation_state cb)
    by reflexivity.
  destruct Hq as [Hq|[Hq Hempty]].
  - assert (E : queue (gui_put (arrivals n) cb) = None) by (cbn; now rewrite Hq).
    rewrite E in Hp. destruct Hp as [Hq' Hs']. split; [left|]; congruence.
  - assert (E : queue (gui_put (arrivals n) cb) = Some [])
      by (cbn; now rewrite Hq, Hempty).
    rewrite E in Hp. destruct Hp as [Hq' Hs'].
    split; [right; split; [congruence|exact Hempty]|congruence].
Qed.

Lemma quiet_body (arrivals : schedule) (self : controller') :
  quiet arrivals (MyCallBack self) ->
  let self' := snd (body' arrivals self) in
  quiet arrivals (MyCallBack self')
  /\ simulation_state (MyCallBack self') = simulation_state (MyCallBack self).
Proof.
  intros Hq. cbv zeta.
  destruct (loop_body_Sim current_t evaluate_one_step arrivals self) as (Hcb & _).
  rewrite Hcb. now apply quiet_call.
Qed.

(** X15.  Without messages a run goes to the end.  When no message reaches the
    callback (it has no queue, or its queue stays empty) and its state is
    "running": if the simulation finishes after [k] steps and not before,
    the loop, given more than [k] iterations, is left because the
    simulation has finished, after exactly [k] steps and [k] calls of the
    callback. *)
Theorem run_without_messages_finishes
    (arrivals : schedule) (k : nat) :
  forall (self : controller') (fuel : nat),
    quiet arrivals (MyCallBack self) ->
    simulation_state (MyCallBack self) = "running" ->
    (forall j, j < k -> simulation_has_finished (after j (Sim self)) = false) ->
    simulation_has_finished (after k (Sim self)) = true ->
    k < fuel ->
    exists self',
      loop' fuel arrivals self = (FINISHED, self')
      /\ Sim self' = after k (Sim self)
      /\ steps self' = steps self + k
      /\ calls self' = calls self + k.
Proof.
  induction k as [|k IH]; intros self fuel Hq Hst Hnot Hfin Hfuel.
  - destruct fuel as [|fuel]; [lia|]. cbn [controller_loop].
    change (simulation_has_finished (Sim self) = true) in Hfin. rewrite Hfin.
    exists self. repeat split; lia.
  - destruct fuel as [|fuel]; [lia|]. cbn [controller_loop].
    assert (H0 : simulation_has_finished (Sim self) = false) by (apply (Hnot 0); lia).
    rewrite H0.
    destruct (quiet_body arrivals self Hq) as [Hq1 Hst1].
    destruct (loop_body_state arrivals self) as (Hcalls & Hbrk & Hrun & _).
    destruct (body' arrivals self) as [brk self1]. cbn [fst snd] in *.
    rewrite Hst1, Hst in Hbrk, Hrun. cbn in Hbrk. subst brk.
    destruct (Hrun eq_refl) as [HS Hsteps].
    destruct (IH self1 fuel) as (self' & Hloop & HS' & Hsteps' & Hcalls').
    + exact Hq1.
    + now rewrite Hst1.
    + intros j Hj. rewrite HS, <- Nat.iter_succ_r. apply Hnot. lia.
    + now rewrite HS, <- Nat.iter_succ_r.
    + lia.
    + exists self'. split; [exact Hloop|].
      rewrite HS', HS, <- Nat.iter_succ_r. repeat split; lia.
Qed.

(** X16.  A paused run waits.  When the state of the callback is "paused", no
    message reaches it and the simulation has not finished, the loop is
    never left: after any number of iterations it is still running, has
    called the callback once per iteration, and has neither taken a step
    nor touched [Sim]. *)
Theorem paused_run_waits (arrivals : schedule) (fuel : nat) :
  forall self : controller',
    quiet arrivals (MyCallBack self) ->
    simulation_state (MyCallBack self) = "paused" ->
    simulation_has_finished (Sim self) = false ->
    exists self',
      loop' fuel arrivals self = (OutOfFuel, self')
      /\ Sim self' = Sim self
      /\ steps self' = steps self
      /\ calls self' = calls self + fuel
      /\ simulation_state (MyCallBack self') = "paused".
Proof.
  induction fuel as [|fuel IH]; intros self Hq Hst Hfin.
  - exists self. cbn. repeat split; auto.
  - cbn [controller_loop]. rewrite Hfin.
    destruct (quiet_body arrivals self Hq) as [Hq1 Hst1].
    destruct (loop_body_state arrivals self) as (Hcalls & Hbrk & _ & Hnot).
    destruct (body' arrivals self) as [brk self1]. cbn [fst snd] in *.
    rewrite Hst1, Hst in Hbrk, Hnot. cbn in Hbrk. subst brk.
    destruct Hnot as [HS Hsteps]; [discriminate|].
    destruct (IH self1) as (self' & Hloop & HS' & Hsteps' & Hcalls' & Hst').
    + exact Hq1.
    + now rewrite Hst1.
    + now rewrite HS.
    + exists self'. split; [exact Hloop|]. repeat split; try congruence. lia.
Qed.

End ControllerRuns.

(** ** What a run shows *)

Section Reports.

Import Utilities.
Local Open Scope nat_scope.
Local Open Scope string_scope.
Local Open Scope list_scope.

Lemma temperature_plots_app (l1 l2 : list event) :
  temperature_plots (l1 ++ l2) = temperature_plots l1 + temperature_plots l2.
Proof. unfold temperature_plots. now rewrite filter_app, length_app. Qed.

Lemma heat_flux_plots_app (l1 l2 : list event) :
  heat_flux_plots (l1 ++ l2) = heat_flux_plots l1 + heat_flux_plots l2.
Proof. unfold heat_flux_plots. now rewrite filter_app, length_app. Qed.

(** The reporting part. *)
Lemma Callback_report_spec (ct : Qc) (f : bool) (cb : Callback) :
  let cb' := fst (Callback_report ct f cb) in
  let ev := snd (Callback_report ct f cb) in
  let plot_flux := negb (heat_flux_already_plotted cb) && heat_flux_plot cb in
  call_at cb' = call_at cb
  /\ temperature_plot cb' = temperature_plot cb
  /\ heat_flux_plot cb' = heat_flux_plot cb
  /\ not_replot_heatflux cb' = not_replot_heatflux cb
  /\ (reports ct f cb = true ->
      last_call cb' = (last_call cb + call_at cb)%Qc
      /\ temperature_plots ev = (if temperature_plot cb then 1 else 0)
      /\ heat_flux_plots ev = (if plot_flux then 1 else 0)
      /\ heat_flux_already_plotted cb'
         = (if plot_flux && not_replot_heatflux cb then true
            else heat_flux_already_plotted cb))
  /\ (reports ct f cb = false ->
      last_call cb' = last_call cb
      /\ temperature_plots ev = 0
      /\ heat_flux_plots ev = 0
      /\ heat_flux_already_plotted cb' = heat_flux_already_plotted cb)
  /\ forall b, In (HeatFluxPlot b) ev -> b = negb (not_replot_heatflux cb).
Proof.
  cbv zeta. unfold Callback_report, reports.
  destruct ((if Qclt_le_dec (last_call cb + call_at cb) ct then true else false) || f).
  - cbn [fst snd call_at temperature_plot heat_flux_plot not_replot_heatflux
         last_call heat_flux_already_plotted].
    split; [reflexivity|]. split; [reflexivity|]. split; [reflexivity|].
    split; [reflexivity|]. split; [|split; [discriminate|]].
    + intros _. split; [reflexivity|].
      rewrite temperature_plots_app, heat_flux_plots_app.
      destruct (temperature_plot cb),
               (negb (heat_flux_already_plotted cb) && heat_flux_plot cb);
        repeat split; reflexivity.
    + intros b Hin. apply in_app_or in Hin.
      destruct (temperature_plot cb),
               (negb (heat_flux_already_plotted cb) && heat_flux_plot cb);
        cbn in Hin; intuition (try discriminate); congruence.
  - cbn [fst snd]. repeat split; try reflexivity; try discriminate.
    intros b [].
Qed.

(** Polling and the progress signal show no plot and leave the
    reporting fields alone. *)
Lemma Callback_poll_spec (cb : Callback) :
  let cb' := fst (Callback_poll cb) in
  let ev := snd (Callback_poll cb) in
  call_at cb' = call_at cb
  /\ last_call cb' = last_call cb
  /\ temperature_plot cb' = temperature_plot cb
  /\ heat_flux_plot cb' = heat_flux_plot cb
  /\ not_replot_heatflux cb' = not_replot_heatflux cb
  /\ heat_flux_already_plotted cb' = heat_flux_already_plotted cb
  /\ temperature_plots ev = 0
  /\ heat_flux_plots ev = 0
  /\ forall b, ~ In (HeatFluxPlot b) ev.
Proof.
  cbv zeta. unfold Callback_poll.
  destruct (queue cb) as [[|msg rest]|]; cbn [fst snd call_at last_call
    temperature_plot heat_flux_plot not_replot_heatflux heat_flux_already_plotted];
    repeat split; try reflexivity; intros b Hin; cbn in Hin;
    intuition discriminate.
Qed.

Lemma Callback_emit_spec (cb : Callback) :
  temperature_plots (Callback_emit cb) = 0
  /\ heat_flux_plots (Callback_emit cb) = 0
  /\ forall b, ~ In (HeatFluxPlot b) (Callback_emit cb).
Proof.
  unfold Callback_emit. destruct (progress_callback cb);
    repeat split; try reflexivity; intros b Hin; cbn in Hin; intuition discriminate.
Qed.

(** What one call of the callback reports. *)
Lemma Callback_call_report (ct : Qc) (f : bool) (cb : Callback) :
  let cb' := snd (fst (Callback_call ct f cb)) in
  let ev := snd (Callback_call ct f cb) in
  let plot_flux := negb (heat_flux_already_plotted cb) && heat_flux_plot cb in
  call_at cb' = call_at cb
  /\ temperature_plot cb' = temperature_plot cb
  /\ heat_flux_plot cb' = heat_flux_plot cb
  /\ not_replot_heatflux cb' = not_replot_heatflux cb
  /\ (reports ct f cb = true ->
      last_call cb' = (last_call cb + call_at cb)%Qc
      /\ temperature_plots ev = (if temperature_plot cb then 1 else 0)
      /\ heat_flux_plots ev = (if plot_flux then 1 else 0)
      /\ heat_flux_already_plotted cb'
         = (if plot_flux && not_replot_heatflux cb then true
            else heat_flux_already_plotted cb))
  /\ (reports ct f cb = false ->
      last_call cb' = last_call cb
      /\ temperature_plots ev = 0
      /\ heat_flux_plots ev = 0
      /\ heat_flux_already_plotted cb' = heat_flux_already_plotted cb)
  /\ forall b, In (HeatFluxPlot b) ev -> b = negb (not_replot_heatflux cb).
Proof.
  cbv zeta. unfold Callback_call.
  pose proof (Callback_report_spec ct f cb) as Hr. cbv zeta in Hr.
  destruct (Callback_report ct f cb) as [cb1 ev1]. cbn [fst snd] in Hr.
  pose proof (Callback_poll_spec cb1) as Hp. cbv zeta in Hp.
  destruct (Callback_poll cb1) as [cb2 ev2]. cbn [fst snd] in *.
  destruct (Callback_emit_spec cb2) as (He1 & He2 & He3).
  destruct Hr as (R1 & R2 & R3 & R4 & R5 & R6 & R7).
  destruct Hp as (P1 & P2 & P3 & P4 & P5 & P6 & P7 & P8 & P9).
  rewrite !temperature_plots_app, !heat_flux_plots_app, P7, P8, He1, He2, !Nat.add_0_r.
  rewrite P1, P2, P3, P4, P5, P6.
  split; [exact R1|]. split; [exact R2|]. split; [exact R3|]. split; [exact R4|].
  split; [exact R5|]. split; [exact R6|].
  intros b Hin. apply in_app_or in Hin. destruct Hin as [Hin|Hin]; [now apply R7|].
  apply in_app_or in Hin. destruct Hin as [Hin|Hin]; [now apply P9 in Hin|].
  now apply He3 in Hin.
Qed.

Variable SimT : Type.
Variable current_t : SimT -> Qc.
Variable simulation_has_finished : SimT -> bool.
Variable evaluate_one_step : SimT -> SimT.
Variable calculate_final_error : SimT -> Qc.

(** The log of one iteration: what the callback showed, followed by
    lines that are no plot. *)
Lemma loop_body_log (arrivals : schedule) (self : SimulationController SimT) :
  let r := Callback_call (current_t (Sim self)) false
             (gui_put (arrivals (calls self)) (MyCallBack self)) in
  let self' := snd (loop_body current_t evaluate_one_step arrivals self) in
  MyCallBack self' = snd (fst r)
  /\ exists extra,
       log self' = log self ++ snd r ++ extra
       /\ temperature_plots extra = 0
       /\ heat_flux_plots extra = 0
       /\ forall b, ~ In (HeatFluxPlot b) extra.
Proof.
  cbv zeta. unfold loop_body, call_MyCallBack.
  destruct (Callback_call _ _ _) as [[st cb'] ev]. cbn [fst snd].
  destruct (String.eqb st "running");
    [|destruct (String.eqb st "paused"); [|destruct (String.eqb st "stopped")]];
    cbn [snd MyCallBack log do_step do_log]; (split; [reflexivity|]).
  - exists []. rewrite app_nil_r. repeat split; auto.
  - exists [Sleep]. rewrite app_assoc. repeat split; auto.
    intros b Hin; cbn in Hin; intuition discriminate.
  - exists [Print "stopping"]. rewrite app_assoc. repeat split; auto.
    intros b Hin; cbn in Hin; intuition discriminate.
  - exists []. rewrite app_nil_r. repeat split; auto.
Qed.

End Reports.

Section ReportTheorems.

Import Utilities.
Local Open Scope nat_scope.
Local Open Scope string_scope.
Local Open Scope list_scope.

Variable SimT : Type.
Variable current_t : SimT -> Qc.
Variable simulation_has_finished : SimT -> bool.
Variable evaluate_one_step : SimT -> SimT.
Variable calculate_final_error : SimT -> Qc.

Abbreviation loop'' :=
  (controller_loop current_t simulation_has_finished evaluate_one_step).
Abbreviation complete'' :=
  (complete_simulation current_t simulation_has_finished evaluate_one_step
     calculate_final_error).

Lemma loop_reports (arrivals : schedule) (tmax : Qc) (fuel : nat) :
  forall (self : SimulationController SimT) (p : nat),
    (0 < call_at (MyCallBack self))%Qc ->
    temperature_plot (MyCallBack self) = true ->
    (forall j, (current_t (Nat.iter j evaluate_one_step (Sim self)) <= tmax)%Qc) ->
    temperature_plots (log self) = p ->
    last_call (MyCallBack self) = (qn p * call_at (MyCallBack self))%Qc ->
    (p = 0 \/ (last_call (MyCallBack self) < tmax)%Qc) ->
    let self' := snd (loop'' fuel arrivals self) in
    let m := temperature_plots (log self') in
    last_call (MyCallBack self') = (qn m * call_at (MyCallBack self))%Qc
    /\ (m = 0 \/ (qn m * call_at (MyCallBack self) < tmax)%Qc).
Proof.
  induction fuel as [|fuel IH]; intros self p Hpos Hplot Hbound Hp Hlast Hlim;
    cbv zeta; cbn [controller_loop].
  - cbn [snd]. rewrite Hp. split; [exact Hlast|].
    destruct Hlim as [->|Hlim]; [now left|right; now rewrite <- Hlast].
  - destruct (simulation_has_finished (Sim self)).
    { cbn [snd]. rewrite Hp. split; [exact Hlast|].
      destruct Hlim as [->|Hlim]; [now left|right; now rewrite <- Hlast]. }
    destruct (loop_body_log SimT current_t evaluate_one_step arrivals self)
      as (Hcb & extra & Hlog & Hx1 & _).
    destruct (loop_body_Sim current_t evaluate_one_step arrivals self)
      as (_ & _ & _ & Hrun & Hnot).
    pose proof (Callback_call_report (current_t (Sim self)) false
                  (gui_put (arrivals (calls self)) (MyCallBack self))) as Hr.
    cbv zeta in Hr.
    destruct (Callback_call (current_t (Sim self)) false
                (gui_put (arrivals (calls self)) (MyCallBack self)))
      as [[st cb'] ev].
    cbn [fst snd] in *.
    destruct Hr as (R1 & R2 & _ & _ & Hyes & Hno & _).
    unfold reports in Hyes, Hno. rewrite orb_false_r in Hyes, Hno.
    change (call_at (gui_put (arrivals (calls self)) (MyCallBack self)))
      with (call_at (MyCallBack self)) in *.
    change (last_call (gui_put (arrivals (calls self)) (MyCallBack self)))
      with (last_call (MyCallBack self)) in *.
    change (temperature_plot (gui_put (arrivals (calls self)) (MyCallBack self)))
      with (temperature_plot (MyCallBack self)) in *.
    assert (Hbound1 : forall self1 : SimulationController SimT,
              Sim self1 = evaluate_one_step (Sim self) \/ Sim self1 = Sim self ->
              forall j, (current_t (Nat.iter j evaluate_one_step (Sim self1)) <= tmax)%Qc).
    { intros self1 [E|E] j; rewrite E; [|apply Hbound].
      rewrite <- Nat.iter_succ_r. apply Hbound. }
    assert (HSim : Sim (snd (loop_body current_t evaluate_one_step arrivals self))
                   = evaluate_one_step (Sim self)
                   \/ Sim (snd (loop_body current_t evaluate_one_step arrivals self))
                      = Sim self).
    { destruct (string_dec st "running") as [E|E];
        [left; apply (Hrun E)|right; apply (Hnot E)]. }
    destruct (loop_body current_t evaluate_one_step arrivals self) as [brk self1].
    cbn [fst snd] in *.
    assert (Hfinal :
      forall p1,
        temperature_plots (log self1) = p1 ->
        last_call (MyCallBack self1) = (qn p1 * call_at (MyCallBack self))%Qc ->
        (p1 = 0 \/ (last_call (MyCallBack self1) < tmax)%Qc) ->
        last_call (MyCallBack (snd (if brk then (STOPPED, self1)
                                    else loop'' fuel arrivals self1)))
        = (qn (temperature_plots
                 (log (snd (if brk then (STOPPED, self1)
                            else loop'' fuel arrivals self1))))
           * call_at (MyCallBack self))%Qc
        /\ (temperature_plots
              (log (snd (if brk then (STOPPED, self1)
                         else loop'' fuel arrivals self1))) = 0
            \/ (qn (temperature_plots
                      (log (snd (if brk then (STOPPED, self1)
                                 else loop'' fuel arrivals self1))))
                * call_at (MyCallBack self) < tmax)%Qc)).
    { intros p1 Hp1 Hlast1 Hlim1. destruct brk.
      - cbn [snd]. rewrite Hp1. split; [exact Hlast1|].
        destruct Hlim1 as [->|Hlim1]; [now left|right; now rewrite <- Hlast1].
      - specialize (IH self1 p1). cbv zeta in IH.
        rewrite Hcb, R1 in IH. apply IH; auto.
        + now rewrite R2.
        + rewrite <- Hcb. exact Hlast1.
        + rewrite <- Hcb. exact Hlim1. }
    destruct (Qclt_le_dec (last_call (MyCallBack self) + call_at (MyCallBack self))
                (current_t (Sim self))) as [Hdue|Hnotdue].
    + destruct (Hyes eq_refl) as (Y1 & Y2 & _).
      rewrite Hplot in Y2.
      apply (Hfinal (S p)).
      * rewrite Hlog, !temperature_plots_app, Hp, Y2, Hx1. lia.
      * rewrite Hcb, Y1, Hlast, qn_S. ring.
      * right. rewrite Hcb, Y1.
        eapply Qclt_le_trans; [exact Hdue|]. apply (Hbound 0).
    + destruct (Hno eq_refl) as (N1 & N2 & _).
      apply (Hfinal p).
      * rewrite Hlog, !temperature_plots_app, Hp, N2, Hx1. lia.
      * now rewrite Hcb, N1.
      * destruct Hlim as [->|Hlim]; [now left|right].
        now rewrite Hcb, N1.
Qed.

(** X17.  Reports are rate-limited.  Take a controller with a temperature
    plot, a positive reporting period [call_at], no report made yet
    ([last_call = 0], empty log), and a simulation whose time never
    exceeds [tmax].  After any number of iterations of the loop,
    whatever the number of steps and whatever arrives on the queue: with
    [m] the number of times the temperature plot has been drawn,
    [last_call = m * call_at], and [m * call_at < tmax] unless [m = 0]:
    there is at most one report per period of simulated time. *)
Theorem reports_are_rate_limited
    (arrivals : schedule) (fuel : nat) (self : SimulationController SimT)
    (tmax : Qc) :
  (0 < call_at (MyCallBack self))%Qc ->
  temperature_plot (MyCallBack self) = true ->
  last_call (MyCallBack self) = 0%Qc ->
  log self = [] ->
  (forall j, (current_t (Nat.iter j evaluate_one_step (Sim self)) <= tmax)%Qc) ->
  let self' := snd (loop'' fuel arrivals self) in
  let m := temperature_plots (log self') in
  last_call (MyCallBack self') = (qn m * call_at (MyCallBack self))%Qc
  /\ (m = 0 \/ (qn m * call_at (MyCallBack self) < tmax)%Qc).
Proof.
  intros Hpos Hplot Hlast Hlog Hbound.
  apply (loop_reports arrivals tmax fuel self 0); auto.
  - now rewrite Hlog.
  - rewrite Hlast, qn_0. ring.
Qed.

End ReportTheorems.

Section HeatFluxPlot.

Import Utilities.
Local Open Scope nat_scope.
Local Open Scope string_scope.
Local Open Scope list_scope.

Variable SimT : Type.
Variable current_t : SimT -> Qc.
Variable simulation_has_finished : SimT -> bool.
Variable evaluate_one_step : SimT -> SimT.
Variable calculate_final_error : SimT -> Qc.

(** With [not_replot_heatflux], the heat flux plot has been drawn once
    exactly when the callback has marked it as done. *)
Let plotted_once (cb : Callback) (log : list event) : Prop :=
  heat_flux_plot cb = true
  /\ not_replot_heatflux cb = true
  /\ ((heat_flux_already_plotted cb = false /\ heat_flux_plots log = 0)
      \/ (heat_flux_already_plotted cb = true /\ heat_flux_plots log = 1))
  /\ forall b, In (HeatFluxPlot b) log -> b = false.

Lemma plotted_once_call (ct : Qc) (f : bool) (cb : Callback) (msgs : list string)
    (log extra : list event) :
  plotted_once cb log ->
  heat_flux_plots extra = 0 ->
  (forall b, ~ In (HeatFluxPlot b) extra) ->
  let r := Callback_call ct f (gui_put msgs cb) in
  plotted_once (snd (fst r)) (log ++ snd r ++ extra)
  /\ (f = true ->
      heat_flux_already_plotted (snd (fst r)) = true
      /\ heat_flux_plots (log ++ snd r ++ extra) = 1).
Proof.
  intros (Hp & Hn & Hcount & Hall) Hx Hxin. cbv zeta.
  pose proof (Callback_call_report ct f (gui_put msgs cb)) as Hr. cbv zeta in Hr.
  destruct (Callback_call ct f (gui_put msgs cb)) as [[st cb'] ev].
  cbn [fst snd] in *.
  destruct Hr as (_ & _ & R3 & R4 & Hyes & Hno & Hin).
  change (heat_flux_plot (gui_put msgs cb)) with (heat_flux_plot cb) in *.
  change (not_replot_heatflux (gui_put msgs cb)) with (not_replot_heatflux cb) in *.
  change (heat_flux_already_plotted (gui_put msgs cb))
    with (heat_flux_already_plotted cb) in *.
  rewrite Hp, Hn in *. cbn [negb] in Hin.
  assert (Hall' : forall b, In (HeatFluxPlot b) (log ++ ev ++ extra) -> b = false).
  { intros b Hb. apply in_app_or in Hb. destruct Hb as [Hb|Hb]; [now apply Hall|].
    apply in_app_or in Hb. destruct Hb as [Hb|Hb]; [now apply Hin|].
    now apply Hxin in Hb. }
  assert (Hsum : heat_flux_plots (log ++ ev ++ extra)
                 = heat_flux_plots log + heat_flux_plots ev)
    by (rewrite !heat_flux_plots_app, Hx; lia).
  unfold plotted_once. rewrite Hsum, R3, R4.
  destruct (reports ct f (gui_put msgs cb)) eqn:Hrep.
  - destruct (Hyes eq_refl) as (_ & _ & Y3 & Y4).
    assert (Hdone : heat_flux_already_plotted cb' = true
                    /\ heat_flux_plots log + heat_flux_plots ev = 1).
    { destruct Hcount as [[Ha Hc]|[Ha Hc]]; rewrite Ha in Y3, Y4; cbn in Y3, Y4;
        (split; [exact Y4|lia]). }
    destruct Hdone as [Hd1 Hd2].
    split; [|intros _; auto].
    split; [reflexivity|]. split; [reflexivity|]. split; [right; auto|exact Hall'].
  - destruct (Hno eq_refl) as (_ & _ & N3 & N4).
    split.
    + split; [reflexivity|]. split; [reflexivity|]. split; [|exact Hall'].
      rewrite N4, N3, Nat.add_0_r. exact Hcount.
    + intros ->. unfold reports in Hrep. rewrite orb_true_r in Hrep. discriminate.
Qed.

Lemma loop_plotted_once (arrivals : schedule) (fuel : nat) :
  forall self : SimulationController SimT,
    plotted_once (MyCallBack self) (log self) ->
    let self' := snd (controller_loop current_t simulation_has_finished
                        evaluate_one_step fuel arrivals self) in
    plotted_once (MyCallBack self') (log self').
Proof.
  induction fuel as [|fuel IH]; intros self HK; cbv zeta; cbn [controller_loop].
  - exact HK.
  - destruct (simulation_has_finished (Sim self)); [exact HK|].
    destruct (loop_body_log SimT current_t evaluate_one_step arrivals self)
      as (Hcb & extra & Hlog & _ & Hx & Hxin).
    pose proof (plotted_once_call (current_t (Sim self)) false (MyCallBack self)
                  (arrivals (calls self)) (log self) extra HK Hx Hxin) as [HK1 _].
    cbv zeta in HK1. rewrite <- Hcb, <- Hlog in HK1.
    destruct (loop_body current_t evaluate_one_step arrivals self) as [brk self1].
    cbn [snd] in *.
    destruct brk; [exact HK1|]. now apply IH.
Qed.

(** X18.  With [not_replot_heatflux] the heat flux is plotted once per run.
    Take a controller with a heat flux plot and [not_replot_heatflux],
    before its first report.  When [complete_simulation] returns, however
    the loop was left and whatever arrived on the queue, the heat flux
    plot has been drawn exactly once, without simulated values (only the
    experimental data are plotted), and the callback has it marked as
    done. *)
Theorem heat_flux_is_plotted_once
    (arrivals : schedule) (fuel : nat) (self self' : SimulationController SimT)
    (ex : loop_exit) (e : Qc) :
  heat_flux_plot (MyCallBack self) = true ->
  not_replot_heatflux (MyCallBack self) = true ->
  heat_flux_already_plotted (MyCallBack self) = false ->
  log self = [] ->
  complete_simulation current_t simulation_has_finished evaluate_one_step
    calculate_final_error fuel arrivals self = Some (ex, e, self') ->
  heat_flux_plots (log self') = 1
  /\ (forall b, In (HeatFluxPlot b) (log self') -> b = false)
  /\ heat_flux_already_plotted (MyCallBack self') = true.
Proof.
  intros Hp Hn Ha Hlog Hrun.
  assert (HK : plotted_once (MyCallBack self) (log self)).
  { unfold plotted_once. split; [exact Hp|]. split; [exact Hn|].
    split; [left; split; [exact Ha|now rewrite Hlog]|].
    rewrite Hlog. intros b []. }
  pose proof (loop_plotted_once arrivals fuel self HK) as HK1. cbv zeta in HK1.
  unfold complete_simulation in Hrun.
  destruct (controller_loop current_t simulation_has_finished evaluate_one_step
              fuel arrivals self) as [ex1 self1].
  cbn [snd] in HK1.
  assert (Hafter : Some (ex1, fst (after_loop current_t calculate_final_error
                                     arrivals self1),
                         snd (after_loop current_t calculate_final_error
                                arrivals self1))
                   = Some (ex, e, self')).
  { destruct ex1; try discriminate;
      destruct (after_loop current_t calculate_final_error arrivals self1);
      exact Hrun. }
  clear Hrun. inversion Hafter; subst ex e self'. clear Hafter.
  unfold after_loop, call_MyCallBack.
  pose proof (plotted_once_call (current_t (Sim self1)) true (MyCallBack self1)
                (arrivals (calls self1)) (log self1)
                ([Print "Error norm"] ++ (if save_results self1 then [SaveCsv] else []))
                HK1) as Hcall.
  cbv zeta in Hcall.
  destruct (Callback_call (current_t (Sim self1)) true
              (gui_put (arrivals (calls self1)) (MyCallBack self1)))
    as [[st cb'] ev].
  cbn [fst snd MyCallBack log save_results] in *.
  destruct Hcall as [(_ & _ & _ & Hall) Hforced].
  - now destruct (save_results self1).
  - intros b Hin. destruct (save_results self1); cbn in Hin; intuition discriminate.
  - destruct (Hforced eq_refl) as [Hdone Hcount].
    rewrite <- !app_assoc in *. cbn [app] in *.
    repeat split; assumption.
Qed.

End HeatFluxPlot.

(** ** Saving the results *)

Section SaveResults.

Import Utilities.
Local Open Scope nat_scope.
Local Open Scope string_scope.
Local Open Scope list_scope.

Lemma read_write_same (name : string) (rows : list csv_row) (fs : files) :
  read_file name (write_file name rows fs) = Some rows.
Proof.
  unfold read_file, write_file. cbn [find fst]. now rewrite String.eqb_refl.
Qed.

Lemma read_write_other (name other : string) (rows : list csv_row) (fs : files) :
  other <> name ->
  read_file other (write_file name rows fs) = read_file other fs.
Proof.
  intros Hne. unfold read_file, write_file. cbn [find fst].
  assert (E : String.eqb name other = false)
    by (apply String.eqb_neq; congruence).
  rewrite E. f_equal.
  induction fs as [|[n r] fs IH]; [reflexivity|].
  cbn [filter find fst].
  destruct (String.eqb n name) eqn:E1; cbn [negb].
  - apply String.eqb_eq in E1. subst n. rewrite E. exact IH.
  - cbn [find fst]. destruct (String.eqb n other); [reflexivity|exact IH].
Qed.

Lemma write_file_once (name : string) (rows : list csv_row) (fs : files) :
  length (filter (fun f => String.eqb (fst f) name) (write_file name rows fs)) = 1.
Proof.
  unfold write_file. cbn [filter fst]. rewrite String.eqb_refl. cbn [length].
  f_equal.
  induction fs as [|[n r] fs IH]; [reflexivity|].
  cbn [filter fst]. destruct (String.eqb n name) eqn:E; cbn [negb]; [exact IH|].
  cbn [filter fst]. now rewrite E.
Qed.

Lemma nth_combine_lt {A B} (l : list A) (l' : list B) (i : nat) (a : A) (b : B) :
  i < Nat.min (length l) (length l') ->
  nth i (combine l l') (a, b) = (nth i l a, nth i l' b).
Proof.
  revert l' i. induction l as [|x l IH]; intros [|y l'] i Hi; cbn in Hi; try lia.
  destruct i as [|i]; [reflexivity|]. cbn [combine nth]. apply IH. lia.
Qed.

Variable SimT : Type.
Variable Sim_getattr : SimT -> string -> option (list Qc).

(** X19.  What [_save_results_to_csv_file] writes.  When [Sim] has the two
    attributes named by [time_data_location] and
    [quantity_data_location], the call returns and the file named
    [<algorithm>-<whole seconds of the clock>.csv] then holds the header
    row [Time [s], <quantity_and_unit>] followed by one row
    [time[i], quantity[i]] for every index both sequences have (the longer
    sequence is cut, as [zip] does); what a file of that name held before
    is gone and every other file is as it was.  When one of the two
    attributes is missing, the call raises [AttributeError] (and this
    before the file is opened). *)
Theorem saved_file_has_one_row_per_common_sample
    (algorithm time_data_location quantity_data_location quantity_and_unit : string)
    (Sim : SimT) (now : Qc) (fs : files) :
  let save := _save_results_to_csv_file Sim_getattr algorithm time_data_location
                quantity_data_location quantity_and_unit Sim now in
  let name := csv_file_name algorithm now in
  match Sim_getattr Sim time_data_location,
        Sim_getattr Sim quantity_data_location with
  | Some time_data, Some quantity_data =>
      exists fs' rows,
        save fs = Ok (tt, fs')
        /\ read_file name fs'
           = Some ([Text "Time [s]"; Text quantity_and_unit] :: rows)
        /\ length rows = Nat.min (length time_data) (length quantity_data)
        /\ (forall i, i < length rows ->
              nth i rows []
              = [Number (nth i time_data 0%Qc); Number (nth i quantity_data 0%Qc)])
        /\ (forall other, other <> name -> read_file other fs' = read_file other fs)
  | _, _ => save fs = Raise "AttributeError"
  end.
Proof.
  cbv zeta. unfold _save_results_to_csv_file.
  destruct (Sim_getattr Sim time_data_location) as [ts|]; [|reflexivity].
  destruct (Sim_getattr Sim quantity_data_location) as [qs|]; [|reflexivity].
  eexists. eexists. split; [reflexivity|].
  split; [apply read_write_same|].
  split; [now rewrite length_map, length_combine|].
  split; [|intros other Hne; now apply read_write_other].
  intros i Hi. rewrite length_map in Hi.
  rewrite (nth_indep _ [] ((fun p => [Number (fst p); Number (snd p)]) (0%Qc, 0%Qc)))
    by (now rewrite length_map).
  rewrite (map_nth (fun p => [Number (fst p); Number (snd p)])).
  rewrite length_combine in Hi.
  now rewrite nth_combine_lt by lia.
Qed.

(** X20.  Two saves within one second of the clock leave one file.  When a
    controller saves twice for the same [algorithm] at times of the clock
    with the same whole number of seconds, both calls use one file name:
    after the second call there is one file of that name and it holds the
    rows of the second call only. *)
Theorem saves_within_one_second_overwrite
    (algorithm tloc qloc unit1 tloc2 qloc2 unit2 : string)
    (Sim1 Sim2 : SimT) (now1 now2 : Qc) (fs : files)
    (ts1 qs1 ts2 qs2 : list Qc) :
  py_int now1 = py_int now2 ->
  Sim_getattr Sim1 tloc = Some ts1 -> Sim_getattr Sim1 qloc = Some qs1 ->
  Sim_getattr Sim2 tloc2 = Some ts2 -> Sim_getattr Sim2 qloc2 = Some qs2 ->
  exists fs1 fs2,
    _save_results_to_csv_file Sim_getattr algorithm tloc qloc unit1 Sim1 now1 fs
    = Ok (tt, fs1)
    /\ _save_results_to_csv_file Sim_getattr algorithm tloc2 qloc2 unit2 Sim2 now2 fs1
       = Ok (tt, fs2)
    /\ csv_file_name algorithm now2 = csv_file_name algorithm now1
    /\ read_file (csv_file_name algorithm now1) fs2
       = Some ([Text "Time [s]"; Text unit2]
               :: map (fun p => [Number (fst p); Number (snd p)]) (combine ts2 qs2))
    /\ length (filter (fun f => String.eqb (fst f) (csv_file_name algorithm now1)) fs2)
       = 1.
Proof.
  intros Hsec H1 H2 H3 H4.
  unfold _save_results_to_csv_file. rewrite H1, H2, H3, H4.
  assert (Hname : csv_file_name algorithm now2 = csv_file_name algorithm now1)
    by (unfold csv_file_name; now rewrite Hsec).
  eexists. eexists. split; [reflexivity|]. split; [reflexivity|].
  split; [exact Hname|]. rewrite Hname.
  split; [apply read_write_same|apply write_file_once].
Qed.

End SaveResults.

(** ** Examples for the further properties *)

Section FurtherExamples.
Import NumericalForward.
Local Open Scope string_scope.
Local Open Scope list_scope.

(** Finite temperatures on the two-element example with a heat flux. *)
Lemma forward_temperatures_stay_finite_witness :
  exists sim h0 exited w' cb',
    Simulation_init 1 {| rho := qz 6; cp := 1; lmbd := 1 |} 2
      (fun _ => qz 3) (fun _ => qz 21) (qz 5) empty_store = Ok (sim, h0)
    /\ ForwardSimulation (fun (c : unit) _ => c) 2 (Q2Qc (1 # 2)) (qz 20) 1 0 (qz 5)
         ({| Sim := sim; heap := h0 |}, None)
       = Ok (exited, (w', cb'))
    /\ finite_array 3 (load_array (T (Sim w')) (heap w'))
    /\ Forall (fun l => finite_array 3 (load_array l (heap w'))) (T_record (Sim w')).
Proof.
  apply (forward_temperatures_stay_finite 1 {| rho := qz 6; cp := 1; lmbd := 1 |} 2
           1 (Q2Qc (1 # 2))).
  - lia.
  - reflexivity.
  - reflexivity.
  - reflexivity.
  - reflexivity.
  - reflexivity.
  - vm_compute. discriminate.
  - vm_compute. discriminate.
Defined.

(** A step of zero: the loop is still running after three iterations. *)
Lemma forward_simulation_needs_positive_dt_witness :
  exists sim h0 w' cb',
    Simulation_init 1 {| rho := qz 6; cp := 1; lmbd := 1 |} 2
      (fun _ => 0) (fun _ => qz 21) (qz 5) empty_store = Ok (sim, h0)
    /\ ForwardSimulation (fun (c : unit) _ => c) 3 (Q2Qc (1 # 2)) (qz 21) 0 0 (qz 5)
         ({| Sim := sim; heap := h0 |}, None)
       = Ok (false, (w', cb')).
Proof.
  apply forward_simulation_needs_positive_dt.
  - lia.
  - vm_compute. discriminate.
  - vm_compute. discriminate.
  - reflexivity.
Defined.

(** The heat balance of the first step of the heated example. *)
Lemma step_heat_balance_witness :
  exists l w' x,
    EvaluateNewStep 1 (Q2Qc (1 # 2)) heated_world = Ok (l, w')
    /\ load_array l (heap w') = Arr x
    /\ let Mv := assembled_M 1 {| rho := qz 6; cp := 1; lmbd := 1 |} 2 in
       total (mat_vec Mv x) - total (mat_vec Mv [qz 20; qz 20; qz 20])
       = 1 * ((1 - Q2Qc (1 # 2)) * qz 3 + Q2Qc (1 # 2) * qz 3)
         - 1 * qz 5 * ((1 - Q2Qc (1 # 2)) * (qz 20 - qz 21)
                       + Q2Qc (1 # 2) * (nth 2 x 0 - qz 21)).
Proof.
  destruct (EvaluateNewStep 1 (Q2Qc (1 # 2)) heated_world) as [[l w']|e] eqn:Hrun.
  - destruct (load_array l (heap w')) as [x|n] eqn:Hx.
    + exists l, w', x. split; [reflexivity|]. split; [exact Hx|].
      apply (step_heat_balance 1 {| rho := qz 6; cp := 1; lmbd := 1 |} 2
               heated_world w' 1 (Q2Qc (1 # 2)) 0 [qz 20; qz 20; qz 20] x l).
      * lia.
      * unfold assembled, well_shaped, square. vm_compute.
        repeat split; try lia; repeat constructor.
      * vm_compute. reflexivity.
      * vm_compute. reflexivity.
      * exact Hrun.
      * exact Hx.
    + exfalso. vm_compute in Hrun. inversion Hrun; subst l w'.
      vm_compute in Hx. discriminate.
  - exfalso. vm_compute in Hrun. discriminate.
Defined.

(** The first step of the heated example, in degrees and with every
    temperature raised by 273. *)
Lemma step_commutes_with_temperature_offset_witness :
  exists l1 w1' x l2 w2',
    EvaluateNewStep 1 (Q2Qc (1 # 2)) heated_world = Ok (l1, w1')
    /\ load_array l1 (heap w1') = Arr x
    /\ EvaluateNewStep 1 (Q2Qc (1 # 2)) heated_world_kelvin = Ok (l2, w2')
    /\ load_array l2 (heap w2') = Arr (offset (qz 273) x).
Proof.
  destruct (EvaluateNewStep 1 (Q2Qc (1 # 2)) heated_world) as [[l1 w1']|e] eqn:Hrun.
  - destruct (load_array l1 (heap w1')) as [x|n] eqn:Hx.
    + destruct (step_commutes_with_temperature_offset
                  1 {| rho := qz 6; cp := 1; lmbd := 1 |} 2
                  heated_world heated_world_kelvin w1' 1 (Q2Qc (1 # 2)) 0 (qz 273)
                  [qz 20; qz 20; qz 20] x l1)
        as (l2 & w2' & H1 & H2).
      * lia.
      * unfold assembled, well_shaped, square. vm_compute.
        repeat split; try lia; repeat constructor.
      * unfold assembled, well_shaped, square. vm_compute.
        repeat split; try lia; repeat constructor.
      * vm_compute. reflexivity.
      * vm_compute. reflexivity.
      * vm_compute. reflexivity.
      * vm_compute. reflexivity.
      * reflexivity.
      * intros. reflexivity.
      * intros. vm_compute. reflexivity.
      * exact Hrun.
      * exact Hx.
      * exists l1, w1', x, l2, w2'. auto.
    + exfalso. vm_compute in Hrun. inversion Hrun; subst l1 w1'.
      vm_compute in Hx. discriminate.
  - exfalso. vm_compute in Hrun. discriminate.
Defined.

(** The mass matrix of ten elements of steel. *)
Lemma mass_matrix_entries_witness :
  exists sim h0,
    Simulation_init 1 Steel 10 (fun _ => 0) Default_AmbientTemperature (qz 10)
      empty_store = Ok (sim, h0)
    /\ entry (load_matrix (M sim) h0) 0 0
       = dx sim * rho Steel * cp Steel * (qz 4 / qz 6)
    /\ entry (load_matrix (M sim) h0) 0 1
       = dx sim * rho Steel * cp Steel * (qz 1 / qz 6)
    /\ entry (load_matrix (M sim) h0) 0 2 = 0.
Proof.
  destruct (mass_matrix_entries 1 Steel 10 (fun _ => 0) Default_AmbientTemperature
              (qz 10) empty_store)
    as (sim & h0 & Hinit & _ & H).
  - lia.
  - vm_compute. discriminate.
  - exists sim, h0. split; [exact Hinit|].
    split; [apply (H 0%nat 0%nat); vm_compute; lia|].
    split; [apply (H 0%nat 1%nat); vm_compute; lia|].
    apply (H 0%nat 2%nat); vm_compute; lia.
Defined.

(** The stiffness matrix of ten elements of steel applied to a uniform
    temperature of 20. *)
Lemma stiffness_matrix_is_symmetric_and_conservative_witness :
  exists sim h0,
    Simulation_init 1 Steel 10 (fun _ => 0) Default_AmbientTemperature (qz 10)
      empty_store = Ok (sim, h0)
    /\ entry (load_matrix (K sim) h0) 0 1 = entry (load_matrix (K sim) h0) 1 0
    /\ mat_vec (load_matrix (K sim) h0) (repeat (qz 20) 11) = repeat 0 11.
Proof.
  destruct (stiffness_matrix_is_symmetric_and_conservative 1 Steel 10 (fun _ => 0)
              Default_AmbientTemperature (qz 10) empty_store)
    as (sim & h0 & Hinit & _ & Hsym & _ & _ & Hcons).
  - lia.
  - vm_compute. discriminate.
  - exists sim, h0. split; [exact Hinit|].
    split; [apply (Hsym 0%nat 1%nat); vm_compute; lia|].
    apply (Hcons (qz 20)).
Defined.

(** The mesh of a wall of length 2 cut into four elements. *)
Lemma mesh_nodes_are_equally_spaced_witness :
  exists sim h0 xs,
    Simulation_init (qz 2) Steel 4 (fun _ => 0) Default_AmbientTemperature (qz 10)
      empty_store = Ok (sim, h0)
    /\ load_array (x sim) h0 = Arr xs
    /\ length xs = 5%nat
    /\ nth 0 xs 0 = 0
    /\ nth 4 xs 0 = qz 2
    /\ strictly_increasing xs.
Proof.
  destruct (mesh_nodes_are_equally_spaced (qz 2) Steel 4 (fun _ => 0)
              Default_AmbientTemperature (qz 10) empty_store)
    as (sim & h0 & xs & Hinit & Hx & Hlen & _ & _ & H0 & HN & Hinc).
  - lia.
  - vm_compute. discriminate.
  - exists sim, h0, xs. split; [exact Hinit|]. split; [exact Hx|].
    split; [exact Hlen|]. split; [exact H0|]. split; [exact HN|].
    apply Hinc. reflexivity.
Defined.

(** The records of two iterations on the two-element example. *)
Lemma recorded_temperatures_are_separate_arrays_witness :
  exists sim h0 exited w' cb' first rest,
    Simulation_init 1 {| rho := qz 6; cp := 1; lmbd := 1 |} 2
      (fun _ => qz 3) (fun _ => qz 21) (qz 5) empty_store = Ok (sim, h0)
    /\ ForwardSimulation (fun (c : unit) _ => c) 2 (Q2Qc (1 # 2)) (qz 20) 1 0 (qz 5)
         ({| Sim := sim; heap := h0 |}, None)
       = Ok (exited, (w', cb'))
    /\ NoDup (T_record (Sim w'))
    /\ T_record (Sim w') = first :: rest
    /\ last (T_record (Sim w')) 0%nat = T (Sim w')
    /\ load_array first (heap w') = Arr (repeat (qz 20) (Z.to_nat (2 + 1))).
Proof.
  apply recorded_temperatures_are_separate_arrays.
  - lia.
  - vm_compute. discriminate.
Defined.

(** A second run, from 50 degrees, on the heated example. *)
Lemma second_run_overwrites_last_record_witness :
  exists exited w' cb',
    ForwardSimulation (fun (c : unit) _ => c) 2 (Q2Qc (1 # 2)) (qz 50) 1 0 (qz 5)
      (heated_world, None)
    = Ok (exited, (w', cb'))
    /\ nth 0 (T_record (Sim w')) 0%nat = T (Sim heated_world)
    /\ nth 1 (T_record (Sim w')) 0%nat = T (Sim heated_world)
    /\ load_array (T (Sim heated_world)) (heap w') = Arr (repeat (qz 50) 3).
Proof.
  apply (second_run_overwrites_last_record unit (fun c _ => c) 3 heated_world None []
           (Q2Qc (1 # 2)) (qz 50) 1 0 (qz 5) 2).
  - unfold well_shaped, square. vm_compute.
    repeat split; try lia; repeat constructor.
  - vm_compute. reflexivity.
Defined.

(** The default callback on the two-element example. *)
Lemma default_callback_keeps_step_with_the_run_witness :
  exists sim h0 exited w' c' log',
    Simulation_init 1 {| rho := qz 6; cp := 1; lmbd := 1 |} 2
      (fun _ => qz 3) (fun _ => qz 21) (qz 5) empty_store = Ok (sim, h0)
    /\ ForwardSimulation DefaultCallBack_in_loop 2 (Q2Qc (1 # 2)) (qz 20) 1 0 (qz 5)
         ({| Sim := sim; heap := h0 |}, Some (Ok (DefaultCallBack_default, [])))
       = Ok (exited, (w', Some (Ok (c', log'))))
    /\ (length (TempHistoryAtPoint_x0 c') + 1)%nat = length (t (Sim w'))
    /\ length (skipn 1 (t (Sim w'))) = length (TempHistoryAtPoint_x0 c').
Proof.
  apply default_callback_keeps_step_with_the_run.
  - lia.
  - vm_compute. discriminate.
  - reflexivity.
  - reflexivity.
Defined.

Lemma default_callback_history_follows_records_witness :
  exists sim h0 exited w' c' log',
    Simulation_init 1 {| rho := qz 6; cp := 1; lmbd := 1 |} 2
      (fun _ => qz 3) (fun _ => qz 21) (qz 5) empty_store = Ok (sim, h0)
    /\ ForwardSimulation DefaultCallBack_in_loop 2 (Q2Qc (1 # 2)) (qz 20) 1 0 (qz 5)
         ({| Sim := sim; heap := h0 |}, Some (Ok (DefaultCallBack_default, [])))
       = Ok (exited, (w', Some (Ok (c', log'))))
    /\ (length (TempHistoryAtPoint_x0 c') + 1)%nat = length (T_record (Sim w'))
    /\ forall i, (i < length (TempHistoryAtPoint_x0 c'))%nat ->
         np_interp (x0 DefaultCallBack_default) (load_array (x (Sim w')) (heap w'))
           (load_array (nth (S i) (T_record (Sim w')) 0%nat) (heap w'))
         = Ok (nth i (TempHistoryAtPoint_x0 c') None).
Proof.
  apply default_callback_history_follows_records.
  - lia.
  - vm_compute. discriminate.
  - reflexivity.
  - reflexivity.
Defined.


(** The temperature half-way through the second of four elements. *)
Lemma temperature_at_x0_on_the_mesh_witness :
  exists sim h0 v,
    Simulation_init (qz 2) Steel 4 (fun _ => 0) Default_AmbientTemperature (qz 10)
      empty_store = Ok (sim, h0)
    /\ np_interp (Q2Qc (3 # 4)) (load_array (x sim) h0)
         (Arr [qz 10; qz 20; qz 40; qz 40; qz 40]) = Ok (Some v)
    /\ v = qz 30.
Proof.
  destruct (temperature_at_x0_on_the_mesh (qz 2) Steel 4 (fun _ => 0)
              Default_AmbientTemperature (qz 10) empty_store (Q2Qc (3 # 4))
              [qz 10; qz 20; qz 40; qz 40; qz 40])
    as (sim & h0 & v & Hinit & Hv & _ & _ & Hmid).
  - lia.
  - reflexivity.
  - reflexivity.
  - exists sim, h0, v. split; [exact Hinit|]. split; [exact Hv|].
    assert (Hdx : dx sim = qz 2 / qz 4).
    { rewrite Simulation_init_run in Hinit by (lia || (vm_compute; discriminate)).
      injection Hinit as <- _. reflexivity. }
    rewrite Hdx in Hmid. rewrite (Hmid 1%nat).
    + apply Qc_is_canon. vm_compute. reflexivity.
    + vm_compute. lia.
    + vm_compute. discriminate.
    + reflexivity.
Defined.

End FurtherExamples.

Section FurtherControllerExamples.
Import Utilities.
Local Open Scope string_scope.
Local Open Scope list_scope.

(** The example run without any message: four steps, then finished. *)
Lemma run_without_messages_finishes_witness :
  exists self',
    controller_loop example_current_t example_finished example_step 5
      (fun _ => []) example_controller
    = (FINISHED, self')
    /\ Sim self' = Nat.iter 4 example_step [0]
    /\ steps self' = 4%nat
    /\ calls self' = 4%nat.
Proof.
  apply (run_without_messages_finishes (list Qc) example_current_t example_finished
           example_step (fun _ => []) 4 example_controller 5).
  - right. split; [reflexivity|]. intros; reflexivity.
  - reflexivity.
  - intros j Hj. destruct j as [|[|[|[|j]]]]; try lia; reflexivity.
  - reflexivity.
  - lia.
Defined.

(** The paused example: still waiting after three iterations. *)
Lemma paused_run_waits_witness :
  exists self',
    controller_loop example_current_t example_finished example_step 3
      (fun _ => []) example_paused_controller
    = (OutOfFuel, self')
    /\ Sim self' = [0]
    /\ steps self' = 0%nat
    /\ calls self' = 3%nat
    /\ simulation_state (MyCallBack self') = "paused".
Proof.
  apply (paused_run_waits (list Qc) example_current_t example_finished example_step
           (fun _ => []) 3 example_paused_controller).
  - right. split; [reflexivity|]. intros; reflexivity.
  - reflexivity.
  - reflexivity.
Defined.

(** A simulation whose time stays at 3, reported every 2: one report. *)
Lemma reports_are_rate_limited_witness :
  let self' := snd (controller_loop (fun _ : list Qc => qz 3) example_finished
                      example_step 4 (fun _ => []) example_plotting_controller) in
  let m := temperature_plots (log self') in
  last_call (MyCallBack self') = qn m * qz 2
  /\ (m = 0%nat \/ qn m * qz 2 < qz 3).
Proof.
  apply (reports_are_rate_limited (list Qc) (fun _ => qz 3) example_finished
           example_step (fun _ => []) 4 example_plotting_controller (qz 3)).
  - reflexivity.
  - reflexivity.
  - reflexivity.
  - reflexivity.
  - intros j. vm_compute. discriminate.
Defined.

(** The plotting controller, stopped before its second call. *)
Lemma heat_flux_is_plotted_once_witness :
  exists ex e self',
    complete_simulation example_current_t example_finished example_step
      example_error 7 example_schedule example_plotting_controller
    = Some (ex, e, self')
    /\ heat_flux_plots (log self') = 1%nat
    /\ heat_flux_already_plotted (MyCallBack self') = true.
Proof.
  destruct (complete_simulation example_current_t example_finished example_step
              example_error 7 example_schedule example_plotting_controller)
    as [[[ex e] self']|] eqn:Hrun.
  - exists ex, e, self'. split; [reflexivity|].
    destruct (heat_flux_is_plotted_once (list Qc) example_current_t example_finished
                example_step example_error example_schedule 7
                example_plotting_controller self' ex e) as (H1 & _ & H3).
    + reflexivity.
    + reflexivity.
    + reflexivity.
    + reflexivity.
    + exact Hrun.
    + split; [exact H1|exact H3].
  - exfalso. vm_compute in Hrun. discriminate.
Defined.

(** Two saves of the inverse algorithm within the second 1. *)
Lemma saves_within_one_second_overwrite_witness :
  exists fs1 fs2,
    _save_results_to_csv_file example_getattr "inverse" "t" "T_x0" "Temperature [C]"
      ([0; 1], [qz 20; qz 21]) (Q2Qc (3 # 2)) []
    = Ok (tt, fs1)
    /\ _save_results_to_csv_file example_getattr "inverse" "t" "T_x0"
         "Temperature [C]" ([0], [qz 30]) (Q2Qc (7 # 4)) fs1
       = Ok (tt, fs2)
    /\ csv_file_name "inverse" (Q2Qc (7 # 4)) = csv_file_name "inverse" (Q2Qc (3 # 2))
    /\ read_file (csv_file_name "inverse" (Q2Qc (3 # 2))) fs2
       = Some ([Text "Time [s]"; Text "Temperature [C]"]
               :: map (fun p => [Number (fst p); Number (snd p)])
                    (combine [0] [qz 30]))
    /\ length (filter (fun f => String.eqb (fst f)
                                  (csv_file_name "inverse" (Q2Qc (3 # 2)))) fs2)
       = 1%nat.
Proof.
  apply (saves_within_one_second_overwrite (list Qc * list Qc) example_getattr
           "inverse" "t" "T_x0" "Temperature [C]" "t" "T_x0" "Temperature [C]"
           ([0; 1], [qz 20; qz 21]) ([0], [qz 30]) (Q2Qc (3 # 2)) (Q2Qc (7 # 4)) []
           [0; 1] [qz 20; qz 21] [0] [qz 30]).
  - reflexivity.
  - reflexivity.
  - reflexivity.
  - reflexivity.
  - reflexivity.
Defined.

(** The file of the example, whose name ends the whole seconds of the
    clock and [.csv]. *)
Example saved_file_of_the_example :
  csv_file_name "inverse" (Q2Qc (3 # 2)) = "inverse-1.csv"
  /\ _save_results_to_csv_file example_getattr "inverse" "t" "T_x0" "Temperature [C]"
       ([0; 1; qz 2], [qz 20; qz 21]) (Q2Qc (3 # 2)) []
     = Ok (tt, [("inverse-1.csv",
                 [[Text "Time [s]"; Text "Temperature [C]"];
                  [Number 0; Number (qz 20)];
                  [Number 1; Number (qz 21)]])])
  /\ _save_results_to_csv_file example_getattr "inverse" "" "" "Temperature [C]"
       ([0; 1; qz 2], [qz 20; qz 21]) (Q2Qc (3 # 2)) []
     = Raise "AttributeError".
Proof. repeat split; reflexivity. Qed.

End FurtherControllerExamples.
